(** * Markdown-to-HTML converter: a shallow embedding and its properties

    The development follows the four stages of the converter
    ([tokenize], [parse], [process_inline], [render]) and the entry point
    [convert].  Python strings are modelled as lists of characters whose
    code points lie in the Latin-1 range (0..255); the character classes
    used by [str.strip], [str.splitlines] and the [re] module ([\s], [\w],
    [\d], [.]) are the Unicode ones restricted to that range.  The compiled
    patterns of the source are regex syntax trees run by a small
    backtracking matcher that explores alternatives in the order of
    Python's [re] engine (greedy and lazy repetition, capture groups,
    back-references, [^] and [$]).  The one exception the code can raise,
    the [ValueError] of [int] on a run of more than 4300 digits, is the
    result [None] of [parse] and of [convert]; the result of [convert]
    comes with the list of the stages it has called. *)

From Stdlib Require Import ZArith List Ascii String Lia DecimalString.
From stdpp Require Import base tactics option list gmap.
Import ListNotations.

Set Default Proof Using "Type".

(** ** Strings *)

Definition str := list ascii.

Inductive literal : Set := LNil | LCons (a : ascii) (l : literal).

Fixpoint literal_of_bytes (l : list Byte.byte) : literal :=
  match l with
  | [] => LNil
  | b :: l' => LCons (ascii_of_byte b) (literal_of_bytes l')
  end.

Fixpoint bytes_of_literal (l : literal) : list Byte.byte :=
  match l with
  | LNil => []
  | LCons a l' => byte_of_ascii a :: bytes_of_literal l'
  end.

Declare Scope str_scope.
Delimit Scope str_scope with str.
#[warnings="-via-type-mismatch,-via-type-remapping"]
String Notation str literal_of_bytes bytes_of_literal
  (via literal mapping [[nil] => LNil, [cons] => LCons]) : str_scope.
Bind Scope str_scope with str.
Open Scope str_scope.
Open Scope list_scope.

(** The double quote and the line feed, written by code point. *)
Definition dquote : ascii := ascii_of_nat 34.
Definition LF : ascii := ascii_of_nat 10.
Definition CR : ascii := ascii_of_nat 13.

Definition code (c : ascii) : nat := nat_of_ascii c.

Definition chr_eqb (a b : ascii) : bool := Ascii.eqb a b.

Definition between (lo hi : nat) (c : ascii) : bool :=
  (lo <=? code c) && (code c <=? hi).

(** [Py_UNICODE_ISSPACE] on code points below 256: used by [str.strip],
    [str.isspace] and the pattern class [\s]. *)
Definition is_space (c : ascii) : bool :=
  between 9 13 c || between 28 32 c || (code c =? 133) || (code c =? 160).

(** [Py_UNICODE_ISLINEBREAK] on code points below 256: the boundaries of
    [str.splitlines]. *)
Definition is_linebreak (c : ascii) : bool :=
  between 10 13 c || between 28 30 c || (code c =? 133).

(** The pattern class [\d] ([Py_UNICODE_ISDECIMAL]). *)
Definition is_digit (c : ascii) : bool := between 48 57 c.

(** The pattern class [\w]: alphanumeric or underscore. *)
Definition is_word (c : ascii) : bool :=
  between 48 57 c || between 65 90 c || between 97 122 c || (code c =? 95)
  || (code c =? 170) || (code c =? 178) || (code c =? 179) || (code c =? 181)
  || (code c =? 185) || (code c =? 186) || between 188 190 c
  || between 192 214 c || between 216 246 c || between 248 255 c.

(** The pattern atom [.] without DOTALL: anything but a line feed. *)
Definition is_dot (c : ascii) : bool := negb (chr_eqb c LF).

Definition is_chr (a : ascii) (c : ascii) : bool := chr_eqb a c.
Definition not_chr (a : ascii) (c : ascii) : bool := negb (chr_eqb a c).

Fixpoint take_while (p : ascii -> bool) (s : str) : str :=
  match s with
  | c :: s' => if p c then c :: take_while p s' else []
  | [] => []
  end.

Fixpoint drop_while (p : ascii -> bool) (s : str) : str :=
  match s with
  | c :: s' => if p c then drop_while p s' else s
  | [] => []
  end.

(** [s.lstrip()], [s.rstrip()], [s.strip()] *)
Definition lstrip (s : str) : str := drop_while is_space s.
Definition rstrip (s : str) : str := rev (drop_while is_space (rev s)).
Definition strip (s : str) : str := rstrip (lstrip s).

(** [s.lstrip(chars)] for a one-character [chars] *)
Definition lstrip_chr (a : ascii) (s : str) : str := drop_while (is_chr a) s.

(** [sep.join(parts)] *)
Fixpoint join (sep : str) (parts : list str) : str :=
  match parts with
  | [] => ""
  | [p] => p
  | p :: ps => p ++ sep ++ join sep ps
  end.

(** [s * n] for an integer [n]: nothing when [n] is not positive. *)
Definition str_mul (s : str) (n : Z) : str := concat (repeat s (Z.to_nat n)).

(** [str(n)] for an integer, as formatted by an f-string. *)
Definition str_of_int (n : Z) : str :=
  list_ascii_of_string (NilZero.string_of_int (Z.to_int n)).

(** The decimal value of a run of ASCII digits. *)
Definition decimal_value (digits : str) : Z :=
  fold_left (fun acc c => 10 * acc + Z.of_nat (code c - 48))%Z digits 0%Z.

(** [sys.get_int_max_str_digits()]: the interpreter's limit on the number
    of digits of an integer string, at its default. *)
Definition int_max_str_digits : Z := 4300.

(** [int(digits)] on a run of ASCII digits: its decimal value, or [None]
    for the [ValueError] that [int] raises when the run, leading zeros
    included, has more digits than the limit. *)
Definition int_of_digits (digits : str) : option Z :=
  if (Z.of_nat (length digits) <=? int_max_str_digits)%Z
  then Some (decimal_value digits)
  else None.

Definition str_eqb (a b : str) : bool := bool_decide (a = b).

(** [s.replace(c, by)] for a one-character [c] *)
Definition replace_chr (c : ascii) (by_ : str) (s : str) : str :=
  flat_map (fun x => if chr_eqb x c then by_ else [x]) s.

(** ** Lexer *)

(** [s.splitlines()]: [cur] is the current line, most recent character
    first. A carriage return directly followed by a line feed is one
    boundary; a boundary at the very end opens no further line. *)
Fixpoint splitlines_from (cur : str) (s : str) : list str :=
  match s with
  | [] => match cur with [] => [] | _ => [rev cur] end
  | c :: s' =>
      if is_linebreak c then
        rev cur ::
          match s' with
          | c' :: s'' =>
              if chr_eqb c CR && chr_eqb c' LF
              then splitlines_from [] s''
              else splitlines_from [] s'
          | [] => []
          end
      else splitlines_from (c :: cur) s'
  end.

Definition splitlines (s : str) : list str := splitlines_from [] s.

Definition tokenize (markdown : str) : list str := splitlines markdown.

(** ** Regular expressions

    The syntax covers what the patterns of the source use.  Repetition
    operators are only ever applied to single-character atoms there, so
    [Rep] repeats a character class; [lo] and [hi] are the bounds of the
    quantifier ([hi = None]: unbounded) and [greedy = false] is the lazy
    form written with a trailing [?]. *)

Inductive regex : Type :=
| Eps
| Chr (c : ascii)
| Cls (p : ascii -> bool)
| Rep (greedy : bool) (lo : nat) (hi : option nat) (p : ascii -> bool)
| Cat (r1 r2 : regex)
| Alt (r1 r2 : regex)
| Grp (n : nat) (r : regex)
| Ref (n : nat)
| Bol
| Eol.

Declare Scope regex_scope.
Delimit Scope regex_scope with re.
Bind Scope regex_scope with regex.
Infix "⋅" := Cat (at level 41, right associativity) : regex_scope.
Infix "∣" := Alt (at level 51, right associativity) : regex_scope.

(** A literal string, and the greedy [r?]. *)
Fixpoint Lit (s : str) : regex :=
  match s with
  | [] => Eps
  | [c] => Chr c
  | c :: s' => Cat (Chr c) (Lit s')
  end.

Definition Opt (r : regex) : regex := Alt r Eps.

(** A successful match: where it ends, what is left of the subject, and
    the captured groups, most recently closed first. *)
Record rmatch : Type := Match {
  m_end : nat;
  m_rest : str;
  m_groups : list (nat * str)
}.

Definition orelse {A} (a b : option A) : option A :=
  match a with
  | Some x => Some x
  | None => b
  end.

Fixpoint lookup_group (n : nat) (g : list (nat * str)) : option str :=
  match g with
  | [] => None
  | (i, s) :: g' => if Nat.eqb i n then Some s else lookup_group n g'
  end.

Fixpoint starts_with (t s : str) : bool :=
  match t, s with
  | [], _ => true
  | a :: t', b :: s' => chr_eqb a b && starts_with t' s'
  | _ :: _, [] => false
  end.

Definition may_repeat (hi : option nat) : bool :=
  match hi with
  | Some 0 => false
  | _ => true
  end.

(** Repetition of a character class [p] followed by the continuation [k].
    The greedy form tries one more character before trying to stop; the
    lazy form tries to stop first. *)
Fixpoint rep (greedy : bool) (p : ascii -> bool) (lo : nat) (hi : option nat)
    (k : nat -> str -> option rmatch) (pos : nat) (cs : str) {struct cs}
    : option rmatch :=
  let stop := match lo with 0 => k pos cs | S _ => None end in
  let more :=
    match cs with
    | c :: cs' =>
        if p c && may_repeat hi
        then rep greedy p (Nat.pred lo) (Nat.pred <$> hi) k (S pos) cs'
        else None
    | [] => None
    end in
  if greedy then orelse more stop else orelse stop more.

(** The backtracking matcher in continuation-passing style: [run r k pos
    cs g] matches [r] at offset [pos], where [cs] is the rest of the
    subject and [g] the groups captured so far, and hands over to [k]. *)
Fixpoint run (r : regex) (k : nat -> str -> list (nat * str) -> option rmatch)
    (pos : nat) (cs : str) (g : list (nat * str)) : option rmatch :=
  match r with
  | Eps => k pos cs g
  | Chr c =>
      match cs with
      | c' :: cs' => if chr_eqb c c' then k (S pos) cs' g else None
      | [] => None
      end
  | Cls p =>
      match cs with
      | c' :: cs' => if p c' then k (S pos) cs' g else None
      | [] => None
      end
  | Rep greedy lo hi p => rep greedy p lo hi (fun pos' cs' => k pos' cs' g) pos cs
  | Cat r1 r2 => run r1 (run r2 k) pos cs g
  | Alt r1 r2 => orelse (run r1 k pos cs g) (run r2 k pos cs g)
  | Grp n r' =>
      run r' (fun pos' cs' g' => k pos' cs' ((n, take (pos' - pos) cs) :: g'))
        pos cs g
  | Ref n =>
      match lookup_group n g with
      | Some t =>
          if starts_with t cs
          then k (pos + length t) (drop (length t) cs) g
          else None
      | None => None
      end
  | Bol => if Nat.eqb pos 0 then k pos cs g else None
  | Eol =>
      match cs with
      | [] => k pos cs g
      | [c] => if chr_eqb c LF then k pos cs g else None
      | _ => None
      end
  end.

Definition accept (pos : nat) (cs : str) (g : list (nat * str)) : option rmatch :=
  Some (Match pos cs g).

(** [pattern.match(s)] *)
Definition re_match (r : regex) (s : str) : option rmatch := run r accept 0 s [].

Definition is_match (r : regex) (s : str) : bool :=
  match re_match r s with
  | Some _ => true
  | None => false
  end.

(** [m.group(n)]; a group that took no part in the match reads as the
    empty string (the source only reads such a group as [m.group(1) or '']). *)
Definition group (m : rmatch) (n : nat) : str := default "" (lookup_group n (m_groups m)).

(** Replacement templates: literal text and group references. *)
Inductive tpl_item : Type :=
| TLit (s : str)
| TGrp (n : nat).

Definition expand (tpl : list tpl_item) (m : rmatch) : str :=
  flat_map (fun it => match it with TLit s => s | TGrp n => group m n end) tpl.

(** [pattern.sub(template, s)]: the leftmost match is searched for from
    each offset in turn; after a match the search resumes where the match
    ended.  [skip] counts the characters of the last match still to be
    passed over. *)
Fixpoint sub_from (r : regex) (tpl : list tpl_item) (pos skip : nat) (s : str) : str :=
  match skip with
  | S n =>
      match s with
      | [] => []
      | _ :: s' => sub_from r tpl (S pos) n s'
      end
  | 0 =>
      match run r accept pos s [] with
      | Some m =>
          expand tpl m ++
          match m_end m - pos with
          | S n =>
              match s with
              | [] => []
              | _ :: s' => sub_from r tpl (S pos) n s'
              end
          | 0 =>
              match s with
              | [] => []
              | c :: s' => c :: sub_from r tpl (S pos) 0 s'
              end
          end
      | None =>
          match s with
          | [] => []
          | c :: s' => c :: sub_from r tpl (S pos) 0 s'
          end
      end
  end.

Definition re_sub (r : regex) (tpl : list tpl_item) (s : str) : str :=
  sub_from r tpl 0 0 s.

(** ** A declarative reading of the patterns

    [matches r pos cs g pos' cs' g'] says that [r] can take the matcher
    from offset [pos] with subject rest [cs] and groups [g] to offset
    [pos'] with rest [cs'] and groups [g'], whatever the order in which
    the alternatives are tried. *)

Inductive matches :
  regex -> nat -> str -> list (nat * str) -> nat -> str -> list (nat * str) -> Prop :=
| M_Eps pos cs g :
    matches Eps pos cs g pos cs g
| M_Chr c pos cs g :
    matches (Chr c) pos (c :: cs) g (S pos) cs g
| M_Cls (p : ascii -> bool) c pos cs g :
    p c = true ->
    matches (Cls p) pos (c :: cs) g (S pos) cs g
| M_Rep greedy lo hi (p : ascii -> bool) w pos cs g :
    Forall (fun c => p c = true) w ->
    lo <= length w ->
    (forall h, hi = Some h -> length w <= h) ->
    matches (Rep greedy lo hi p) pos (w ++ cs) g (pos + length w) cs g
| M_Cat r1 r2 pos cs g pos1 cs1 g1 pos2 cs2 g2 :
    matches r1 pos cs g pos1 cs1 g1 ->
    matches r2 pos1 cs1 g1 pos2 cs2 g2 ->
    matches (Cat r1 r2) pos cs g pos2 cs2 g2
| M_AltL r1 r2 pos cs g pos' cs' g' :
    matches r1 pos cs g pos' cs' g' ->
    matches (Alt r1 r2) pos cs g pos' cs' g'
| M_AltR r1 r2 pos cs g pos' cs' g' :
    matches r2 pos cs g pos' cs' g' ->
    matches (Alt r1 r2) pos cs g pos' cs' g'
| M_Grp n r pos cs g pos' cs' g' :
    matches r pos cs g pos' cs' g' ->
    matches (Grp n r) pos cs g pos' cs' ((n, take (pos' - pos) cs) :: g')
| M_Ref n t pos cs g :
    lookup_group n g = Some t ->
    matches (Ref n) pos (t ++ cs) g (pos + length t) cs g
| M_Bol cs g :
    matches Bol 0 cs g 0 cs g
| M_Eol pos cs g :
    cs = [] \/ cs = [LF] ->
    matches Eol pos cs g pos cs g.

(** ** Parser patterns

    Each pattern of the source is quoted above its syntax tree; a blank
    before a closing parenthesis in a quotation is not part of the
    pattern. *)

Definition ws_star : regex := Rep true 0 None is_space.
Definition ws_plus : regex := Rep true 1 None is_space.
Definition dot_star : regex := Rep true 0 None is_dot.
Definition dot_plus_lazy : regex := Rep false 1 None is_dot.

(** [^\s*(\*\*\*|---|___)\s*$] *)
Definition _RE_HR : regex :=
  (Bol ⋅ ws_star ⋅ Grp 1 (Lit "***" ∣ Lit "---" ∣ Lit "___") ⋅ ws_star ⋅ Eol)%re.

(** [^```(\w+)?\s*$] *)
Definition _RE_FENCE_START : regex :=
  (Bol ⋅ Lit "```" ⋅ Opt (Grp 1 (Rep true 1 None is_word)) ⋅ ws_star ⋅ Eol)%re.

(** [^```\s*$] *)
Definition _RE_FENCE_END : regex :=
  (Bol ⋅ Lit "```" ⋅ ws_star ⋅ Eol)%re.

(** [^\s*>+\s?(.* )$] *)
Definition _RE_BLOCKQUOTE : regex :=
  (Bol ⋅ ws_star ⋅ Rep true 1 None (is_chr ">") ⋅ Rep true 0 (Some 1) is_space
   ⋅ Grp 1 dot_star ⋅ Eol)%re.

Definition is_marker (c : ascii) : bool :=
  chr_eqb c "-" || chr_eqb c "*" || chr_eqb c "+".

(** [^(\s* )([-*+])\s+(.* )$] *)
Definition _RE_UNORDERED : regex :=
  (Bol ⋅ Grp 1 ws_star ⋅ Grp 2 (Cls is_marker) ⋅ ws_plus ⋅ Grp 3 dot_star ⋅ Eol)%re.

(** [^(\s* )(\d+)\.\s+(.* )$] *)
Definition _RE_ORDERED : regex :=
  (Bol ⋅ Grp 1 ws_star ⋅ Grp 2 (Rep true 1 None is_digit) ⋅ Chr "." ⋅ ws_plus
   ⋅ Grp 3 dot_star ⋅ Eol)%re.

(** [^(#{1,6})\s*(.* )$] *)
Definition _RE_HEADING : regex :=
  (Bol ⋅ Grp 1 (Rep true 1 (Some 6) (is_chr "#")) ⋅ ws_star ⋅ Grp 2 dot_star ⋅ Eol)%re.

(** ** Inline patterns *)

(** [(\*\*|__)(.+?)\1] *)
Definition _RE_BOLD : regex :=
  (Grp 1 (Lit "**" ∣ Lit "__") ⋅ Grp 2 dot_plus_lazy ⋅ Ref 1)%re.

(** [(\*|_)(.+?)\1] *)
Definition _RE_ITALIC : regex :=
  (Grp 1 (Chr "*" ∣ Chr "_") ⋅ Grp 2 dot_plus_lazy ⋅ Ref 1)%re.

(** [`([^`]+?)`] *)
Definition _RE_CODE : regex :=
  (Chr "`" ⋅ Grp 1 (Rep false 1 None (not_chr "`")) ⋅ Chr "`")%re.

(** [\[([^\]]+?)\]\(([^)]+?)\)] *)
Definition _RE_LINK : regex :=
  (Chr "[" ⋅ Grp 1 (Rep false 1 None (not_chr "]")) ⋅ Chr "]" ⋅ Chr "("
   ⋅ Grp 2 (Rep false 1 None (not_chr ")")) ⋅ Chr ")")%re.

(** [!\[([^\]]*?)\]\(([^)]+?)\)] *)
Definition _RE_IMAGE : regex :=
  (Chr "!" ⋅ Chr "[" ⋅ Grp 1 (Rep false 0 None (not_chr "]")) ⋅ Chr "]" ⋅ Chr "("
   ⋅ Grp 2 (Rep false 1 None (not_chr ")")) ⋅ Chr ")")%re.

(** The replacement templates of [_replace_inline]. *)
Definition TPL_IMAGE : list tpl_item :=
  [TLit ("<img src=" ++ [dquote]); TGrp 2; TLit ([dquote] ++ " alt=" ++ [dquote]);
   TGrp 1; TLit ([dquote] ++ "/>")].
Definition TPL_LINK : list tpl_item :=
  [TLit ("<a href=" ++ [dquote]); TGrp 2; TLit ([dquote] ++ ">"); TGrp 1; TLit "</a>"].
Definition TPL_CODE : list tpl_item := [TLit "<code>"; TGrp 1; TLit "</code>"].
Definition TPL_BOLD : list tpl_item := [TLit "<strong>"; TGrp 2; TLit "</strong>"].
Definition TPL_ITALIC : list tpl_item := [TLit "<em>"; TGrp 2; TLit "</em>"].

(** ** Inline processor *)

Definition _replace_inline (text : str) : str :=
  let text := re_sub _RE_IMAGE TPL_IMAGE text in
  let text := re_sub _RE_LINK TPL_LINK text in
  let text := re_sub _RE_CODE TPL_CODE text in
  let text := re_sub _RE_BOLD TPL_BOLD text in
  let text := re_sub _RE_ITALIC TPL_ITALIC text in
  text.

(** ** Blocks

    The parser builds each block as a dictionary with string keys.  The
    keys in use are ['type'], ['level'], ['content'], ['language'],
    ['indent'] and ['number']; a block is the record of what is stored
    under each of them, [None] for a key that is absent. *)

Record Block : Type := mkBlock {
  b_type : option str;
  b_level : option Z;
  b_content : option str;
  b_language : option str;
  b_indent : option Z;
  b_number : option Z
}.

Definition empty_dict : Block := mkBlock None None None None None None.

(** [block['content'] = text] *)
Definition set_content (text : str) (block : Block) : Block :=
  mkBlock (b_type block) (b_level block) (Some text) (b_language block)
    (b_indent block) (b_number block).

(** The dictionary displays of [parse]. *)
Definition hr_block : Block :=
  mkBlock (Some "hr") None None None None None.
Definition heading_block (level : Z) (content : str) : Block :=
  mkBlock (Some "heading") (Some level) (Some content) None None None.
Definition code_block (language code : str) : Block :=
  mkBlock (Some "code_block") None (Some code) (Some language) None None.
Definition blockquote_block (level : Z) (content : str) : Block :=
  mkBlock (Some "blockquote") (Some level) (Some content) None None None.
Definition ul_block (indent : Z) (content : str) : Block :=
  mkBlock (Some "ul") None (Some content) None (Some indent) None.
Definition ol_block (indent number : Z) (content : str) : Block :=
  mkBlock (Some "ol") None (Some content) None (Some indent) (Some number).
Definition paragraph_block (content : str) : Block :=
  mkBlock (Some "paragraph") None (Some content) None None None.

Definition len (s : str) : Z := Z.of_nat (length s).

(** ** Parser

    The cursor loop of [parse] is a recursion over the lines that are left.
    Its three inner loops (the body of a fence, a run of blockquote lines,
    the lines of a paragraph) are the modes [InFence], [InQuote] and
    [InPara], which carry the local variables of the loop. *)

Inductive mode : Type :=
| AtTop
| InFence (language : str) (code_lines : list str)
| InQuote
| InPara (para_lines : list str).

(** [not nxt.strip()] *)
Definition is_blank (line : str) : bool :=
  match strip line with
  | [] => true
  | _ => false
  end.

(** The test that ends a paragraph at a line opening another block. *)
Definition starts_block (nxt : str) : bool :=
  is_match _RE_HR nxt || is_match _RE_HEADING nxt || is_match _RE_FENCE_START nxt
  || is_match _RE_BLOCKQUOTE nxt || is_match _RE_UNORDERED nxt
  || is_match _RE_ORDERED nxt.

(** The body of the blockquote loop for one line. *)
Definition quote_line (line : str) : Block :=
  let level := (len line - len (lstrip_chr ">" line))%Z in
  let content := strip (lstrip_chr ">" line) in
  let level := if (level =? 0)%Z then 1%Z else level in
  blockquote_block level content.

(** [parse] returns the list of its blocks, or raises the [ValueError] of
    [int]; the result of the model is then [None].  A block joins the list
    ([blocks.append]) only if the rest of the run raises nothing.

    One turn of the outer loop on [line]; [k m] is the parse of the lines
    after it, entered in mode [m]. *)
Definition parse_line (line : str) (k : mode -> option (list Block))
    : option (list Block) :=
  if is_match _RE_HR line then cons hr_block <$> k AtTop
  else match re_match _RE_HEADING line with
  | Some m =>
      let level := len (group m 1) in
      let content := strip (group m 2) in
      cons (heading_block level content) <$> k AtTop
  | None =>
  match re_match _RE_FENCE_START line with
  | Some m =>
      let language := group m 1 in
      k (InFence language [])
  | None =>
  if is_match _RE_BLOCKQUOTE line then cons (quote_line line) <$> k InQuote
  else match re_match _RE_UNORDERED line with
  | Some m =>
      let indent := len (group m 1) in
      let item_text := strip (group m 3) in
      cons (ul_block indent item_text) <$> k AtTop
  | None =>
  match re_match _RE_ORDERED line with
  | Some m =>
      let indent := len (group m 1) in
      number ← int_of_digits (group m 2);
      let item_text := strip (group m 3) in
      cons (ol_block indent number item_text) <$> k AtTop
  | None =>
  if is_blank line then k AtTop
  else k (InPara [strip line])
  end end end end.

Fixpoint parse_from (m : mode) (tokens : list str) : option (list Block) :=
  match tokens with
  | [] =>
      Some
        match m with
        | InFence language code_lines => [code_block language (join [LF] code_lines)]
        | InPara para_lines => [paragraph_block (join " " para_lines)]
        | AtTop | InQuote => []
        end
  | line :: rest =>
      match m with
      | AtTop => parse_line line (fun m' => parse_from m' rest)
      | InFence language code_lines =>
          if is_match _RE_FENCE_END line
          then cons (code_block language (join [LF] code_lines))
                 <$> parse_from AtTop rest
          else parse_from (InFence language (code_lines ++ [line])) rest
      | InQuote =>
          if is_match _RE_BLOCKQUOTE line
          then cons (quote_line line) <$> parse_from InQuote rest
          else parse_line line (fun m' => parse_from m' rest)
      | InPara para_lines =>
          if is_blank line || starts_block line
          then cons (paragraph_block (join " " para_lines))
                 <$> parse_line line (fun m' => parse_from m' rest)
          else parse_from (InPara (para_lines ++ [strip line])) rest
      end
  end.

Definition parse (tokens : list str) : option (list Block) := parse_from AtTop tokens.

(** ** Inline processor on blocks

    [process_inline] updates the dictionaries in place and returns the list
    it was given.  The store maps the identity of each dictionary to its
    current contents; a list of blocks is a list of identities. *)

Definition process_block (block : Block) : Block :=
  match b_content block with
  | Some text => set_content (_replace_inline text) block
  | None => block
  end.

Definition process_ref (h : gmap nat Block) (r : nat) : gmap nat Block :=
  match h !! r with
  | Some block => <[r := process_block block]> h
  | None => h
  end.

Definition process_inline (blocks : list nat) (h : gmap nat Block)
    : gmap nat Block * list nat :=
  (foldl process_ref h blocks, blocks).

(** A list of freshly built dictionaries, as [parse] returns it. *)
Definition alloc (blocks : list Block) : gmap nat Block * list nat :=
  (map_seq 0 blocks, seq 0 (length blocks)).

Definition deref (h : gmap nat Block) (blocks : list nat) : list Block :=
  omap (fun r => h !! r) blocks.

(** ** Renderer *)

(** [html.escape(text)], quotes included *)
Definition _escape (text : str) : str :=
  let s := replace_chr "&" "&amp;" text in
  let s := replace_chr "<" "&lt;" s in
  let s := replace_chr ">" "&gt;" s in
  let s := replace_chr dquote "&quot;" s in
  let s := replace_chr "'" "&#x27;" s in
  s.

Definition render_block (block : Block) : str :=
  let btype := b_type block in
  if bool_decide (btype = Some "heading") then
    let level := default 1%Z (b_level block) in
    let content := default "" (b_content block) in
    "<h" ++ str_of_int level ++ ">" ++ content ++ "</h" ++ str_of_int level ++ ">"
  else if bool_decide (btype = Some "paragraph") then
    let content := default "" (b_content block) in
    "<p>" ++ content ++ "</p>"
  else if bool_decide (btype = Some "hr") then
    "<hr/>"
  else if bool_decide (btype = Some "code_block") then
    let language := default "" (b_language block) in
    let code := default "" (b_content block) in
    match language with
    | _ :: _ =>
        "<pre><code class=" ++ [dquote] ++ "language-" ++ language ++ [dquote] ++ ">"
          ++ _escape code ++ "</code></pre>"
    | [] => "<pre><code>" ++ _escape code ++ "</code></pre>"
    end
  else if bool_decide (btype = Some "blockquote") then
    let content := default "" (b_content block) in
    let level := default 1%Z (b_level block) in
    let opening := str_mul "<blockquote>" level in
    let closing := str_mul "</blockquote>" level in
    opening ++ content ++ closing
  else if bool_decide (btype = Some "ul") then
    let item := default "" (b_content block) in
    "<ul><li>" ++ item ++ "</li></ul>"
  else if bool_decide (btype = Some "ol") then
    let item := default "" (b_content block) in
    "<ol><li>" ++ item ++ "</li></ol>"
  else "".

Definition render (blocks : list Block) : str := concat (map render_block blocks).

(** ** Converter

    [convert] calls the four stages one after the other.  A call of it is
    recorded as the list of the stages it has called, in the order of the
    calls, together with what it returns: the HTML, or [None] when a stage
    raised and the call of [convert] with it. *)

Inductive stage : Type := Lexer | Parser | InlineProcessor | Renderer.

Record traced (A : Type) : Type := Traced {
  calls : list stage;
  returned : option A
}.
Arguments Traced {A} _ _.
Arguments calls {A} _.
Arguments returned {A} _.

#[global] Instance traced_ret : MRet traced := fun A a => Traced [] (Some a).

#[global] Instance traced_bind : MBind traced := fun A B f r =>
  match returned r with
  | Some a => Traced (calls r ++ calls (f a)) (returned (f a))
  | None => Traced (calls r) None
  end.

(** The call of stage [s], which returns [x] or raises. *)
Definition call {A} (s : stage) (x : option A) : traced A := Traced [s] x.

Definition convert (markdown : str) : traced str :=
  if str_eqb markdown "" || str_eqb (strip markdown) "" then mret ""
  else
    tokens ← call Lexer (Some (tokenize markdown));
    '(h, blocks) ← call Parser (alloc <$> parse tokens);
    '(h, blocks) ← call InlineProcessor (Some (process_inline blocks h));
    call Renderer (Some (render (deref h blocks))).

(** The four stages, in the order of their calls. *)
Definition all_stages : list stage := [Lexer; Parser; InlineProcessor; Renderer].

(** ** Vocabulary of the statements *)

(** The three strings that make a horizontal rule. *)
Definition is_rule_token (s : str) : Prop := s = "***" \/ s = "---" \/ s = "___".

(** Two dictionaries that agree under every key but ['content'], and that
    either both have that key or both lack it. *)
Definition same_but_content (b b' : Block) : Prop :=
  b_type b' = b_type b /\ b_level b' = b_level b /\ b_language b' = b_language b
  /\ b_indent b' = b_indent b /\ b_number b' = b_number b
  /\ (is_Some (b_content b') <-> is_Some (b_content b)).

(** What the inline processor may do to a dictionary, and to a store. *)
Definition block_frame (b b' : Block) : Prop :=
  same_but_content b b' /\ (b_content b = None -> b' = b).

Definition store_frame (h h' : gmap nat Block) : Prop :=
  forall r,
    match h !! r, h' !! r with
    | Some b, Some b' => block_frame b b'
    | None, None => True
    | _, _ => False
    end.

(** A closing fence: three backticks and nothing but whitespace after. *)
Definition closing_fence (line : str) : Prop :=
  exists w, Forall (fun c => is_space c = true) w /\ line = "```" ++ w.


(** Text in which no inline pattern can find its delimiters. *)
Definition is_delimiter (c : ascii) : bool :=
  chr_eqb c "[" || chr_eqb c "`" || chr_eqb c "*" || chr_eqb c "_".

Definition plain_text (s : str) : Prop :=
  Forall (fun c => is_delimiter c = false) s.

(** The decimal digit [n] as a character. *)
Definition digit_chr (n : nat) : ascii := ascii_of_nat (48 + n).

(** An unordered-list line, by its parts: the indentation, the marker,
    the whitespace after the marker and the item text. *)
Record ul_line : Type := UlLine {
  ul_indent : str;
  ul_marker : ascii;
  ul_gap : str;
  ul_text : str
}.

Definition ul_source (it : ul_line) : str :=
  ul_indent it ++ ul_marker it :: ul_gap it ++ ul_text it.

(** Whitespace that does not end a line. *)
Definition is_blank_chr (c : ascii) : bool := is_space c && negb (is_linebreak c).

Definition ul_wf (it : ul_line) : Prop :=
  Forall (fun c => is_blank_chr c = true) (ul_indent it)
  /\ is_marker (ul_marker it) = true
  /\ ul_gap it <> []
  /\ Forall (fun c => is_blank_chr c = true) (ul_gap it)
  /\ Forall (fun c => is_linebreak c = false) (ul_text it).




(** An opening fence: three backticks, an optional language tag of word
    characters, and nothing but whitespace after. *)
Definition opening_fence (line : str) : Prop :=
  exists lang w,
    Forall (fun c => is_word c = true) lang
    /\ Forall (fun c => is_space c = true) w
    /\ line = "```" ++ lang ++ w.




Definition in_fence (m : mode) : bool :=
  match m with
  | InFence _ _ => true
  | _ => false
  end.

(** The paragraph that a line opening another block closes. *)
Definition flush (m : mode) : list Block :=
  match m with
  | InPara para_lines => [paragraph_block (join " " para_lines)]
  | _ => []
  end.


Definition is_emphasis (c : ascii) : bool := chr_eqb c "*" || chr_eqb c "_".

(** ** Lines, blocks and pieces of a subject *)

(** A line terminator: one line-boundary character, or a carriage return
    followed by a line feed. *)
Definition line_end (sep : str) : Prop :=
  sep = [CR; LF] \/ exists c, sep = [c] /\ is_linebreak c = true.

(** What [splitlines_from] goes on with after the boundary character [c]:
    the line feed that follows a carriage return belongs to the boundary. *)
Definition after_break (c : ascii) (s : str) : str :=
  match s with
  | c' :: s'' => if chr_eqb c CR && chr_eqb c' LF then s'' else s
  | [] => []
  end.

Definition no_break (c : ascii) : bool := negb (is_linebreak c).

(** A text whose last character exists and is not a line boundary. *)
Definition ends_in_text (s : str) : Prop :=
  exists c, last s = Some c /\ is_linebreak c = false.

(** A string that is not empty and has no whitespace at either end. *)
Definition trimmed (s : str) : Prop := s <> [] /\ strip s = s.

(** A string, possibly empty, whose first and last characters are not
    whitespace: what is left of a text once the whitespace around it is
    taken away. *)
Definition no_outer_space (s : str) : Prop :=
  (forall c, head s = Some c -> is_space c = false)
  /\ (forall c, last s = Some c -> is_space c = false).

(** The dictionaries that [parse] builds, with the ranges of their fields. *)
Inductive parsed_block : Block -> Prop :=
| pb_hr :
    parsed_block hr_block
| pb_heading level content :
    (1 <= level <= 6)%Z -> strip content = content ->
    parsed_block (heading_block level content)
| pb_code language code :
    Forall (fun c => is_word c = true) language ->
    parsed_block (code_block language code)
| pb_blockquote level content :
    (1 <= level)%Z -> strip content = content ->
    parsed_block (blockquote_block level content)
| pb_ul indent content :
    (0 <= indent)%Z -> strip content = content ->
    parsed_block (ul_block indent content)
| pb_ol indent number content :
    (0 <= indent)%Z -> (0 <= number)%Z -> strip content = content ->
    parsed_block (ol_block indent number content)
| pb_paragraph content :
    trimmed content ->
    parsed_block (paragraph_block content).

(** What holds of the local variables of the inner loops of [parse]. *)
Definition mode_wf (m : mode) : Prop :=
  match m with
  | InFence language _ => Forall (fun c => is_word c = true) language
  | InPara para_lines => para_lines <> [] /\ Forall trimmed para_lines
  | AtTop | InQuote => True
  end.

(** The number of blocks a loop still owes when the input ends: the fence
    loop and the paragraph loop append their block after the loop. *)
Definition pending (m : mode) : nat :=
  match m with
  | InFence _ _ | InPara _ => 1
  | AtTop | InQuote => 0
  end.

(** The types that [render] has a branch for. *)
Definition known_type (t : option str) : bool :=
  bool_decide (t = Some "heading") || bool_decide (t = Some "paragraph")
  || bool_decide (t = Some "hr") || bool_decide (t = Some "code_block")
  || bool_decide (t = Some "blockquote") || bool_decide (t = Some "ul")
  || bool_decide (t = Some "ol").

(** The patterns tested by the main loop of [parse], in the order of the
    tests. *)
Definition block_patterns : list regex :=
  [_RE_HR; _RE_HEADING; _RE_FENCE_START; _RE_BLOCKQUOTE; _RE_UNORDERED; _RE_ORDERED].

(** A line that the paragraph loop gathers: not blank, and no start of
    another block. *)
Definition para_line (line : str) : Prop :=
  is_blank line = false /\ starts_block line = false.

(** The characters with which a line matching one of the block patterns
    can start, leading whitespace apart. *)
Definition is_block_start (c : ascii) : bool :=
  chr_eqb c "#" || chr_eqb c "`" || chr_eqb c ">" || chr_eqb c "-" || chr_eqb c "*"
  || chr_eqb c "+" || chr_eqb c "_" || is_digit c.

(** Whether the cursor of [parse] is inside a code fence after the given
    lines, when it was ([fenced = true]) or was not inside one before them. *)
Fixpoint in_fence_after (fenced : bool) (tokens : list str) : bool :=
  match tokens with
  | [] => fenced
  | line :: rest =>
      in_fence_after
        (if fenced then negb (is_match _RE_FENCE_END line)
         else is_match _RE_FENCE_START line)
        rest
  end.







(** What [html.escape] writes for one character. *)
Definition escape_chr (c : ascii) : str :=
  if chr_eqb c "&" then "&amp;"
  else if chr_eqb c "<" then "&lt;"
  else if chr_eqb c ">" then "&gt;"
  else if chr_eqb c dquote then "&quot;"
  else if chr_eqb c "'" then "&#x27;"
  else [c].

Definition is_special (c : ascii) : bool :=
  chr_eqb c "&" || chr_eqb c "<" || chr_eqb c ">" || chr_eqb c dquote
  || chr_eqb c "'".

(** Patterns without [^]: their matches do not depend on the offset. *)
Fixpoint bol_free (r : regex) : bool :=
  match r with
  | Bol => false
  | Cat r1 r2 | Alt r1 r2 => bol_free r1 && bol_free r2
  | Grp _ r' => bol_free r'
  | _ => true
  end.

(** A match moved [d] characters to the right. *)
Definition shift (d : nat) (m : rmatch) : rmatch :=
  Match (m_end m + d) (m_rest m) (m_groups m).

(** No match of [r] starts inside the piece [w] of the subject [w ++ s]. *)
Definition no_start (r : regex) (w s : str) : Prop :=
  forall a b, w = a ++ b -> b <> [] -> run r accept 0 (b ++ s) [] = None.

(** * Properties *)

(** ** Characters and strings *)

Lemma chr_eqb_eq (a b : ascii) : chr_eqb a b = true <-> a = b.
Proof. apply Ascii.eqb_eq. Qed.

Lemma chr_eqb_refl (a : ascii) : chr_eqb a a = true.
Proof. apply Ascii.eqb_refl. Qed.

Lemma chr_eqb_neq (a b : ascii) : chr_eqb a b = false <-> a <> b.
Proof. apply Ascii.eqb_neq. Qed.

Lemma str_eqb_eq (a b : str) : str_eqb a b = true <-> a = b.
Proof. unfold str_eqb. apply bool_decide_eq_true. Qed.

Lemma orelse_none_r {A} (a : option A) : orelse a None = a.
Proof. by destruct a. Qed.

Lemma take_drop_while (p : ascii -> bool) (s : str) :
  take_while p s ++ drop_while p s = s.
Proof. induction s as [|c s IH]; simpl; [done|]. destruct (p c); simpl; congruence. Qed.

Lemma take_while_all (p : ascii -> bool) (s : str) :
  Forall (fun c => p c = true) (take_while p s).
Proof.
  induction s as [|c s IH]; simpl; [constructor|].
  destruct (p c) eqn:E; [by constructor | constructor].
Qed.

Lemma drop_while_all (p : ascii -> bool) (s : str) :
  Forall (fun c => p c = true) s -> drop_while p s = [].
Proof. induction 1 as [|c s Hc _ IH]; simpl; [done|]. by rewrite Hc. Qed.

Lemma drop_while_app_all (p : ascii -> bool) (w s : str) :
  Forall (fun c => p c = true) w -> drop_while p (w ++ s) = drop_while p s.
Proof. induction 1 as [|c w Hc _ IH]; simpl; [done|]. by rewrite Hc. Qed.

Lemma take_while_app_all (p : ascii -> bool) (w s : str) :
  Forall (fun c => p c = true) w -> take_while p (w ++ s) = w ++ take_while p s.
Proof. induction 1 as [|c w Hc _ IH]; simpl; [done|]. rewrite Hc. by f_equal. Qed.

Lemma drop_while_stop (p : ascii -> bool) (c : ascii) (s : str) :
  p c = false -> drop_while p (c :: s) = c :: s.
Proof. intros H. simpl. by rewrite H. Qed.

Lemma take_while_stop (p : ascii -> bool) (c : ascii) (s : str) :
  p c = false -> take_while p (c :: s) = [].
Proof. intros H. simpl. by rewrite H. Qed.

Lemma drop_while_head (p : ascii -> bool) (s : str) (c : ascii) (t : str) :
  drop_while p s = c :: t -> p c = false.
Proof.
  induction s as [|a s IH]; simpl; [done|].
  destruct (p a) eqn:E; [done|]. intros [= <- <-]. done.
Qed.

Lemma strip_all_space (s : str) :
  Forall (fun c => is_space c = true) s -> strip s = "".
Proof.
  intros H. unfold strip, lstrip, rstrip. by rewrite (drop_while_all _ _ H).
Qed.

(** ** The store and the by-value view of [process_inline] *)

Lemma foldl_process_ref_seq (before todo : list Block) :
  foldl process_ref (map_seq 0 (before ++ todo)) (seq (length before) (length todo))
  = map_seq 0 (before ++ map process_block todo).
Proof.
  revert before. induction todo as [|b todo IH]; intros before; simpl; [done|].
  unfold process_ref at 2. rewrite lookup_map_seq_0.
  rewrite list_lookup_middle by done.
  rewrite insert_map_seq_0 by (rewrite length_app; simpl; lia).
  replace (<[length before:=process_block b]> (before ++ b :: todo))
    with ((before ++ [process_block b]) ++ todo).
  2:{ rewrite <- (Nat.add_0_r (length before)), insert_app_r. simpl.
      by rewrite <- app_assoc. }
  specialize (IH (before ++ [process_block b])).
  rewrite length_app in IH. simpl in IH. rewrite Nat.add_1_r in IH.
  rewrite IH. by rewrite <- app_assoc.
Qed.

Lemma deref_map_seq_from (before bs : list Block) :
  deref (map_seq 0 (before ++ bs)) (seq (length before) (length bs)) = bs.
Proof.
  unfold deref. revert before.
  induction bs as [|b bs IH]; intros before; simpl; [done|].
  rewrite lookup_map_seq_0, list_lookup_middle by done. simpl. f_equal.
  specialize (IH (before ++ [b])).
  rewrite length_app, <- app_assoc in IH. simpl in IH.
  by rewrite Nat.add_1_r in IH.
Qed.

Lemma deref_map_seq (bs : list Block) :
  deref (map_seq 0 bs) (seq 0 (length bs)) = bs.
Proof. apply (deref_map_seq_from [] bs). Qed.

(** On the fresh, pairwise distinct dictionaries that [parse] returns, the
    in-place update is the map of [process_block] over the list. *)
Lemma process_inline_fresh (bs : list Block) :
  deref (process_inline (alloc bs).2 (alloc bs).1).1 (process_inline (alloc bs).2 (alloc bs).1).2
  = map process_block bs.
Proof.
  unfold process_inline, alloc. simpl.
  pose proof (foldl_process_ref_seq [] bs) as H. simpl in H. rewrite H.
  rewrite <- (length_map process_block bs). apply deref_map_seq.
Qed.

Lemma convert_unfold (markdown : str) :
  convert markdown =
  if str_eqb markdown "" || str_eqb (strip markdown) "" then Traced [] (Some "")
  else match parse (tokenize markdown) with
       | Some blocks => Traced all_stages (Some (render (map process_block blocks)))
       | None => Traced [Lexer; Parser] None
       end.
Proof.
  unfold convert. destruct (_ || _); [done|].
  unfold mbind at 1. unfold traced_bind, call at 1. simpl.
  destruct (parse (tokenize markdown)) as [blocks|]; [|done].
  rewrite <- (process_inline_fresh blocks).
  unfold mbind, traced_bind, call. simpl.
  by destruct (process_inline (alloc blocks).2 (alloc blocks).1).
Qed.

(** ** The matcher is sound and complete for the declarative reading *)

Lemma orelse_some {A} (a b : option A) (x : A) :
  orelse a b = Some x -> a = Some x \/ (a = None /\ b = Some x).
Proof. destruct a; simpl; [left | right]; auto. Qed.

Lemma starts_with_app (t s : str) : starts_with t (t ++ s) = true.
Proof. induction t as [|a t IH]; simpl; [done|]. by rewrite chr_eqb_refl. Qed.

Lemma starts_with_inv (t s : str) :
  starts_with t s = true -> s = t ++ drop (length t) s.
Proof.
  revert s. induction t as [|a t IH]; intros [|b s]; simpl; try done.
  intros [Hab Hts]%andb_prop. apply chr_eqb_eq in Hab. subst b.
  f_equal. by apply IH.
Qed.

Section Rep.
Context (p : ascii -> bool) (k : nat -> str -> option rmatch).

Lemma rep_sound greedy lo hi pos cs m :
  rep greedy p lo hi k pos cs = Some m ->
  exists w cs',
    cs = w ++ cs' /\ Forall (fun c => p c = true) w /\ lo <= length w
    /\ (forall h, hi = Some h -> length w <= h)
    /\ k (pos + length w) cs' = Some m.
Proof.
  revert lo hi pos.
  assert (Hstop : forall lo hi pos cs,
    match lo with 0 => k pos cs | S _ => None end = Some m ->
    exists w cs', cs = w ++ cs' /\ Forall (fun c => p c = true) w
      /\ lo <= length w /\ (forall h, hi = Some h -> length w <= h)
      /\ k (pos + length w) cs' = Some m).
  { intros [|lo] hi pos cs0 H; [|done]. exists [], cs0. simpl.
    rewrite Nat.add_0_r. repeat split; auto; intros; lia. }
  induction cs as [|c cs IH]; intros lo hi pos H.
  - simpl in H. apply (Hstop lo hi pos []).
    destruct greedy; simpl in H; [done | by rewrite orelse_none_r in H].
  - simpl in H.
    assert (Hmore :
      (if p c && may_repeat hi
       then rep greedy p (Nat.pred lo) (Nat.pred <$> hi) k (S pos) cs
       else None) = Some m ->
      exists w cs', c :: cs = w ++ cs' /\ Forall (fun c => p c = true) w
        /\ lo <= length w /\ (forall h, hi = Some h -> length w <= h)
        /\ k (pos + length w) cs' = Some m).
    { destruct (p c) eqn:Hc; [|done]. destruct (may_repeat hi) eqn:Hhi; [|done].
      simpl. intros Hrec. apply IH in Hrec as (w & cs' & -> & Hw & Hlo & Hh & Hk).
      exists (c :: w), cs'. simpl. rewrite Nat.add_succ_r.
      repeat split; auto; [lia|].
      intros h ->. destruct h as [|h]; [done|]. specialize (Hh h eq_refl). lia. }
    destruct greedy; apply orelse_some in H as [H | [_ H]]; eauto.
Qed.

Lemma rep_complete greedy lo hi pos w cs :
  Forall (fun c => p c = true) w ->
  lo <= length w ->
  (forall h, hi = Some h -> length w <= h) ->
  is_Some (k (pos + length w) cs) ->
  is_Some (rep greedy p lo hi k pos (w ++ cs)).
Proof.
  intros Hw. revert lo hi pos.
  induction Hw as [|c w Hc Hw IH]; intros lo hi pos Hlo Hhi Hk.
  - simpl in *. rewrite Nat.add_0_r in Hk. destruct lo; [|lia].
    destruct cs as [|c cs]; simpl.
    + destruct greedy; simpl; [done | by rewrite orelse_none_r].
    + destruct Hk as [m Hm]. rewrite Hm.
      destruct greedy; simpl; [|done].
      by destruct (if p c && may_repeat hi then _ else _).
  - simpl app. simpl rep. rewrite Hc.
    assert (may_repeat hi = true) as ->.
    { destruct hi as [[|h]|]; try done. specialize (Hhi 0 eq_refl). simpl in Hhi. lia. }
    simpl andb. cbv iota.
    assert (is_Some (rep greedy p (Nat.pred lo) (Nat.pred <$> hi) k (S pos) (w ++ cs)))
      as [m Hm].
    { apply IH; [simpl in Hlo; lia | |].
      - intros h Hh. destruct hi as [h0|]; [|done]. simpl in Hh.
        injection Hh as <-. specialize (Hhi h0 eq_refl). simpl in Hhi. lia.
      - simpl in Hk. by rewrite Nat.add_succ_r in Hk. }
    rewrite Hm. destruct greedy; simpl; [done|].
    by destruct (match lo with 0 => _ | S _ => _ end).
Qed.

(** A greedy repetition that can take the whole run [w] of [p]-characters
    and whose continuation succeeds after it returns that first match. *)
Lemma rep_greedy_max lo hi pos w cs :
  Forall (fun c => p c = true) w ->
  match cs with c :: _ => p c = false | [] => True end ->
  lo <= length w ->
  (forall h, hi = Some h -> length w <= h) ->
  is_Some (k (pos + length w) cs) ->
  rep true p lo hi k pos (w ++ cs) = k (pos + length w) cs.
Proof.
  intros Hw Hcs. revert lo hi pos.
  induction Hw as [|c w Hc Hw IH]; intros lo hi pos Hlo Hhi Hk.
  - simpl in *. rewrite Nat.add_0_r in *. destruct lo; [|lia].
    destruct cs as [|c cs]; simpl; [done|]. by rewrite Hcs.
  - simpl app. simpl rep. rewrite Hc.
    assert (may_repeat hi = true) as ->.
    { destruct hi as [[|h]|]; try done. specialize (Hhi 0 eq_refl). simpl in Hhi. lia. }
    simpl andb. cbv iota. simpl length in *. rewrite Nat.add_succ_r in *.
    assert (rep true p (Nat.pred lo) (Nat.pred <$> hi) k (S pos) (w ++ cs)
            = k (S (pos + length w)) cs) as ->.
    { apply IH; [lia | | done].
      intros h Hh. destruct hi as [h0|]; [|done]. simpl in Hh.
      injection Hh as <-. specialize (Hhi h0 eq_refl). lia. }
    by destruct Hk as [m ->].
Qed.
End Rep.

Theorem run_sound (r : regex) :
  forall k pos cs g m,
    run r k pos cs g = Some m ->
    exists pos' cs' g', matches r pos cs g pos' cs' g' /\ k pos' cs' g' = Some m.
Proof.
  induction r as [|c|p|greedy lo hi p|r1 IH1 r2 IH2|r1 IH1 r2 IH2|n r IH|n| |];
    intros k pos cs g m H; simpl in H.
  - eauto 8 using matches.
  - destruct cs as [|c' cs]; [done|]. destruct (chr_eqb c c') eqn:E; [|done].
    apply chr_eqb_eq in E. subst c'. eauto 8 using matches.
  - destruct cs as [|c' cs]; [done|]. destruct (p c') eqn:E; [|done].
    eauto 8 using matches.
  - apply rep_sound in H as (w & cs' & -> & Hw & Hlo & Hhi & Hk).
    exists (pos + length w), cs', g. split; [by constructor | done].
  - apply IH1 in H as (pos1 & cs1 & g1 & H1 & H).
    apply IH2 in H as (pos2 & cs2 & g2 & H2 & H).
    eauto 8 using matches.
  - apply orelse_some in H as [H | [_ H]].
    + apply IH1 in H as (pos1 & cs1 & g1 & H1 & H). eauto 8 using matches.
    + apply IH2 in H as (pos1 & cs1 & g1 & H1 & H). eauto 8 using matches.
  - apply IH in H as (pos1 & cs1 & g1 & H1 & H). eauto 8 using matches.
  - destruct (lookup_group n g) as [t|] eqn:Hg; [|done].
    destruct (starts_with t cs) eqn:Ht; [|done].
    apply starts_with_inv in Ht. exists (pos + length t), (drop (length t) cs), g.
    split; [|done]. remember (drop (length t) cs) as cs'. rewrite Ht.
    by constructor.
  - destruct (Nat.eqb pos 0) eqn:E; [|done]. apply Nat.eqb_eq in E. subst pos.
    eauto 8 using matches.
  - destruct cs as [|c [|c' cs]]; [| |done].
    + eauto 8 using matches.
    + destruct (chr_eqb c LF) eqn:E; [|done]. apply chr_eqb_eq in E. subst c.
      eauto 8 using matches.
Qed.

Theorem run_complete r pos cs g pos' cs' g' :
  matches r pos cs g pos' cs' g' ->
  forall k, is_Some (k pos' cs' g') -> is_Some (run r k pos cs g).
Proof.
  induction 1 as [ | |p c pos cs g Hc|greedy lo hi p w pos cs g Hw Hlo Hhi
    |r1 r2 pos cs g pos1 cs1 g1 pos2 cs2 g2 _ IH1 _ IH2
    |r1 r2 pos cs g pos' cs' g' _ IH|r1 r2 pos cs g pos' cs' g' _ IH
    |n r pos cs g pos' cs' g' _ IH|n t pos cs g Hg|cs g|pos cs g Hcs];
    intros k Hk; simpl.
  - done.
  - by rewrite chr_eqb_refl.
  - by rewrite Hc.
  - by apply rep_complete.
  - apply IH1, IH2, Hk.
  - destruct (IH k Hk) as [m ->]. done.
  - destruct (run r1 k pos cs g); [done|]. by apply IH.
  - by apply IH.
  - rewrite Hg, starts_with_app, drop_app_length. done.
  - done.
  - destruct Hcs as [-> | ->]; [done|]. by rewrite chr_eqb_refl.
Qed.

Corollary is_match_iff (r : regex) (s : str) :
  is_match r s = true <-> exists pos' cs' g', matches r 0 s [] pos' cs' g'.
Proof.
  unfold is_match, re_match. split.
  - destruct (run r accept 0 s []) as [m|] eqn:H; [|done]. intros _.
    apply run_sound in H as (pos' & cs' & g' & H & _). eauto.
  - intros (pos' & cs' & g' & H).
    destruct (run_complete _ _ _ _ _ _ _ H accept) as [m ->]; done.
Qed.
Ltac inv_matches :=
  repeat match goal with
  | H : matches (Cat _ _) _ _ _ _ _ _ |- _ => inversion H; subst; clear H
  | H : matches (Alt _ _) _ _ _ _ _ _ |- _ => inversion H; subst; clear H
  | H : matches (Grp _ _) _ _ _ _ _ _ |- _ => inversion H; subst; clear H
  | H : matches (Chr _) _ _ _ _ _ _ |- _ => inversion H; subst; clear H
  | H : matches (Cls _) _ _ _ _ _ _ |- _ => inversion H; subst; clear H
  | H : matches (Rep _ _ _ _) _ _ _ _ _ _ |- _ => inversion H; subst; clear H
  | H : matches Eps _ _ _ _ _ _ |- _ => inversion H; subst; clear H
  | H : matches Bol _ _ _ _ _ _ |- _ => inversion H; subst; clear H
  | H : matches Eol _ _ _ _ _ _ |- _ => inversion H; subst; clear H
  end.

Lemma lstrip_app_space (w s : str) :
  Forall (fun c => is_space c = true) w -> lstrip (w ++ s) = lstrip s.
Proof. apply drop_while_app_all. Qed.

Lemma lstrip_cons (c : ascii) (s : str) : is_space c = false -> lstrip (c :: s) = c :: s.
Proof. apply drop_while_stop. Qed.

Lemma lstrip_idem (s : str) : lstrip (lstrip s) = lstrip s.
Proof.
  unfold lstrip. induction s as [|c s IH]; simpl; [done|].
  destruct (is_space c) eqn:E; [done|]. simpl. by rewrite E.
Qed.

Lemma strip_lstrip (s : str) : strip (lstrip s) = strip s.
Proof. unfold strip. by rewrite lstrip_idem. Qed.

(** What a line that matches one of the block patterns looks like. *)

Lemma hr_shape (line : str) :
  is_match _RE_HR line = true ->
  exists w1 tok w2,
    line = w1 ++ tok ++ w2
    /\ Forall (fun c => is_space c = true) w1
    /\ Forall (fun c => is_space c = true) w2
    /\ (tok = "***" \/ tok = "---" \/ tok = "___").
Proof.
  intros (pos' & cs' & g' & H)%is_match_iff.
  unfold _RE_HR, ws_star in H. cbn [Lit] in H. inv_matches.
  all: match goal with
       | Hw1 : Forall _ ?w1, Hw2 : Forall _ ?w2, He : ?cs = [] \/ ?cs = [LF]
         |- context [?w1 ++ ?a :: ?b :: ?c :: ?w2 ++ ?cs] =>
           exists w1, [a; b; c], (w2 ++ cs); simpl;
           repeat split; auto;
           apply Forall_app; split; auto;
           destruct He as [-> | ->]; repeat constructor
       end.
Qed.

Lemma heading_shape (line : str) :
  is_match _RE_HEADING line = true -> exists s, line = "#"%char :: s.
Proof.
  intros (pos' & cs' & g' & H)%is_match_iff.
  unfold _RE_HEADING, ws_star, dot_star in H. inv_matches.
  match goal with
  | Hw : Forall (fun c => is_chr "#" c = true) ?w, Hl : 1 <= length ?w |- _ =>
      destruct Hw as [|c w Hc Hw]; [simpl in Hl; lia|];
      apply chr_eqb_eq in Hc; subst c
  end.
  simpl. eauto.
Qed.

Lemma fence_start_shape (line : str) :
  is_match _RE_FENCE_START line = true ->
  exists lang w,
    line = "```" ++ lang ++ w
    /\ Forall (fun c => is_word c = true) lang
    /\ Forall (fun c => is_space c = true) w.
Proof.
  intros (pos' & cs' & g' & H)%is_match_iff.
  unfold _RE_FENCE_START, Opt, ws_star in H. cbn [Lit] in H. inv_matches.
  all: match goal with
       | Hw2 : Forall (fun c => is_space c = true) ?w2, He : ?cs = [] \/ ?cs = [LF]
         |- _ =>
           assert (Forall (fun c => is_space c = true) (w2 ++ cs))
             by (apply Forall_app; split; auto;
                 destruct He as [-> | ->]; repeat constructor)
       end.
  - match goal with
    | |- context [?a :: ?b :: ?c :: ?lang ++ ?w ++ ?cs] => exists lang, (w ++ cs)
    end. done.
  - match goal with
    | |- context [?a :: ?b :: ?c :: ?w ++ ?cs] => exists [], (w ++ cs)
    end. repeat split; auto.
Qed.

Lemma fence_end_shape (line : str) :
  is_match _RE_FENCE_END line = true ->
  exists w, line = "```" ++ w /\ Forall (fun c => is_space c = true) w.
Proof.
  intros (pos' & cs' & g' & H)%is_match_iff.
  unfold _RE_FENCE_END, ws_star in H. cbn [Lit] in H. inv_matches.
  match goal with
  | Hw2 : Forall (fun c => is_space c = true) ?w2, He : ?cs = [] \/ ?cs = [LF]
    |- _ => exists (w2 ++ cs); split; [done|]; apply Forall_app; split; auto;
            destruct He as [-> | ->]; repeat constructor
  end.
Qed.

Lemma blockquote_shape (line : str) :
  is_match _RE_BLOCKQUOTE line = true ->
  exists w s, line = w ++ ">"%char :: s /\ Forall (fun c => is_space c = true) w.
Proof.
  intros (pos' & cs' & g' & H)%is_match_iff.
  unfold _RE_BLOCKQUOTE, ws_star, dot_star in H. inv_matches.
  match goal with
  | Hw : Forall (fun c => is_chr ">" c = true) ?w, Hl : 1 <= length ?w |- _ =>
      destruct Hw as [|c w Hc Hw]; [simpl in Hl; lia|];
      apply chr_eqb_eq in Hc; subst c
  end.
  simpl. eauto.
Qed.

Lemma unordered_shape (line : str) :
  is_match _RE_UNORDERED line = true ->
  exists w c d s,
    line = w ++ c :: d :: s /\ Forall (fun c => is_space c = true) w
    /\ is_marker c = true /\ is_space d = true.
Proof.
  intros (pos' & cs' & g' & H)%is_match_iff.
  unfold _RE_UNORDERED, ws_star, ws_plus, dot_star in H. inv_matches.
  match goal with
  | Hw : Forall (fun c => is_space c = true) ?w, Hl : 1 <= length ?w |- _ =>
      destruct Hw as [|d w Hd Hw]; [simpl in Hl; lia|]
  end.
  simpl. eauto 10.
Qed.

Lemma ordered_shape (line : str) :
  is_match _RE_ORDERED line = true ->
  exists w c s,
    line = w ++ c :: s /\ Forall (fun c => is_space c = true) w
    /\ is_digit c = true.
Proof.
  intros (pos' & cs' & g' & H)%is_match_iff.
  unfold _RE_ORDERED, ws_star, ws_plus, dot_star in H. inv_matches.
  match goal with
  | Hw : Forall (fun c => is_digit c = true) ?w, Hl : 1 <= length ?w |- _ =>
      destruct Hw as [|d w Hd Hw]; [simpl in Hl; lia|]
  end.
  simpl. eauto 10.
Qed.

Lemma rstrip_app_space (s w : str) :
  Forall (fun c => is_space c = true) w -> rstrip (s ++ w) = rstrip s.
Proof.
  intros Hw. unfold rstrip. rewrite rev_app_distr.
  rewrite drop_while_app_all; [done|]. by apply Forall_rev.
Qed.

Lemma rstrip_snoc (s : str) (c : ascii) :
  is_space c = false -> rstrip (s ++ [c]) = s ++ [c].
Proof.
  intros Hc. unfold rstrip. rewrite rev_app_distr. simpl. rewrite Hc.
  simpl. by rewrite rev_involutive.
Qed.

(** A line is its leading whitespace, its stripped form and its trailing
    whitespace. *)
Lemma strip_decompose (s : str) :
  exists w2, s = take_while is_space s ++ strip s ++ w2
             /\ Forall (fun c => is_space c = true) w2.
Proof.
  exists (rev (take_while is_space (rev (lstrip s)))). split.
  - unfold strip, rstrip. rewrite <- rev_app_distr, take_drop_while, rev_involutive.
    unfold lstrip. by rewrite take_drop_while.
  - apply Forall_rev, take_while_all.
Qed.

Lemma strip_pad (w1 w2 mid : str) (a b : ascii) :
  Forall (fun c => is_space c = true) w1 ->
  Forall (fun c => is_space c = true) w2 ->
  is_space a = false -> is_space b = false ->
  strip (w1 ++ (a :: mid ++ [b]) ++ w2) = a :: mid ++ [b].
Proof.
  intros H1 H2 Ha Hb. unfold strip.
  rewrite lstrip_app_space by done.
  change ((a :: mid ++ [b]) ++ w2) with (a :: (mid ++ [b]) ++ w2).
  rewrite lstrip_cons by done.
  change (a :: (mid ++ [b]) ++ w2) with ((a :: mid ++ [b]) ++ w2).
  rewrite rstrip_app_space by done.
  change (a :: mid ++ [b]) with ((a :: mid) ++ [b]).
  by rewrite rstrip_snoc.
Qed.

Lemma hr_intro (w1 tok w2 : str) :
  Forall (fun c => is_space c = true) w1 ->
  Forall (fun c => is_space c = true) w2 ->
  tok = "***" \/ tok = "---" \/ tok = "___" ->
  is_match _RE_HR (w1 ++ tok ++ w2) = true.
Proof.
  intros H1 H2 Htok. apply is_match_iff.
  rewrite <- (app_nil_r w2).
  destruct Htok as [-> | [-> | ->]]; do 3 eexists; unfold _RE_HR, ws_star; cbn [Lit app].
  all: eapply M_Cat; [apply M_Bol|].
  all: eapply M_Cat; [apply M_Rep; [done | lia | done]|].
  all: eapply M_Cat;
    [apply M_Grp;
     first [ apply M_AltL; repeat (eapply M_Cat; [apply M_Chr|]); apply M_Chr
           | apply M_AltR, M_AltL; repeat (eapply M_Cat; [apply M_Chr|]); apply M_Chr
           | apply M_AltR, M_AltR; repeat (eapply M_Cat; [apply M_Chr|]); apply M_Chr ] |].
  all: eapply M_Cat; [apply M_Rep; [done | lia | done]|].
  all: apply M_Eol; by left.
Qed.

Lemma hr_match_iff (line : str) :
  is_match _RE_HR line = true <-> is_rule_token (strip line).
Proof.
  split.
  - intros (w1 & tok & w2 & -> & H1 & H2 & Htok)%hr_shape.
    destruct Htok as [-> | [-> | ->]].
    + left. exact (strip_pad w1 w2 ["*"%char] "*" "*" H1 H2 eq_refl eq_refl).
    + right; left. exact (strip_pad w1 w2 ["-"%char] "-" "-" H1 H2 eq_refl eq_refl).
    + right; right. exact (strip_pad w1 w2 ["_"%char] "_" "_" H1 H2 eq_refl eq_refl).
  - intros Htok. destruct (strip_decompose line) as (w2 & Hline & Hw2).
    rewrite Hline. apply hr_intro; [apply take_while_all | done | done].
Qed.

(** ** Character classes are told apart by enumeration of the characters *)

Ltac all_chars c := destruct c as [[] [] [] [] [] [] [] []]; vm_compute; try done.

Lemma space_not_word c : is_space c = true -> is_word c = false.
Proof. all_chars c. Qed.
Lemma marker_not_space c : is_marker c = true -> is_space c = false.
Proof. all_chars c. Qed.
Lemma digit_not_space c : is_digit c = true -> is_space c = false.
Proof. all_chars c. Qed.
Lemma digit_not_marker c : is_digit c = true -> is_marker c = false.
Proof. all_chars c. Qed.
Lemma linebreak_is_space c : is_linebreak c = true -> is_space c = true.
Proof. all_chars c. Qed.
Lemma not_linebreak_is_dot c : is_linebreak c = false -> is_dot c = true.
Proof. all_chars c. Qed.

Lemma blank_chr_space c : is_blank_chr c = true -> is_space c = true.
Proof. unfold is_blank_chr. by intros [? _]%andb_prop. Qed.

Lemma blank_chr_no_break c : is_blank_chr c = true -> is_linebreak c = false.
Proof. unfold is_blank_chr. intros [_ H]%andb_prop. by destruct (is_linebreak c). Qed.

Lemma marker_no_break c : is_marker c = true -> is_linebreak c = false.
Proof. all_chars c. Qed.


Lemma blank_str_space (s : str) :
  Forall (fun c => is_blank_chr c = true) s -> Forall (fun c => is_space c = true) s.
Proof. intros H. eapply Forall_impl; [exact H|]. apply blank_chr_space. Qed.

Lemma blank_str_no_break (s : str) :
  Forall (fun c => is_blank_chr c = true) s ->
  Forall (fun c => is_linebreak c = false) s.
Proof. intros H. eapply Forall_impl; [exact H|]. apply blank_chr_no_break. Qed.

Lemma is_match_false (r : regex) (s : str) :
  is_match r s = false -> re_match r s = None.
Proof. unfold is_match. by destruct (re_match r s). Qed.

Lemma is_match_true (r : regex) (s : str) (m : rmatch) :
  re_match r s = Some m -> is_match r s = true.
Proof. unfold is_match. by intros ->. Qed.

(** ** The first characters of a line decide which block it may open *)

Lemma hr_lstrip (line : str) :
  is_match _RE_HR line = true ->
  exists c s, lstrip line = c :: c :: s /\ (c = "*" \/ c = "-" \/ c = "_")%char.
Proof.
  intros (w1 & tok & w2 & -> & H1 & H2 & Htok)%hr_shape.
  rewrite lstrip_app_space by done.
  destruct Htok as [-> | [-> | ->]]; simpl app; rewrite lstrip_cons by done; eauto 6.
Qed.

Lemma heading_lstrip (line : str) :
  is_match _RE_HEADING line = true -> exists s, lstrip line = "#"%char :: s.
Proof. intros [s ->]%heading_shape. rewrite lstrip_cons by done. eauto. Qed.

Lemma fence_start_lstrip (line : str) :
  is_match _RE_FENCE_START line = true -> exists s, lstrip line = "`"%char :: s.
Proof.
  intros (lang & w & -> & _)%fence_start_shape. simpl app.
  rewrite lstrip_cons by done. eauto.
Qed.

Lemma blockquote_lstrip (line : str) :
  is_match _RE_BLOCKQUOTE line = true -> exists s, lstrip line = ">"%char :: s.
Proof.
  intros (w & s & -> & Hw)%blockquote_shape.
  rewrite lstrip_app_space, lstrip_cons by done. eauto.
Qed.

Lemma unordered_lstrip (line : str) :
  is_match _RE_UNORDERED line = true ->
  exists c d s, lstrip line = c :: d :: s /\ is_marker c = true /\ is_space d = true.
Proof.
  intros (w & c & d & s & -> & Hw & Hc & Hd)%unordered_shape.
  rewrite lstrip_app_space, lstrip_cons by auto using marker_not_space. eauto 6.
Qed.

Lemma ordered_lstrip (line : str) :
  is_match _RE_ORDERED line = true ->
  exists c s, lstrip line = c :: s /\ is_digit c = true.
Proof.
  intros (w & c & s & -> & Hw & Hc)%ordered_shape.
  rewrite lstrip_app_space, lstrip_cons by auto using digit_not_space. eauto.
Qed.

(** [clash] closes a goal in which one line is assumed to open two
    different kinds of block. *)
Ltac shape_of H :=
  first
    [ apply hr_lstrip in H as (? & ? & H & [-> | [-> | ->]])
    | apply heading_lstrip in H as (? & H)
    | apply fence_start_lstrip in H as (? & H)
    | apply blockquote_lstrip in H as (? & H)
    | apply unordered_lstrip in H as (? & ? & ? & H & ? & ?)
    | apply ordered_lstrip in H as (? & ? & H & ?) ].

Ltac clash :=
  repeat match goal with
  | H : is_match _ _ = true |- _ => shape_of H
  end;
  repeat match goal with
  | H1 : lstrip ?l = _, H2 : lstrip ?l = _ |- _ => rewrite H1 in H2
  end;
  simplify_eq;
  try match goal with
  | H : _ (Ascii _ _ _ _ _ _ _ _) = true |- _ => by vm_compute in H
  end;
  try match goal with
  | H1 : is_digit ?c = true, H2 : is_marker ?c = true |- _ =>
      apply digit_not_marker in H1; congruence
  end.

Ltac no_match r line :=
  let E := fresh "E" in
  destruct (is_match r line) eqn:E; [exfalso; clash | clear E; try done].

Lemma heading_only (line : str) :
  is_match _RE_HEADING line = true -> is_match _RE_HR line = false.
Proof. intros H. no_match _RE_HR line. Qed.

Lemma fence_start_only (line : str) :
  is_match _RE_FENCE_START line = true ->
  is_match _RE_HR line = false /\ is_match _RE_HEADING line = false.
Proof. intros H. split; [no_match _RE_HR line | no_match _RE_HEADING line]. Qed.

Lemma blockquote_only (line : str) :
  is_match _RE_BLOCKQUOTE line = true ->
  is_match _RE_HR line = false /\ is_match _RE_HEADING line = false
  /\ is_match _RE_FENCE_START line = false.
Proof.
  intros H. repeat split;
    [no_match _RE_HR line | no_match _RE_HEADING line | no_match _RE_FENCE_START line].
Qed.

Lemma unordered_only (line : str) :
  is_match _RE_UNORDERED line = true ->
  is_match _RE_HR line = false /\ is_match _RE_HEADING line = false
  /\ is_match _RE_FENCE_START line = false /\ is_match _RE_BLOCKQUOTE line = false.
Proof.
  intros H. repeat split;
    [no_match _RE_HR line | no_match _RE_HEADING line | no_match _RE_FENCE_START line
    | no_match _RE_BLOCKQUOTE line].
Qed.

Lemma ordered_only (line : str) :
  is_match _RE_ORDERED line = true ->
  is_match _RE_HR line = false /\ is_match _RE_HEADING line = false
  /\ is_match _RE_FENCE_START line = false /\ is_match _RE_BLOCKQUOTE line = false
  /\ is_match _RE_UNORDERED line = false.
Proof.
  intros H. repeat split;
    [no_match _RE_HR line | no_match _RE_HEADING line | no_match _RE_FENCE_START line
    | no_match _RE_BLOCKQUOTE line | no_match _RE_UNORDERED line].
Qed.

Lemma lstrip_all_space (line : str) :
  Forall (fun c => is_space c = true) line -> lstrip line = [].
Proof. apply drop_while_all. Qed.

Lemma blank_only (line : str) :
  Forall (fun c => is_space c = true) line ->
  is_match _RE_HR line = false /\ is_match _RE_HEADING line = false
  /\ is_match _RE_FENCE_START line = false /\ is_match _RE_BLOCKQUOTE line = false
  /\ is_match _RE_UNORDERED line = false /\ is_match _RE_ORDERED line = false.
Proof.
  intros H%lstrip_all_space. repeat split;
    [no_match _RE_HR line | no_match _RE_HEADING line | no_match _RE_FENCE_START line
    | no_match _RE_BLOCKQUOTE line | no_match _RE_UNORDERED line | no_match _RE_ORDERED line].
Qed.

(** ** Evaluating the patterns on lines of a given form *)

Lemma drop_while_not_head (p : ascii -> bool) (s : str) :
  match drop_while p s with c :: _ => p c = false | [] => True end.
Proof.
  induction s as [|c s IH]; simpl; [done|]. by destruct (p c) eqn:E.
Qed.

Lemma length_take_drop_while (p : ascii -> bool) (s : str) :
  length (take_while p s) + length (drop_while p s) = length s.
Proof. rewrite <- length_app. by rewrite take_drop_while. Qed.

Lemma rep_greedy_span (p : ascii -> bool) (k : nat -> str -> option rmatch)
    (lo pos : nat) (s : str) :
  lo <= length (take_while p s) ->
  is_Some (k (pos + length (take_while p s)) (drop_while p s)) ->
  rep true p lo None k pos s = k (pos + length (take_while p s)) (drop_while p s).
Proof.
  intros Hlo Hk. rewrite <- (take_drop_while p s) at 1.
  apply rep_greedy_max; auto using take_while_all; [|done].
  apply drop_while_not_head.
Qed.

Lemma run_Cat r1 r2 k pos cs g :
  run (r1 ⋅ r2) k pos cs g = run r1 (run r2 k) pos cs g.
Proof. done. Qed.

Lemma run_Rep greedy lo hi p k pos cs g :
  run (Rep greedy lo hi p) k pos cs g
  = rep greedy p lo hi (fun pos' cs' => k pos' cs' g) pos cs.
Proof. done. Qed.

Lemma run_Grp n r k pos cs g :
  run (Grp n r) k pos cs g
  = run r (fun pos' cs' g' => k pos' cs' ((n, take (pos' - pos) cs) :: g')) pos cs g.
Proof. done. Qed.

Lemma run_Bol k cs g : run Bol k 0 cs g = k 0 cs g.
Proof. done. Qed.

Lemma run_Eps k pos cs g : run Eps k pos cs g = k pos cs g.
Proof. done. Qed.

Lemma run_Alt r1 r2 k pos cs g :
  run (r1 ∣ r2) k pos cs g = orelse (run r1 k pos cs g) (run r2 k pos cs g).
Proof. done. Qed.

Lemma run_Cls p k pos c cs g :
  run (Cls p) k pos (c :: cs) g = if p c then k (S pos) cs g else None.
Proof. done. Qed.

Lemma run_Chr k pos c cs g : run (Chr c) k pos (c :: cs) g = k (S pos) cs g.
Proof. simpl. by rewrite chr_eqb_refl. Qed.

Lemma take_sub_prefix (pos : nat) (w s : str) :
  take (pos + length w - pos) (w ++ s) = w.
Proof. replace (pos + length w - pos) with (length w) by lia. apply take_app_length. Qed.

Lemma run_Eol_nil k pos g : run Eol k pos [] g = k pos [] g.
Proof. done. Qed.

(** The end of the heading and list patterns: [(.* )$] captures a rest
    without line feed whole. *)
Lemma run_dot_star_eol (n pos : nat) (t : str) (g : list (nat * str)) :
  Forall (fun c => is_dot c = true) t ->
  run (Grp n dot_star ⋅ Eol) accept pos t g
  = Some (Match (pos + length t) [] ((n, t) :: g)).
Proof.
  intros Ht. unfold dot_star. rewrite run_Cat, run_Grp, run_Rep.
  assert (drop_while is_dot t = []) as Hd by by apply drop_while_all.
  assert (take_while is_dot t = t) as Ht'.
  { rewrite <- (take_drop_while is_dot t) at 2. by rewrite Hd, app_nil_r. }
  rewrite rep_greedy_span; rewrite ?Hd, ?Ht'; [|lia|done].
  rewrite run_Eol_nil. unfold accept. do 4 f_equal.
  replace (pos + length t - pos) with (length t) by lia. apply firstn_all.
Qed.

(** [\s*(.* )$] and [\s+(.* )$]: the whitespace is skipped and the rest
    captured. *)
Lemma run_ws_dot_star_eol (lo n pos : nat) (rest : str) (g : list (nat * str)) :
  lo <= length (take_while is_space rest) ->
  Forall (fun c => is_dot c = true) (lstrip rest) ->
  run (Rep true lo None is_space ⋅ Grp n dot_star ⋅ Eol) accept pos rest g
  = Some (Match (pos + length rest) [] ((n, lstrip rest) :: g)).
Proof.
  intros Hlo Ht. rewrite run_Cat, run_Rep. unfold lstrip in *.
  rewrite rep_greedy_span; rewrite ?run_dot_star_eol; try done.
  by rewrite <- Nat.add_assoc, length_take_drop_while.
Qed.

Lemma repeat_all (c : ascii) (n : nat) :
  Forall (fun x => is_chr c x = true) (repeat c n).
Proof. induction n; simpl; constructor; [apply chr_eqb_refl | done]. Qed.

(** The heading pattern on a run of one to six [#] followed by something
    that is not a [#]. *)
Lemma heading_eval (n : nat) (rest : str) :
  1 <= n <= 6 ->
  match rest with c :: _ => c <> "#"%char | [] => True end ->
  Forall (fun c => is_dot c = true) (lstrip rest) ->
  re_match _RE_HEADING (repeat "#"%char n ++ rest)
  = Some (Match (n + length rest) [] [(2, lstrip rest); (1, repeat "#"%char n)]).
Proof.
  intros Hn Hrest Hdot. unfold re_match, _RE_HEADING. cbn [run Nat.eqb].
  assert (Hk : forall g, run ws_star (run (Grp 2 dot_star) (run Eol accept))
             (0 + length (repeat "#"%char n)) rest g
           = Some (Match (n + length rest) [] ((2, lstrip rest) :: g))).
  { intros g. rewrite repeat_length.
    apply (run_ws_dot_star_eol 0 2 n rest g); [lia | done]. }
  rewrite rep_greedy_max.
  - rewrite Hk.
    replace (0 + length (repeat "#"%char n) - 0) with (length (repeat "#"%char n)) by lia.
    by rewrite take_app_length.
  - apply repeat_all.
  - destruct rest as [|c rest]; [done|]. unfold is_chr. by apply chr_eqb_neq.
  - rewrite repeat_length. lia.
  - intros h [= <-]. rewrite repeat_length. lia.
  - by rewrite Hk.
Qed.


Lemma unordered_eval (indent : str) (c : ascii) (rest : str) :
  Forall (fun c => is_space c = true) indent ->
  is_marker c = true ->
  1 <= length (take_while is_space rest) ->
  Forall (fun c => is_dot c = true) (lstrip rest) ->
  re_match _RE_UNORDERED (indent ++ c :: rest)
  = Some (Match (length indent + 1 + length rest) []
            [(3, lstrip rest); (2, [c]); (1, indent)]).
Proof.
  intros Hind Hc Hgap Hdot. unfold re_match, _RE_UNORDERED, ws_star, ws_plus.
  rewrite run_Cat, run_Bol, run_Cat, run_Grp, run_Rep.
  assert (Hk : forall g,
    run (Grp 2 (Cls is_marker) ⋅ Rep true 1 None is_space ⋅ Grp 3 dot_star ⋅ Eol)
      accept (0 + length indent) (c :: rest) g
    = Some (Match (length indent + 1 + length rest) []
              ((3, lstrip rest) :: (2, [c]) :: g))).
  { intros g. rewrite run_Cat, run_Grp, run_Cls, Hc.
    rewrite run_ws_dot_star_eol by done.
    do 2 f_equal; [simpl; lia|].
    replace (S (0 + length indent) - (0 + length indent)) with 1 by lia. done. }
  rewrite rep_greedy_max; rewrite ?Hk; try done.
  - by rewrite take_sub_prefix.
  - simpl. by apply marker_not_space.
  - lia.
Qed.


(** The opening fence with its language tag. *)
Lemma fence_start_eval (lang w : str) :
  Forall (fun c => is_word c = true) lang ->
  Forall (fun c => is_space c = true) w ->
  exists m, re_match _RE_FENCE_START ("```" ++ lang ++ w) = Some m /\ group m 1 = lang.
Proof.
  intros Hlang Hw. unfold re_match, _RE_FENCE_START, Opt, ws_star.
  cbn [Lit app]. rewrite run_Cat, run_Bol.
  do 3 (repeat rewrite run_Cat; rewrite run_Chr).
  assert (Hk : forall pos g,
    run (Rep true 0 None is_space ⋅ Eol) accept pos w g
    = Some (Match (pos + length w) [] g)).
  { intros pos g. rewrite run_Cat, run_Rep.
    assert (drop_while is_space w = []) as Hd by by apply drop_while_all.
    assert (take_while is_space w = w) as Ht.
    { rewrite <- (take_drop_while is_space w) at 2. by rewrite Hd, app_nil_r. }
    rewrite rep_greedy_span; rewrite ?Hd, ?Ht; [done | lia | done]. }
  destruct lang as [|c lang].
  - simpl app. rewrite run_Cat, run_Alt.
    assert (run (Grp 1 (Rep true 1 None is_word))
              (run (Rep true 0 None is_space ⋅ Eol) accept) 3 w [] = None) as ->.
    { rewrite run_Grp, run_Rep. destruct w as [|d w]; [done|]. simpl.
      inversion Hw; subst. by rewrite space_not_word. }
    unfold orelse. rewrite run_Eps, Hk. eauto.
  - rewrite run_Cat, run_Alt, run_Grp, run_Rep.
    rewrite rep_greedy_max; rewrite ?Hk; try done.
    + simpl orelse. eexists. split; [done|].
      exact (take_sub_prefix 3 (c :: lang) w).
    + destruct w as [|d w]; [done|]. inversion Hw; subst. by apply space_not_word.
    + simpl. lia.
Qed.

Lemma fence_end_intro (w : str) :
  Forall (fun c => is_space c = true) w -> is_match _RE_FENCE_END ("```" ++ w) = true.
Proof.
  intros Hw. apply is_match_iff. rewrite <- (app_nil_r w).
  do 3 eexists. unfold _RE_FENCE_END, ws_star. cbn [Lit app].
  eapply M_Cat; [apply M_Bol|].
  eapply M_Cat; [repeat (eapply M_Cat; [apply M_Chr|]); apply M_Chr|].
  eapply M_Cat; [apply M_Rep; [done | lia | done]|].
  apply M_Eol. by left.
Qed.

(** ** One turn of the parser loop *)



Lemma int_of_digits_some (digits : str) (n : Z) :
  int_of_digits digits = Some n ->
  (Z.of_nat (length digits) <= int_max_str_digits)%Z /\ n = decimal_value digits.
Proof.
  unfold int_of_digits. destruct (Z.leb_spec (Z.of_nat (length digits)) int_max_str_digits);
    [|done]. by intros [= <-].
Qed.


Lemma parse_line_hr (line : str) (k : mode -> option (list Block)) :
  is_match _RE_HR line = true -> parse_line line k = cons hr_block <$> k AtTop.
Proof. intros H. unfold parse_line. by rewrite H. Qed.

Lemma parse_line_heading (line : str) (k : mode -> option (list Block)) (m : rmatch) :
  re_match _RE_HEADING line = Some m ->
  parse_line line k
  = cons (heading_block (len (group m 1)) (strip (group m 2))) <$> k AtTop.
Proof.
  intros H. unfold parse_line.
  by rewrite (heading_only line (is_match_true _ _ _ H)), H.
Qed.

Lemma parse_line_fence (line : str) (k : mode -> option (list Block)) (m : rmatch) :
  re_match _RE_FENCE_START line = Some m ->
  parse_line line k = k (InFence (group m 1) []).
Proof.
  intros H. unfold parse_line.
  destruct (fence_start_only line (is_match_true _ _ _ H)) as [-> H2].
  by rewrite (is_match_false _ _ H2), H.
Qed.

Lemma parse_line_blockquote (line : str) (k : mode -> option (list Block)) :
  is_match _RE_BLOCKQUOTE line = true ->
  parse_line line k = cons (quote_line line) <$> k InQuote.
Proof.
  intros H. unfold parse_line.
  destruct (blockquote_only line H) as (-> & H2 & H3).
  by rewrite (is_match_false _ _ H2), (is_match_false _ _ H3), H.
Qed.

Lemma parse_line_unordered (line : str) (k : mode -> option (list Block)) (m : rmatch) :
  re_match _RE_UNORDERED line = Some m ->
  parse_line line k
  = cons (ul_block (len (group m 1)) (strip (group m 3))) <$> k AtTop.
Proof.
  intros H. unfold parse_line.
  destruct (unordered_only line (is_match_true _ _ _ H)) as (-> & H2 & H3 & ->).
  by rewrite (is_match_false _ _ H2), (is_match_false _ _ H3), H.
Qed.


Lemma parse_line_blank (line : str) (k : mode -> option (list Block)) :
  Forall (fun c => is_space c = true) line -> parse_line line k = k AtTop.
Proof.
  intros H. unfold parse_line.
  destruct (blank_only line H) as (-> & H2 & H3 & -> & H5 & H6).
  rewrite (is_match_false _ _ H2), (is_match_false _ _ H3),
    (is_match_false _ _ H5), (is_match_false _ _ H6).
  unfold is_blank. by rewrite strip_all_space.
Qed.

Lemma parse_from_top (line : str) (rest : list str) :
  parse_from AtTop (line :: rest) = parse_line line (fun m' => parse_from m' rest).
Proof. done. Qed.

Lemma parse_from_quote_cons (line : str) (rest : list str) :
  parse_from InQuote (line :: rest)
  = if is_match _RE_BLOCKQUOTE line
    then cons (quote_line line) <$> parse_from InQuote rest
    else parse_line line (fun m' => parse_from m' rest).
Proof. done. Qed.

Lemma parse_from_para_cons (para_lines : list str) (line : str) (rest : list str) :
  parse_from (InPara para_lines) (line :: rest)
  = if is_blank line || starts_block line
    then cons (paragraph_block (join " " para_lines))
           <$> parse_line line (fun m' => parse_from m' rest)
    else parse_from (InPara (para_lines ++ [strip line])) rest.
Proof. done. Qed.

(** After a blockquote line the loop is where it is at the top: a line
    that continues the quote is not read differently there. *)
Lemma parse_from_quote (tokens : list str) :
  parse_from InQuote tokens = parse_from AtTop tokens.
Proof.
  destruct tokens as [|line rest]; [done|]. simpl.
  destruct (is_match _RE_BLOCKQUOTE line) eqn:H; [|done].
  by rewrite parse_line_blockquote.
Qed.


(** ** Lines and the lexer *)

Lemma splitlines_from_line (cur l rest : str) :
  Forall (fun c => is_linebreak c = false) l ->
  splitlines_from cur (l ++ LF :: rest) = (rev cur ++ l) :: splitlines_from [] rest.
Proof.
  intros Hl. revert cur. induction Hl as [|c l Hc _ IH]; intros cur.
  - simpl app. rewrite app_nil_r.
    change (splitlines_from cur (LF :: rest)) with
      (rev cur :: match rest with
                  | c' :: s'' =>
                      if chr_eqb LF CR && chr_eqb c' LF
                      then splitlines_from [] s''
                      else splitlines_from [] rest
                  | [] => []
                  end).
    by destruct rest.
  - simpl. rewrite Hc, IH. simpl. by rewrite <- app_assoc.
Qed.

Lemma splitlines_from_last (cur l : str) :
  Forall (fun c => is_linebreak c = false) l ->
  rev cur ++ l <> [] ->
  splitlines_from cur l = [rev cur ++ l].
Proof.
  intros Hl. revert cur. induction Hl as [|c l Hc _ IH]; intros cur Hne.
  - simpl. rewrite app_nil_r in *. by destruct cur.
  - simpl. rewrite Hc, IH; simpl; rewrite <- app_assoc; [done|].
    simpl. by destruct (rev cur).
Qed.

(** Lines without line boundaries, the last of them not empty, are what
    the lexer gives back from their concatenation with line feeds. *)
Lemma tokenize_join (lines : list str) :
  Forall (Forall (fun c => is_linebreak c = false)) lines ->
  last lines <> Some [] ->
  tokenize (join [LF] lines) = lines.
Proof.
  unfold tokenize, splitlines. induction 1 as [|l ls Hl Hls IH]; intros Hlast; [done|].
  destruct ls as [|l' ls].
  - simpl. rewrite splitlines_from_last; [done | done |].
    simpl. intros ->. by apply Hlast.
  - change (join [LF] (l :: l' :: ls)) with (l ++ LF :: join [LF] (l' :: ls)).
    rewrite splitlines_from_line by done. simpl rev. simpl app at 1.
    f_equal. apply IH. by rewrite last_cons_cons in Hlast.
Qed.

Lemma strip_nil_inv (s : str) : strip s = [] -> Forall (fun c => is_space c = true) s.
Proof.
  intros H. destruct (strip_decompose s) as (w2 & Hs & Hw2).
  rewrite Hs, H. simpl. apply Forall_app. split; [apply take_while_all | done].
Qed.

Lemma splitlines_from_space (cur s : str) :
  Forall (fun c => is_space c = true) cur ->
  Forall (fun c => is_space c = true) s ->
  Forall (Forall (fun c => is_space c = true)) (splitlines_from cur s).
Proof.
  remember (length s) as n eqn:Hn. assert (Hle : length s <= n) by lia. clear Hn.
  revert s cur Hle. induction n as [|n IH]; intros s cur Hle Hcur Hs.
  - destruct s; [|simpl in Hle; lia]. simpl.
    destruct cur; repeat constructor. by apply Forall_rev.
  - destruct Hs as [|c s Hc Hs].
    + simpl. destruct cur; repeat constructor. by apply Forall_rev.
    + simpl in *. destruct (is_linebreak c).
      * constructor; [by apply Forall_rev|].
        destruct Hs as [|c' s' Hc' Hs']; [constructor|]. simpl in Hle.
        destruct (chr_eqb c CR && chr_eqb c' LF).
        -- apply IH; [lia | constructor | done].
        -- apply IH; [simpl; lia | constructor | by constructor].
      * apply IH; [lia | by constructor | done].
Qed.

Lemma tokenize_space (markdown : str) :
  Forall (fun c => is_space c = true) markdown ->
  Forall (Forall (fun c => is_space c = true)) (tokenize markdown).
Proof. intros H. by apply splitlines_from_space. Qed.

Lemma parse_blank_lines (tokens : list str) :
  Forall (Forall (fun c => is_space c = true)) tokens -> parse tokens = Some [].
Proof.
  unfold parse. induction 1 as [|line rest Hl _ IH]; [done|].
  simpl. by rewrite parse_line_blank.
Qed.

(** The value of a run that raises nothing. *)
Ltac some_html :=
  cbn [fmap option_fmap option_map mbind option_bind]; apply (f_equal Some).

(** The early exit of [convert] returns what the four stages would return;
    [convert] raises when [parse] does. *)
Lemma convert_pipeline (markdown : str) :
  returned (convert markdown)
  = (fun blocks => render (map process_block blocks)) <$> parse (tokenize markdown).
Proof.
  rewrite convert_unfold.
  destruct (str_eqb markdown "" || str_eqb (strip markdown) "") eqn:E.
  2:{ by destruct (parse (tokenize markdown)). }
  assert (Forall (fun c => is_space c = true) markdown) as H.
  { apply orb_prop in E as [E | E]; apply str_eqb_eq in E.
    - subst. constructor.
    - by apply strip_nil_inv. }
  by rewrite (parse_blank_lines _ (tokenize_space _ H)).
Qed.

Lemma convert_guard_true (markdown : str) :
  Forall (fun c => is_space c = true) markdown ->
  str_eqb markdown "" || str_eqb (strip markdown) "" = true.
Proof.
  intros H. apply orb_true_iff. right. apply str_eqb_eq. by apply strip_all_space.
Qed.

Lemma convert_guard_false (markdown : str) (c : ascii) :
  In c markdown -> is_space c = false ->
  str_eqb markdown "" || str_eqb (strip markdown) "" = false.
Proof.
  intros Hin Hc. destruct (_ || _) eqn:E; [|done].
  assert (Forall (fun c => is_space c = true) markdown) as H.
  { apply orb_prop in E as [E | E]; apply str_eqb_eq in E.
    - subst. constructor.
    - by apply strip_nil_inv. }
  rewrite Forall_forall in H. apply list_elem_of_In in Hin. apply H in Hin. congruence.
Qed.

(** ** The renderer, block by block *)

Lemma render_cons (b : Block) (bs : list Block) :
  render (map process_block (b :: bs))
  = render_block (process_block b) ++ render (map process_block bs).
Proof. done. Qed.

Lemma render_heading (level : Z) (content : str) :
  render_block (process_block (heading_block level content))
  = "<h" ++ str_of_int level ++ ">" ++ _replace_inline content
    ++ "</h" ++ str_of_int level ++ ">".
Proof. done. Qed.

Lemma render_ul (indent : Z) (content : str) :
  render_block (process_block (ul_block indent content))
  = "<ul><li>" ++ _replace_inline content ++ "</li></ul>".
Proof. done. Qed.


Lemma render_app (bs1 bs2 : list Block) :
  render (map process_block (bs1 ++ bs2))
  = render (map process_block bs1) ++ render (map process_block bs2).
Proof. unfold render. by rewrite !map_app, concat_app. Qed.

Lemma render_code_block (language code : str) :
  render_block (process_block (code_block language code))
  = match language with
    | [] => "<pre><code>"
    | _ :: _ => "<pre><code class=" ++ [dquote] ++ "language-" ++ language
                  ++ [dquote] ++ ">"
    end ++ _escape (_replace_inline code) ++ "</code></pre>".
Proof. destruct language; simpl; by rewrite <- ?app_assoc. Qed.

(** ** Empty input *)

(** On any other input [convert] calls the lexer and the parser, and then,
    unless the parser raised, the inline processor and the renderer. *)
Lemma convert_calls (markdown : str) (c : ascii) :
  In c markdown -> is_space c = false ->
  calls (convert markdown)
  = match parse (tokenize markdown) with
    | Some _ => [Lexer; Parser; InlineProcessor; Renderer]
    | None => [Lexer; Parser]
    end.
Proof.
  intros Hin Hc. rewrite convert_unfold, (convert_guard_false _ _ Hin Hc).
  by destruct (parse (tokenize markdown)).
Qed.

(** C4: for every input that is empty or holds only whitespace, [convert]
    returns exactly the empty string, and it does so without a call of any
    of the four stages: the list of the stages called in the run is empty
    (on an input with another character it starts with the lexer and the
    parser, see [convert_calls]). *)
Theorem convert_blank_input (markdown : str) :
  Forall (fun c => is_space c = true) markdown ->
  convert markdown = Traced [] (Some "")
  /\ calls (convert markdown) = []
  /\ (forall s : stage, ~ In s (calls (convert markdown)))
  /\ returned (convert markdown) = Some "".
Proof.
  intros H. unfold convert. rewrite (convert_guard_true _ H).
  split_and!; try done. by intros s [].
Qed.

Lemma convert_blank_input_witness :
  Forall (fun c => is_space c = true) ("   " ++ [LF; LF] ++ "   ")
  /\ convert ("   " ++ [LF; LF] ++ "   ")
     = {| calls := []; returned := Some "" |}.
Proof.
  assert (H : Forall (fun c => is_space c = true) ("   " ++ [LF; LF] ++ "   "))
    by (repeat constructor).
  split; [exact H | exact (proj1 (convert_blank_input _ H))].
Defined.

(** ** The frame of the inline processor *)

Lemma block_frame_refl (b : Block) : block_frame b b.
Proof. by repeat split. Qed.

Lemma block_frame_trans (b1 b2 b3 : Block) :
  block_frame b1 b2 -> block_frame b2 b3 -> block_frame b1 b3.
Proof.
  intros [(? & ? & ? & ? & ? & Hc12) H12] [(? & ? & ? & ? & ? & Hc23) H23].
  split.
  - split; [congruence|]. split; [congruence|]. split; [congruence|].
    split; [congruence|]. split; [congruence|]. by rewrite Hc23.
  - intros Hc. specialize (H12 Hc). subst b2. auto.
Qed.

Lemma block_frame_process (b : Block) : block_frame b (process_block b).
Proof.
  unfold process_block. destruct (b_content b) as [text|] eqn:E.
  - split; [|congruence]. repeat split; simpl; try done; rewrite ?E; eauto.
  - apply block_frame_refl.
Qed.

Lemma store_frame_refl (h : gmap nat Block) : store_frame h h.
Proof. intros r. destruct (h !! r); [apply block_frame_refl | done]. Qed.

Lemma store_frame_trans (h1 h2 h3 : gmap nat Block) :
  store_frame h1 h2 -> store_frame h2 h3 -> store_frame h1 h3.
Proof.
  intros H12 H23 r. specialize (H12 r). specialize (H23 r).
  destruct (h1 !! r), (h2 !! r), (h3 !! r); try done.
  eauto using block_frame_trans.
Qed.

Lemma store_frame_process_ref (h : gmap nat Block) (r0 : nat) :
  store_frame h (process_ref h r0).
Proof.
  unfold process_ref. destruct (h !! r0) as [b0|] eqn:E0; [|apply store_frame_refl].
  intros r. destruct (decide (r0 = r)) as [->|Hne].
  - rewrite lookup_insert_eq, E0. apply block_frame_process.
  - rewrite lookup_insert_ne by done.
    destruct (h !! r); [apply block_frame_refl | done].
Qed.

Lemma store_frame_foldl (blocks : list nat) (h : gmap nat Block) :
  store_frame h (foldl process_ref h blocks).
Proof.
  revert h. induction blocks as [|r0 blocks IH]; intros h; simpl.
  - apply store_frame_refl.
  - eapply store_frame_trans; [apply store_frame_process_ref | apply IH].
Qed.

Lemma foldl_process_ref_other (blocks : list nat) (h : gmap nat Block) (r : nat) :
  r ∉ blocks -> foldl process_ref h blocks !! r = h !! r.
Proof.
  revert h. induction blocks as [|r0 blocks IH]; intros h Hr; simpl; [done|].
  apply not_elem_of_cons in Hr as [Hne Hr]. rewrite IH by done.
  unfold process_ref. destruct (h !! r0); [|done]. by rewrite lookup_insert_ne.
Qed.

Lemma deref_frame (h h' : gmap nat Block) (blocks : list nat) :
  store_frame h h' -> Forall2 same_but_content (deref h blocks) (deref h' blocks).
Proof.
  intros Hf. unfold deref. induction blocks as [|r l IHl]; simpl; [constructor|].
  specialize (Hf r). destruct (h !! r), (h' !! r); try done.
  simpl. constructor; [apply Hf | done].
Qed.

(** C10: [process_inline] returns the list it was given, so the same
    blocks in the same order; every dictionary of the store keeps what it
    holds under each key other than ['content'] (type, level, indent,
    number, language), a dictionary without ['content'] is left as it is,
    and so is every dictionary that is not in the list. *)
Theorem process_inline_frame (blocks : list nat) (h : gmap nat Block) :
  (process_inline blocks h).2 = blocks
  /\ dom (process_inline blocks h).1 = dom h
  /\ Forall2 same_but_content (deref h blocks)
       (deref (process_inline blocks h).1 (process_inline blocks h).2)
  /\ forall r b,
       h !! r = Some b ->
       exists b',
         (process_inline blocks h).1 !! r = Some b'
         /\ same_but_content b b'
         /\ (b_content b = None -> b' = b)
         /\ (r ∉ blocks -> b' = b).
Proof.
  unfold process_inline. simpl.
  pose proof (store_frame_foldl blocks h) as Hf.
  assert (Hall : forall r b, h !! r = Some b ->
    exists b', foldl process_ref h blocks !! r = Some b'
      /\ same_but_content b b' /\ (b_content b = None -> b' = b)
      /\ (r ∉ blocks -> b' = b)).
  { intros r b Hb. specialize (Hf r). rewrite Hb in Hf.
    destruct (foldl process_ref h blocks !! r) as [b'|] eqn:E; [|done].
    exists b'. destruct Hf as [Hs Hn]. repeat split; try done; try apply Hs.
    intros Hr. rewrite foldl_process_ref_other in E by done. congruence. }
  repeat split; [| |done].
  - apply set_eq. intros r. rewrite !elem_of_dom. specialize (Hf r).
    destruct (h !! r), (foldl process_ref h blocks !! r); done.
  - by apply deref_frame.
Qed.

(** ** Horizontal rules *)

Lemma parse_single_hr_inv (line : str) :
  parse [line] = Some [hr_block] -> is_match _RE_HR line = true.
Proof.
  unfold parse. simpl. unfold parse_line.
  destruct (is_match _RE_HR line); [done|].
  destruct (re_match _RE_HEADING line); [by intros [=]|].
  destruct (re_match _RE_FENCE_START line); [by intros [=]|].
  destruct (is_match _RE_BLOCKQUOTE line); [by intros [=]|].
  destruct (re_match _RE_UNORDERED line); [by intros [=]|].
  destruct (re_match _RE_ORDERED line) as [m|].
  { by destruct (int_of_digits (group m 2)); intros [=]. }
  destruct (is_blank line); by intros [=].
Qed.

Lemma parse_from_hr (m : mode) (line : str) (rest : list str) :
  in_fence m = false ->
  is_match _RE_HR line = true ->
  parse_from m (line :: rest)
  = (fun blocks => flush m ++ hr_block :: blocks) <$> parse_from AtTop rest.
Proof.
  intros Hm Hh. destruct m as [|language code_lines| |para_lines]; [|done| |].
  - by rewrite parse_from_top, parse_line_hr.
  - rewrite parse_from_quote_cons.
    no_match _RE_BLOCKQUOTE line. by rewrite parse_line_hr.
  - rewrite parse_from_para_cons. unfold starts_block. rewrite Hh, orb_true_r.
    rewrite parse_line_hr by done. by destruct (parse_from AtTop rest).
Qed.

(** C5: a line is read as a horizontal rule, and rendered as [<hr/>],
    exactly when its stripped form is one of the three-character strings
    [***], [---] and [___]; a line whose stripped form is a run of four
    or more of one of these characters is not. *)
Theorem horizontal_rule_exact (line : str) :
  (parse [line] = Some [hr_block] <-> is_rule_token (strip line))
  /\ (is_rule_token (strip line) ->
      forall m rest, in_fence m = false ->
        parse_from m (line :: rest)
        = (fun blocks => flush m ++ hr_block :: blocks) <$> parse_from AtTop rest)
  /\ render (map process_block [hr_block]) = "<hr/>"
  /\ (forall (c : ascii) (n : nat),
        (c = "*" \/ c = "-" \/ c = "_")%char -> 4 <= n ->
        strip line = repeat c n -> parse [line] <> Some [hr_block]).
Proof.
  assert (Hiff : parse [line] = Some [hr_block] <-> is_rule_token (strip line)).
  { rewrite <- hr_match_iff. split; [apply parse_single_hr_inv|].
    intros H. unfold parse. simpl. by rewrite parse_line_hr. }
  split; [done|]. split; [|split; [done|]].
  - intros H%hr_match_iff m rest Hm. by apply parse_from_hr.
  - intros c n Hc Hn Hrun. rewrite Hiff, Hrun.
    do 4 (destruct n as [|n]; [lia|]).
    intros [H | [H | H]]; discriminate H.
Qed.

Lemma horizontal_rule_exact_witness :
  parse ["  ---  "] = Some [hr_block] /\ parse [" ----"] <> Some [hr_block].
Proof.
  split.
  - apply (proj1 (horizontal_rule_exact "  ---  ")). right; left. by vm_compute.
  - apply (proj2 (proj2 (proj2 (horizontal_rule_exact " ----"))) "-"%char 4);
      [by right; left | lia | by vm_compute].
Defined.

(** ** Fenced code blocks *)

Lemma fence_end_iff (line : str) :
  is_match _RE_FENCE_END line = true <-> closing_fence line.
Proof.
  split.
  - intros (w & -> & Hw)%fence_end_shape. by exists w.
  - intros (w & Hw & ->). by apply fence_end_intro.
Qed.

Lemma parse_from_fence_body (language : str) (body : list str) :
  Forall (fun l => ~ closing_fence l) body ->
  forall code_lines tail,
    parse_from (InFence language code_lines) (body ++ tail)
    = parse_from (InFence language (code_lines ++ body)) tail.
Proof.
  induction 1 as [|l body Hl _ IH]; intros code_lines tail.
  - by rewrite app_nil_r.
  - simpl. destruct (is_match _RE_FENCE_END l) eqn:E.
    + by apply fence_end_iff in E.
    + rewrite IH. by rewrite <- app_assoc.
Qed.

Lemma parse_from_open_fence (m : mode) (line : str) (m0 : rmatch) (rest : list str) :
  in_fence m = false ->
  re_match _RE_FENCE_START line = Some m0 ->
  parse_from m (line :: rest)
  = (flush m ++.) <$> parse_from (InFence (group m0 1) []) rest.
Proof.
  intros Hm Hf. pose proof (is_match_true _ _ _ Hf) as Ho.
  destruct m as [|language code_lines| |para_lines]; [|done| |].
  - rewrite parse_from_top, (parse_line_fence _ _ _ Hf).
    by destruct (parse_from _ rest).
  - rewrite parse_from_quote_cons.
    no_match _RE_BLOCKQUOTE line. rewrite (parse_line_fence _ _ _ Hf).
    by destruct (parse_from _ rest).
  - rewrite parse_from_para_cons. unfold starts_block. rewrite Ho, !orb_true_r.
    by rewrite (parse_line_fence _ _ _ Hf).
Qed.

(** The lines of a code block joined by line feeds: every line but the
    first comes after a line feed. *)
Lemma join_lines (body : list str) :
  join [LF] body
  = match body with
    | [] => ""
    | l :: ls => l ++ flat_map (cons LF) ls
    end.
Proof.
  destruct body as [|l ls]; [done|]. revert l.
  induction ls as [|l' ls IH]; intros l.
  - simpl. by rewrite app_nil_r.
  - change (join [LF] (l :: l' :: ls)) with (l ++ LF :: join [LF] (l' :: ls)).
    by rewrite IH.
Qed.

(** C8: after an opening fence (three backticks, an optional language tag
    of word characters, optional whitespace) the lines that follow are
    collected verbatim, whatever their own syntax, up to the first closing
    fence, which is consumed and left out of the content; without a closing
    fence all the remaining lines are the content and the parse ends
    without an error.  The lines yield one dictionary and no other: its
    type is [code_block], its language the tag, and its content the
    collected lines themselves, unchanged and in their order, every line
    but the first after a line feed. *)
Theorem fenced_code_verbatim (lang w : str) (body : list str) :
  Forall (fun c => is_word c = true) lang ->
  Forall (fun c => is_space c = true) w ->
  Forall (fun l => ~ closing_fence l) body ->
  let opening := "```" ++ lang ++ w in
  let content :=
    match body with
    | [] => ""
    | l :: ls => l ++ flat_map (cons LF) ls
    end in
  let block := mkBlock (Some "code_block") None (Some content) (Some lang) None None in
  (forall closing rest,
     closing_fence closing ->
     parse (opening :: body ++ closing :: rest) = cons block <$> parse rest)
  /\ parse (opening :: body) = Some [block]
  /\ (forall m closing rest,
        in_fence m = false -> closing_fence closing ->
        parse_from m (opening :: body ++ closing :: rest)
        = (fun blocks => flush m ++ block :: blocks) <$> parse_from AtTop rest)
  /\ (forall m, in_fence m = false ->
        parse_from m (opening :: body) = Some (flush m ++ [block])).
Proof.
  intros Hlang Hw Hbody opening content block.
  assert (block = code_block lang (join [LF] body)) as Hblock.
  { unfold block, content, code_block. by rewrite join_lines. }
  destruct (fence_start_eval lang w Hlang Hw) as (m0 & Hm0 & Hg).
  assert (Hclosed : forall m closing rest,
    in_fence m = false -> closing_fence closing ->
    parse_from m (opening :: body ++ closing :: rest)
    = (fun blocks => flush m ++ block :: blocks) <$> parse_from AtTop rest).
  { intros m closing rest Hm Hc%fence_end_iff.
    rewrite (parse_from_open_fence _ _ _ _ Hm Hm0), Hg, parse_from_fence_body by done.
    simpl. rewrite Hc, Hblock. by destruct (parse_from AtTop rest). }
  assert (Hopen : forall m, in_fence m = false ->
    parse_from m (opening :: body) = Some (flush m ++ [block])).
  { intros m Hm. rewrite (parse_from_open_fence _ _ _ _ Hm Hm0), Hg.
    rewrite <- (app_nil_r body) at 1. by rewrite parse_from_fence_body, Hblock. }
  split; [|split; [|split]]; try done.
  - intros closing rest Hc. by apply (Hclosed AtTop).
  - by apply (Hopen AtTop).
Qed.

Lemma fenced_code_verbatim_witness :
  parse ["```py"; "# Not a heading"; "- item"; "> quote"; "---"; "```  "; "tail"]
  = Some [mkBlock (Some "code_block") None
            (Some ("# Not a heading" ++ [LF] ++ "- item" ++ [LF] ++ "> quote"
                   ++ [LF] ++ "---"))
            (Some "py") None None;
          mkBlock (Some "paragraph") None (Some "tail") None None None]
  /\ parse ["```"; "1. one"; "````"]
     = Some [mkBlock (Some "code_block") None (Some ("1. one" ++ [LF] ++ "````"))
               (Some "") None None].
Proof.
  assert (Hnc : forall l, is_match _RE_FENCE_END l = false -> ~ closing_fence l).
  { intros l E H%fence_end_iff. congruence. }
  split.
  - refine (proj1 (fenced_code_verbatim "py" ""
                     ["# Not a heading"; "- item"; "> quote"; "---"] _ _ _)
              "```  " ["tail"] _).
    + repeat constructor.
    + constructor.
    + repeat constructor; apply Hnc; by vm_compute.
    + exists "  ". split; [repeat constructor | done].
  - refine (proj1 (proj2 (fenced_code_verbatim "" "" ["1. one"; "````"] _ _ _))).
    + constructor.
    + constructor.
    + repeat constructor; apply Hnc; by vm_compute.
Defined.

(** ** Code blocks through the inline processor and the renderer *)

Lemma in_replace_chr (c a : ascii) (by_ s : str) :
  In c (replace_chr a by_ s) -> (In c s /\ c <> a) \/ In c by_.
Proof.
  unfold replace_chr. rewrite in_flat_map. intros (x & Hx & Hc).
  destruct (chr_eqb x a) eqn:E; [by right|].
  apply chr_eqb_neq in E. destruct Hc as [<- | []]. by left.
Qed.

Lemma escape_no_markup (text : str) :
  ~ In "<"%char (_escape text) /\ ~ In ">"%char (_escape text).
Proof.
  unfold _escape. split; intros H.
  - apply in_replace_chr in H as [[H _] | H]; [|by vm_compute in H; intuition].
    apply in_replace_chr in H as [[H _] | H]; [|by vm_compute in H; intuition].
    apply in_replace_chr in H as [[H _] | H]; [|by vm_compute in H; intuition].
    apply in_replace_chr in H as [[_ H] | H]; [done|by vm_compute in H; intuition].
  - apply in_replace_chr in H as [[H _] | H]; [|by vm_compute in H; intuition].
    apply in_replace_chr in H as [[H _] | H]; [|by vm_compute in H; intuition].
    apply in_replace_chr in H as [[_ H] | H]; [done|by vm_compute in H; intuition].
Qed.

(** A document that is one closed fence converts to the escaped text of
    what the inline processor makes of the lines between the fences. *)
Lemma fenced_code_convert (lang w : str) (body : list str) (closing : str) :
  Forall (fun c => is_word c = true) lang ->
  Forall (fun c => is_blank_chr c = true) w ->
  Forall (fun l => Forall (fun c => is_linebreak c = false) l /\ ~ closing_fence l) body ->
  closing_fence closing ->
  Forall (fun c => is_linebreak c = false) closing ->
  returned (convert (join [LF] (("```" ++ lang ++ w) :: body ++ [closing])))
  = Some (match lang with
          | [] => "<pre><code>"
          | _ :: _ => "<pre><code class=" ++ [dquote] ++ "language-" ++ lang
                        ++ [dquote] ++ ">"
          end ++ _escape (_replace_inline (join [LF] body)) ++ "</code></pre>").
Proof.
  intros Hlang Hw Hbody Hc Hcb.
  destruct (fence_start_eval lang w Hlang (blank_str_space _ Hw)) as (m0 & Hm0 & Hg).
  assert (parse (("```" ++ lang ++ w) :: body ++ [closing])
          = Some [code_block lang (join [LF] body)]) as Hp.
  { unfold parse. rewrite (parse_from_open_fence AtTop _ _ _ eq_refl Hm0), Hg.
    rewrite parse_from_fence_body.
    - apply fence_end_iff in Hc. simpl. by rewrite Hc.
    - eapply Forall_impl; [exact Hbody|]. by intros l [_ ?]. }
  rewrite convert_pipeline, tokenize_join, Hp.
  - some_html. rewrite render_cons, render_code_block. simpl.
    by rewrite <- !app_assoc, app_nil_r.
  - constructor; [|apply Forall_app; split].
    + apply Forall_app. split; [by repeat constructor|].
      apply Forall_app. split; [|by apply blank_str_no_break].
      eapply Forall_impl; [exact Hlang|]. intros c Hc'.
      destruct (is_linebreak c) eqn:E; [|done].
      apply linebreak_is_space, space_not_word in E. congruence.
    + eapply Forall_impl; [exact Hbody|]. by intros l [? _].
    + by constructor.
  - rewrite app_comm_cons, last_snoc. intros [= ->].
    destruct Hc as (w' & _ & Hw'). discriminate Hw'.
Qed.

(** C3: the inline processor rewrites the content of a code block like
    that of any other block, since it only asks for the ['content'] key,
    and the renderer escapes the rewritten content: the block surfaces as
    the escaped text of the inserted tags, with no markup character [<] or
    [>] left in it, so neither verbatim nor as markup.  So does every
    document that is one closed fence. *)
Theorem code_block_inline_then_escape (language code : str) :
  let blocks := [code_block language code] in
  let st := process_inline (alloc blocks).2 (alloc blocks).1 in
  let opening_tag :=
    match language with
    | [] => "<pre><code>"
    | _ :: _ => "<pre><code class=" ++ [dquote] ++ "language-" ++ language
                  ++ [dquote] ++ ">"
    end in
  deref st.1 st.2 = [code_block language (_replace_inline code)]
  /\ render (deref st.1 st.2)
     = opening_tag ++ _escape (_replace_inline code) ++ "</code></pre>"
  /\ ~ In "<"%char (_escape (_replace_inline code))
  /\ ~ In ">"%char (_escape (_replace_inline code))
  /\ (forall w body closing,
        Forall (fun c => is_word c = true) language ->
        Forall (fun c => is_blank_chr c = true) w ->
        Forall (fun l => Forall (fun c => is_linebreak c = false) l
                         /\ ~ closing_fence l) body ->
        closing_fence closing ->
        Forall (fun c => is_linebreak c = false) closing ->
        code = join [LF] body ->
        returned (convert (join [LF] (("```" ++ language ++ w) :: body ++ [closing])))
        = Some (opening_tag ++ _escape (_replace_inline code) ++ "</code></pre>"))
  /\ _replace_inline "**not bold**" = "<strong>not bold</strong>"
  /\ returned (convert (join [LF] ["```"; "**not bold**"; "```"]))
     = Some "<pre><code>&lt;strong&gt;not bold&lt;/strong&gt;</code></pre>".
Proof.
  intros blocks st opening_tag. unfold st. rewrite process_inline_fresh.
  unfold blocks. split; [done|]. split.
  - unfold render. simpl map. rewrite render_code_block. simpl.
    by rewrite app_nil_r.
  - split; [apply escape_no_markup|]. split; [apply escape_no_markup|].
    split; [|split; by vm_compute].
    intros w body closing Hlang Hw Hbody Hc Hcb ->.
    by apply fenced_code_convert.
Qed.

(** ** Blockquotes *)

Lemma quote_line_level (line : str) :
  quote_line line
  = blockquote_block (Z.max 1 (len (take_while (is_chr ">") line)))
      (strip (lstrip_chr ">" line)).
Proof.
  unfold quote_line, len, lstrip_chr. f_equal.
  pose proof (length_take_drop_while (is_chr ">") line) as H.
  destruct (Z.eqb_spec (Z.of_nat (length line)
                        - Z.of_nat (length (drop_while (is_chr ">") line))) 0); lia.
Qed.





(** ** Substitution on text without delimiters *)

Lemma sub_from_id (r : regex) (tpl : list tpl_item) (P : ascii -> bool) (s : str) :
  (forall pos t m, run r accept pos t [] = Some m -> exists c, In c t /\ P c = true) ->
  Forall (fun c => P c = false) s ->
  forall pos, sub_from r tpl pos 0 s = s.
Proof.
  intros Hr Hs. induction Hs as [|c s Hc Hs IH]; intros pos; simpl.
  - destruct (run r accept pos [] []) as [m|] eqn:E; [|done].
    apply Hr in E as (c & [] & _).
  - destruct (run r accept pos (c :: s) []) as [m|] eqn:E.
    + apply Hr in E as (c' & Hin & Hp). exfalso.
      assert (Forall (fun c => P c = false) (c :: s)) as Hall by by constructor.
      rewrite Forall_forall in Hall. apply list_elem_of_In, Hall in Hin. congruence.
    + by rewrite IH.
Qed.

Ltac needs c :=
  intros pos t m (pos' & cs' & g' & H & _)%run_sound;
  exists c; split; [|done];
  repeat match goal with
  | H : matches ?r _ _ _ _ _ _ |- _ => unfold r in H
  end;
  unfold dot_plus_lazy in *; cbn [Lit] in *; inv_matches;
  repeat (first [left; reflexivity | right]).

Lemma image_needs pos t m :
  run _RE_IMAGE accept pos t [] = Some m -> exists c, In c t /\ chr_eqb c "[" = true.
Proof. revert pos t m. needs "["%char. Qed.

Lemma link_needs pos t m :
  run _RE_LINK accept pos t [] = Some m -> exists c, In c t /\ chr_eqb c "[" = true.
Proof. revert pos t m. needs "["%char. Qed.

Lemma code_needs pos t m :
  run _RE_CODE accept pos t [] = Some m -> exists c, In c t /\ chr_eqb c "`" = true.
Proof. revert pos t m. needs "`"%char. Qed.

Lemma bold_needs pos t m :
  run _RE_BOLD accept pos t [] = Some m ->
  exists c, In c t /\ chr_eqb c "*" || chr_eqb c "_" = true.
Proof.
  intros (pos' & cs' & g' & H & _)%run_sound.
  unfold _RE_BOLD, dot_plus_lazy in H. cbn [Lit] in H. inv_matches.
  - exists "*"%char. split; [by left | done].
  - exists "_"%char. split; [by left | done].
Qed.

Lemma italic_needs pos t m :
  run _RE_ITALIC accept pos t [] = Some m ->
  exists c, In c t /\ chr_eqb c "*" || chr_eqb c "_" = true.
Proof.
  intros (pos' & cs' & g' & H & _)%run_sound.
  unfold _RE_ITALIC, dot_plus_lazy in H. inv_matches.
  - exists "*"%char. split; [by left | done].
  - exists "_"%char. split; [by left | done].
Qed.

(** Text without delimiters goes through the five substitutions unchanged. *)
Lemma replace_inline_plain (s : str) : plain_text s -> _replace_inline s = s.
Proof.
  intros Hs. unfold _replace_inline, re_sub.
  assert (H1 : Forall (fun c => chr_eqb c "[" = false) s).
  { eapply Forall_impl; [exact Hs|]. intros c. unfold is_delimiter.
    by destruct (chr_eqb c "["). }
  assert (H2 : Forall (fun c => chr_eqb c "`" = false) s).
  { eapply Forall_impl; [exact Hs|]. intros c. unfold is_delimiter.
    destruct (chr_eqb c "["), (chr_eqb c "`"); done. }
  assert (H3 : Forall (fun c => chr_eqb c "*" || chr_eqb c "_" = false) s).
  { eapply Forall_impl; [exact Hs|]. intros c. unfold is_delimiter.
    destruct (chr_eqb c "["), (chr_eqb c "`"), (chr_eqb c "*"), (chr_eqb c "_"); done. }
  rewrite (sub_from_id _RE_IMAGE _ _ s image_needs H1).
  rewrite (sub_from_id _RE_LINK _ _ s link_needs H1).
  rewrite (sub_from_id _RE_CODE _ _ s code_needs H2).
  rewrite (sub_from_id _RE_BOLD _ _ s bold_needs H3).
  by rewrite (sub_from_id _RE_ITALIC _ _ s italic_needs H3).
Qed.

(** ** Headings *)

Lemma Forall_drop_while (P : ascii -> Prop) (p : ascii -> bool) (s : str) :
  Forall P s -> Forall P (drop_while p s).
Proof.
  induction 1 as [|c s Hc Hs IH]; simpl; [constructor|].
  destruct (p c); [done | by constructor].
Qed.

Lemma no_break_dot (s : str) :
  Forall (fun c => is_linebreak c = false) s -> Forall (fun c => is_dot c = true) s.
Proof. intros H. eapply Forall_impl; [exact H|]. apply not_linebreak_is_dot. Qed.

Lemma tokenize_line (line : str) :
  Forall (fun c => is_linebreak c = false) line -> line <> [] ->
  tokenize line = [line].
Proof.
  intros Hl Hne. apply (tokenize_join [line]); [by constructor|].
  simpl. by intros [= ->].
Qed.

Lemma str_of_int_digit (n : nat) :
  n <= 9 -> str_of_int (Z.of_nat n) = [digit_chr n].
Proof. intros H. do 10 (destruct n as [|n]; [done|]). lia. Qed.

Lemma heading_line_parse (n : nat) (rest : str) :
  1 <= n <= 6 ->
  match rest with c :: _ => c <> "#"%char | [] => True end ->
  Forall (fun c => is_dot c = true) (lstrip rest) ->
  forall tokens,
    parse ((repeat "#"%char n ++ rest) :: tokens)
    = cons (heading_block (Z.of_nat n) (strip rest)) <$> parse tokens.
Proof.
  intros Hn Hrest Hdot tokens. unfold parse.
  change (parse_from AtTop ((repeat "#"%char n ++ rest) :: tokens))
    with (parse_line (repeat "#"%char n ++ rest) (fun m' => parse_from m' tokens)).
  rewrite (parse_line_heading _ _ _ (heading_eval n rest Hn Hrest Hdot)).
  unfold group, len. simpl. by rewrite repeat_length, strip_lstrip.
Qed.

(** The whitespace around a text is what [strip] takes away, and nothing
    else. *)
Lemma strip_core (before core after : str) :
  Forall (fun c => is_space c = true) before ->
  Forall (fun c => is_space c = true) after ->
  no_outer_space core ->
  strip (before ++ core ++ after) = core.
Proof.
  intros Hb Ha [Hh Hl]. unfold strip. rewrite lstrip_app_space by done.
  destruct core as [|c core].
  - simpl. unfold lstrip. by rewrite (drop_while_all _ _ Ha).
  - rewrite <- app_comm_cons, lstrip_cons by (by apply Hh).
    unfold rstrip. rewrite app_comm_cons, rev_app_distr, drop_while_app_all
      by (by apply Forall_rev).
    destruct (rev (c :: core)) as [|d r] eqn:E.
    + apply (f_equal (@rev ascii)) in E. by rewrite rev_involutive in E.
    + rewrite drop_while_stop.
      * by rewrite <- E, rev_involutive.
      * apply Hl. rewrite <- head_reverse.
        replace (reverse (c :: core)) with (rev (c :: core)); [by rewrite E|].
        unfold reverse. by rewrite rev_alt.
Qed.

(** C6: for [n] from 1 to 6, a line of [n] characters [#], a space and
    the heading text converts to [<hn>...</hn>] around the stripped text
    as the inline processor leaves it; the text itself when it holds no
    inline delimiter.  The number of [#] is the level of the heading, and
    the stripped text is the heading text without the whitespace around
    it: when the text is whitespace, a core that neither starts nor ends
    with whitespace, and whitespace again, the content of the heading is
    the core. *)
Theorem heading_levels (n : nat) (text : str) :
  1 <= n <= 6 ->
  Forall (fun c => is_linebreak c = false) text ->
  let line := repeat "#"%char n ++ " " ++ text in
  let tag := [digit_chr n] in
  parse (tokenize line) = Some [heading_block (Z.of_nat n) (strip text)]
  /\ returned (convert line)
     = Some ("<h" ++ tag ++ ">" ++ _replace_inline (strip text) ++ "</h" ++ tag ++ ">")
  /\ (plain_text (strip text) ->
      returned (convert line)
      = Some ("<h" ++ tag ++ ">" ++ strip text ++ "</h" ++ tag ++ ">"))
  /\ (forall before core after : str,
        text = before ++ core ++ after ->
        Forall (fun c => is_space c = true) before ->
        Forall (fun c => is_space c = true) after ->
        no_outer_space core ->
        parse (tokenize line)
        = Some [mkBlock (Some "heading") (Some (Z.of_nat n)) (Some core)
                  None None None]
        /\ returned (convert line)
           = Some ("<h" ++ tag ++ ">" ++ _replace_inline core ++ "</h" ++ tag ++ ">")
        /\ (plain_text core ->
            returned (convert line)
            = Some ("<h" ++ tag ++ ">" ++ core ++ "</h" ++ tag ++ ">"))).
Proof.
  intros Hn Htext line tag.
  assert (Htok : tokenize line = [line]).
  { apply tokenize_line.
    - unfold line. apply Forall_app. split.
      + apply Forall_forall. intros c Hc%list_elem_of_In%repeat_spec. by subst c.
      + by constructor.
    - unfold line. destruct n; [lia|done]. }
  assert (Hsp : Forall (fun c => is_space c = true) " ").
  { constructor; [done | constructor]. }
  assert (Hparse : parse [line] = Some [heading_block (Z.of_nat n) (strip text)]).
  { unfold line. rewrite (heading_line_parse n (" " ++ text)); try done.
    rewrite (lstrip_app_space " " text Hsp).
    by apply Forall_drop_while, no_break_dot. }
  assert (Hconv : returned (convert line)
     = Some ("<h" ++ tag ++ ">" ++ _replace_inline (strip text) ++ "</h" ++ tag ++ ">")).
  { rewrite convert_pipeline, Htok, Hparse. some_html.
    rewrite render_cons, render_heading. unfold tag.
    rewrite str_of_int_digit by lia. simpl. by rewrite <- !app_assoc, app_nil_r. }
  assert (Hplain : plain_text (strip text) ->
      returned (convert line)
      = Some ("<h" ++ tag ++ ">" ++ strip text ++ "</h" ++ tag ++ ">")).
  { intros Hplain. by rewrite Hconv, replace_inline_plain. }
  split; [by rewrite Htok|]. split; [done|]. split; [done|].
  intros before core after Hdec Hbefore Hafter Hcore.
  assert (strip text = core) as Hstrip by (rewrite Hdec; by apply strip_core).
  rewrite <- Hstrip. split; [by rewrite Htok|]. by split.
Qed.

Lemma heading_levels_witness :
  1 <= 2 <= 6
  /\ Forall (fun c => is_linebreak c = false) "  The title   "
  /\ returned (convert "##   The title   ") = Some "<h2>The title</h2>".
Proof.
  assert (H1 : 1 <= 2 <= 6) by lia.
  assert (H2 : Forall (fun c => is_linebreak c = false) "  The title   ")
    by (repeat constructor).
  split; [exact H1|]. split; [exact H2|].
  refine (proj2 (proj2 (proj2 (proj2 (proj2 (heading_levels 2 "  The title   " H1 H2)))
            "  " "The title" "   " eq_refl _ _ _)) _).
  - repeat constructor.
  - repeat constructor.
  - split; intros c [= <-]; reflexivity.
  - repeat constructor.
Defined.

(** ** Unordered lists *)

(** What follows the marker of a list line: a gap of whitespace and the
    item text. *)
Lemma gap_text_ok (gap text : str) :
  gap <> [] ->
  Forall (fun c => is_blank_chr c = true) gap ->
  Forall (fun c => is_linebreak c = false) text ->
  1 <= length (take_while is_space (gap ++ text))
  /\ Forall (fun c => is_dot c = true) (lstrip (gap ++ text))
  /\ strip (lstrip (gap ++ text)) = strip text.
Proof.
  intros Hne Hgap%blank_str_space Htext. split; [|split].
  - rewrite take_while_app_all, length_app by done.
    destruct gap; [done | simpl; lia].
  - rewrite lstrip_app_space by done. by apply Forall_drop_while, no_break_dot.
  - by rewrite lstrip_app_space, strip_lstrip.
Qed.

Lemma ul_line_parse (it : ul_line) (tokens : list str) :
  ul_wf it ->
  parse (ul_source it :: tokens)
  = cons (ul_block (len (ul_indent it)) (strip (ul_text it))) <$> parse tokens.
Proof.
  intros (Hind & Hm & Hne & Hgap & Htext).
  destruct (gap_text_ok _ _ Hne Hgap Htext) as (H1 & H2 & H3).
  unfold parse, ul_source.
  change (parse_from AtTop (?l :: tokens))
    with (parse_line l (fun m' => parse_from m' tokens)).
  rewrite (parse_line_unordered _ _ _
             (unordered_eval _ _ _ (blank_str_space _ Hind) Hm H1 H2)).
  unfold group. simpl. by rewrite H3.
Qed.

Lemma ul_line_no_break (it : ul_line) :
  ul_wf it ->
  Forall (fun c => is_linebreak c = false) (ul_source it) /\ ul_source it <> [].
Proof.
  intros (Hind & Hm & Hne & Hgap & Htext). unfold ul_source. split.
  - apply Forall_app. split; [by apply blank_str_no_break|].
    constructor; [by apply marker_no_break|].
    apply Forall_app. split; [by apply blank_str_no_break | done].
  - by destruct (ul_indent it).
Qed.

(** C7: a document of K unordered-list lines, K >= 1, parses to K list
    item blocks and converts to K fragments [<ul><li>...</li></ul>], one
    per line in the order of the lines, each with its own [<ul>]. *)
Theorem unordered_items_separate (items : list ul_line) :
  items <> [] ->
  Forall ul_wf items ->
  let markdown := join [LF] (map ul_source items) in
  parse (tokenize markdown)
  = Some (map (fun it => ul_block (len (ul_indent it)) (strip (ul_text it))) items)
  /\ returned (convert markdown)
     = Some (concat (map (fun it => "<ul><li>" ++ _replace_inline (strip (ul_text it))
                                      ++ "</li></ul>") items))
  /\ length <$> parse (tokenize markdown) = Some (length items).
Proof.
  intros Hne Hwf markdown.
  assert (Htok : tokenize markdown = map ul_source items).
  { apply tokenize_join.
    - apply Forall_fmap. eapply Forall_impl; [exact Hwf|].
      intros it Hit. by apply ul_line_no_break.
    - rewrite fmap_last. destruct (last items) as [it|] eqn:E; [|done].
      simpl. intros [= H]. apply last_Some_elem_of in E.
      rewrite Forall_forall in Hwf. by apply (ul_line_no_break it (Hwf it E)). }
  assert (Hparse : parse (map ul_source items)
    = Some (map (fun it => ul_block (len (ul_indent it)) (strip (ul_text it))) items)).
  { clear Hne Htok. induction Hwf as [|it items Hit _ IH]; [done|].
    simpl map. rewrite ul_line_parse by done. by rewrite IH. }
  split; [by rewrite Htok|]. split.
  - rewrite convert_pipeline, Htok, Hparse. some_html. clear.
    induction items as [|it items IH]; [done|].
    cbn [map]. change (render (?b :: ?bs)) with (render_block b ++ render bs).
    rewrite render_ul, IH. simpl. by rewrite <- !app_assoc.
  - rewrite Htok, Hparse. simpl. by rewrite length_map.
Qed.

Lemma unordered_items_separate_witness :
  let items := [UlLine "" "-" " " "Item 1"; UlLine "  " "*" " " "Item 2"] in
  items <> [] /\ Forall ul_wf items
  /\ returned (convert (join [LF] ["- Item 1"; "  * Item 2"]))
     = Some "<ul><li>Item 1</li></ul><ul><li>Item 2</li></ul>".
Proof.
  intros items.
  assert (H1 : items <> []) by done.
  assert (H2 : Forall ul_wf items) by (repeat constructor; done).
  split; [exact H1|]. split; [exact H2|].
  exact (proj1 (proj2 (unordered_items_separate items H1 H2))).
Defined.

(** ** Ordered lists: the number in the marker *)

Lemma fence_start_iff (line : str) :
  is_match _RE_FENCE_START line = true <-> opening_fence line.
Proof.
  split.
  - intros (lang & w & -> & Hl & Hw)%fence_start_shape. by exists lang, w.
  - intros (lang & w & Hl & Hw & ->).
    destruct (fence_start_eval lang w Hl Hw) as (m & Hm & _).
    by apply is_match_true in Hm.
Qed.

(** One turn of the outer loop emits some blocks and goes on in some
    mode, which is inside a fence exactly when the line opens one; or it
    raises, on an ordered-list line with more digits than [int] takes. *)
Lemma parse_line_step (line : str) :
  (exists bs m',
     (forall k, parse_line line k = (bs ++.) <$> k m')
     /\ in_fence m' = is_match _RE_FENCE_START line)
  \/ ((forall k, parse_line line k = None)
      /\ is_match _RE_FENCE_START line = false
      /\ exists m, re_match _RE_ORDERED line = Some m
                   /\ int_of_digits (group m 2) = None).
Proof.
  unfold parse_line.
  destruct (is_match _RE_HR line) eqn:E1.
  { left. exists [hr_block], AtTop. split; [done|]. simpl.
    by no_match _RE_FENCE_START line. }
  destruct (re_match _RE_HEADING line) as [m|] eqn:E2.
  { apply is_match_true in E2. left. eexists [_], AtTop. split; [done|]. simpl.
    by no_match _RE_FENCE_START line. }
  destruct (re_match _RE_FENCE_START line) as [m|] eqn:E3.
  { left. exists [], (InFence (group m 1) []). split.
    - intros k. by destruct (k _).
    - by rewrite (is_match_true _ _ _ E3). }
  assert (is_match _RE_FENCE_START line = false) as -> by (unfold is_match; by rewrite E3).
  destruct (is_match _RE_BLOCKQUOTE line). { left. by eexists [_], InQuote. }
  destruct (re_match _RE_UNORDERED line). { left. by eexists [_], AtTop. }
  destruct (re_match _RE_ORDERED line) as [m|].
  { destruct (int_of_digits (group m 2)) as [number|] eqn:E.
    - left. by eexists [_], AtTop.
    - right. split; [done|]. split; [done|]. by exists m. }
  destruct (is_blank line).
  { left. exists [], AtTop. split; [|done]. intros k. by destruct (k _). }
  left. exists [], (InPara [strip line]). split; [|done]. intros k. by destruct (k _).
Qed.

Lemma parse_from_step (m : mode) (line : str) :
  (exists bs m',
     (forall rest, parse_from m (line :: rest) = (bs ++.) <$> parse_from m' rest)
     /\ in_fence m'
        = if in_fence m then negb (is_match _RE_FENCE_END line)
          else is_match _RE_FENCE_START line)
  \/ ((forall rest, parse_from m (line :: rest) = None)
      /\ in_fence m = false
      /\ is_match _RE_FENCE_START line = false
      /\ exists m0, re_match _RE_ORDERED line = Some m0
                    /\ int_of_digits (group m0 2) = None).
Proof.
  destruct (parse_line_step line) as [(bs & m' & Hk & Hf) | (Hk & Hraise)].
  - left. destruct m as [|language code_lines| |para_lines]; simpl.
    + exists bs, m'. split; [|done]. intros rest. apply Hk.
    + destruct (is_match _RE_FENCE_END line).
      * by eexists [_], AtTop.
      * exists [], (InFence language (code_lines ++ [line])). split; [|done].
        intros rest. by destruct (parse_from _ rest).
    + destruct (is_match _RE_BLOCKQUOTE line) eqn:E.
      * eexists [_], InQuote. split; [done|]. simpl.
        by destruct (blockquote_only line E) as (_ & _ & ->).
      * exists bs, m'. split; [|done]. intros rest. apply Hk.
    + destruct (is_blank line || starts_block line) eqn:E.
      * exists (paragraph_block (join " " para_lines) :: bs), m'. split; [|done].
        intros rest. rewrite Hk. by destruct (parse_from m' rest).
      * exists [], (InPara (para_lines ++ [strip line])). split.
        { intros rest. by destruct (parse_from _ rest). }
        simpl. apply orb_false_elim in E as [_ E]. unfold starts_block in E.
        by destruct (is_match _RE_HR line), (is_match _RE_HEADING line),
          (is_match _RE_FENCE_START line).
  - destruct Hraise as (Hfs & m0 & Hm0 & Hint).
    pose proof (is_match_true _ _ _ Hm0) as Ho.
    destruct m as [|language code_lines| |para_lines]; simpl.
    + right. split; [|by eauto]. intros rest. apply Hk.
    + left. destruct (is_match _RE_FENCE_END line).
      * by eexists [_], AtTop.
      * exists [], (InFence language (code_lines ++ [line])). split; [|done].
        intros rest. by destruct (parse_from _ rest).
    + right. split; [|by eauto]. intros rest.
      destruct (ordered_only _ Ho) as (_ & _ & _ & -> & _). apply Hk.
    + right. split; [|by eauto]. intros rest. unfold starts_block.
      rewrite Ho, !orb_true_r. by rewrite Hk.
Qed.





(** ** The order of the inline substitutions *)









(** ** The lexer on arbitrary text *)

Lemma splitlines_from_break (cur : str) (c : ascii) (s : str) :
  is_linebreak c = true ->
  splitlines_from cur (c :: s) = rev cur :: splitlines_from [] (after_break c s).
Proof.
  intros Hc. simpl. rewrite Hc. destruct s as [|c' s]; [done|].
  simpl. by destruct (chr_eqb c CR && chr_eqb c' LF).
Qed.

Lemma splitlines_from_char (cur : str) (c : ascii) (s : str) :
  is_linebreak c = false ->
  splitlines_from cur (c :: s) = splitlines_from (c :: cur) s.
Proof. intros Hc. simpl. by rewrite Hc. Qed.

Lemma after_break_length (c : ascii) (s : str) : length (after_break c s) <= length s.
Proof.
  destruct s as [|c' s]; [done|]. simpl.
  destruct (chr_eqb c CR && chr_eqb c' LF); simpl; lia.
Qed.

(** Induction along the lines of a text. *)
Lemma splitlines_ind (P : str -> str -> Prop) :
  (forall cur, P cur []) ->
  (forall cur c s, is_linebreak c = false -> P (c :: cur) s -> P cur (c :: s)) ->
  (forall cur c s, is_linebreak c = true -> P [] (after_break c s) -> P cur (c :: s)) ->
  forall s cur, P cur s.
Proof.
  intros Hnil Hchar Hbreak s.
  remember (length s) as n eqn:Hn. assert (Hle : length s <= n) by lia. clear Hn.
  revert s Hle. induction n as [|n IH]; intros s Hle cur.
  - destruct s; [apply Hnil | simpl in Hle; lia].
  - destruct s as [|c s]; [apply Hnil|]. simpl in Hle.
    destruct (is_linebreak c) eqn:Hc.
    + apply Hbreak; [done|]. apply IH. pose proof (after_break_length c s). lia.
    + apply Hchar; [done|]. apply IH. lia.
Qed.

Lemma splitlines_from_no_break (s cur : str) :
  Forall (fun c => is_linebreak c = false) cur ->
  Forall (Forall (fun c => is_linebreak c = false)) (splitlines_from cur s).
Proof.
  revert s cur. apply (splitlines_ind (fun cur s => Forall _ cur -> Forall _ (splitlines_from cur s))).
  - intros cur Hcur. simpl. destruct cur; repeat constructor. by apply Forall_rev.
  - intros cur c s Hc IH Hcur. rewrite splitlines_from_char by done.
    apply IH. by constructor.
  - intros cur c s Hc IH Hcur. rewrite splitlines_from_break by done.
    constructor; [by apply Forall_rev | apply IH; constructor].
Qed.

Lemma splitlines_from_concat (s cur : str) :
  concat (splitlines_from cur s) = rev cur ++ List.filter no_break s.
Proof.
  revert s cur. apply (splitlines_ind (fun cur s => concat (splitlines_from cur s) = rev cur ++ List.filter no_break s)).
  - intros cur. simpl. destruct cur; [done|]. simpl. by rewrite !app_nil_r.
  - intros cur c s Hc IH. rewrite splitlines_from_char by done.
    assert (no_break c = true) as Hn by (unfold no_break; by rewrite Hc).
    rewrite IH. simpl. rewrite Hn. by rewrite <- app_assoc.
  - intros cur c s Hc IH. rewrite splitlines_from_break by done.
    assert (no_break c = false) as Hn by (unfold no_break; by rewrite Hc).
    simpl. rewrite Hn, IH. simpl. f_equal.
    destruct s as [|c' s]; [done|]. simpl.
    destruct (chr_eqb c CR && chr_eqb c' LF) eqn:E; [|done].
    apply andb_prop in E as [_ ->%chr_eqb_eq]. done.
Qed.

Lemma splitlines_from_nil_inv (s cur : str) :
  splitlines_from cur s = [] -> cur = [] /\ s = [].
Proof.
  revert s cur.
  apply (splitlines_ind (fun cur s => splitlines_from cur s = [] -> cur = [] /\ s = [])).
  - intros cur. simpl. by destruct cur.
  - intros cur c s Hc IH. rewrite splitlines_from_char by done.
    intros H. by apply IH in H as [? _].
  - intros cur c s Hc _. by rewrite splitlines_from_break.
Qed.

Lemma splitlines_from_length (s cur : str) :
  length (splitlines_from cur s) <= length s + match cur with [] => 0 | _ => 1 end.
Proof.
  revert s cur.
  apply (splitlines_ind (fun cur s =>
    length (splitlines_from cur s) <= length s + match cur with [] => 0 | _ => 1 end)).
  - intros cur. simpl. by destruct cur.
  - intros cur c s Hc IH. rewrite splitlines_from_char by done. simpl in *.
    destruct cur; lia.
  - intros cur c s Hc IH. rewrite splitlines_from_break by done. simpl in *.
    pose proof (after_break_length c s). lia.
Qed.

(** X1: whatever the text, no token of the lexer holds a line-boundary
    character; the tokens concatenated are the text without its
    line-boundary characters; there is no token exactly when the text is
    empty; and there are never more tokens than characters. *)
Theorem tokenize_tokens (markdown : str) :
  Forall (Forall (fun c => is_linebreak c = false)) (tokenize markdown)
  /\ concat (tokenize markdown) = List.filter no_break markdown
  /\ (tokenize markdown = [] <-> markdown = [])
  /\ length (tokenize markdown) <= length markdown.
Proof.
  unfold tokenize, splitlines. split_and!.
  - apply splitlines_from_no_break. constructor.
  - apply splitlines_from_concat.
  - split; [by intros [_ ?]%splitlines_from_nil_inv | by intros ->].
  - pose proof (splitlines_from_length markdown []). simpl in *. lia.
Qed.

Lemma splitlines_from_sep (sep cur l rest : str) :
  line_end sep ->
  Forall (fun c => is_linebreak c = false) l ->
  (sep = [CR] -> match rest with c :: _ => c <> LF | [] => True end) ->
  splitlines_from cur (l ++ sep ++ rest) = (rev cur ++ l) :: splitlines_from [] rest.
Proof.
  intros Hsep Hl Hrest. revert cur. induction Hl as [|c l Hc _ IH]; intros cur.
  - rewrite app_nil_r. destruct Hsep as [-> | (c & -> & Hc)].
    + simpl app. by rewrite splitlines_from_break.
    + simpl app. rewrite splitlines_from_break by done. f_equal. f_equal.
      destruct rest as [|c' rest]; [done|]. simpl.
      destruct (chr_eqb c CR && chr_eqb c' LF) eqn:E; [|done].
      apply andb_prop in E as [->%chr_eqb_eq ->%chr_eqb_eq]. by destruct Hrest.
  - simpl app. rewrite splitlines_from_char, IH by done. simpl. by rewrite <- app_assoc.
Qed.

Lemma join_cons_cons (sep l l' : str) (ls : list str) :
  join sep (l :: l' :: ls) = l ++ sep ++ join sep (l' :: ls).
Proof. done. Qed.

(** X2: lines without line-boundary characters, the last of them not
    empty, joined by any one line terminator, are given back by the lexer;
    so the result of [convert] is that of the later stages on these lines,
    whichever terminator the text uses. *)
Theorem tokenize_join_lines (sep : str) (lines : list str) :
  line_end sep ->
  Forall (Forall (fun c => is_linebreak c = false)) lines ->
  last lines <> Some [] ->
  tokenize (join sep lines) = lines
  /\ returned (convert (join sep lines))
     = (fun blocks => render (map process_block blocks)) <$> parse lines.
Proof.
  intros Hsep Hlines Hlast.
  assert (tokenize (join sep lines) = lines) as Htok.
  { unfold tokenize, splitlines. revert Hlast.
    induction Hlines as [|l ls Hl Hls IH]; intros Hlast; [done|].
    destruct ls as [|l' ls].
    - simpl. rewrite splitlines_from_last; [done | done |].
      simpl. intros ->. by apply Hlast.
    - rewrite join_cons_cons, splitlines_from_sep; [| done | done |].
      + simpl. f_equal. apply IH. by rewrite last_cons_cons in Hlast.
      + intros ->. destruct l' as [|c l'].
        * destruct ls; [done|]. rewrite join_cons_cons. simpl. by vm_compute.
        * apply Forall_cons in Hls as [Hl' _]. apply Forall_cons in Hl' as [Hc _].
          destruct ls; simpl; intros ->; by vm_compute in Hc. }
  split; [done|]. by rewrite convert_pipeline, Htok.
Qed.

Lemma tokenize_join_lines_witness :
  tokenize (join [CR; LF] ["# Title"; ""; "text"]) = ["# Title"; ""; "text"]
  /\ returned (convert (join [CR; LF] ["# Title"; ""; "text"]))
     = Some "<h1>Title</h1><p>text</p>".
Proof.
  apply (tokenize_join_lines [CR; LF] ["# Title"; ""; "text"]).
  - by left.
  - repeat constructor.
  - simpl. discriminate.
Defined.

Lemma ends_in_text_cons (c : ascii) (s : str) :
  s <> [] -> ends_in_text (c :: s) -> ends_in_text s.
Proof.
  intros Hs (x & Hx & Hb). exists x. split; [|done].
  destruct s; [done|]. by rewrite last_cons_cons in Hx.
Qed.

Lemma splitlines_from_app (sep s2 s1 cur : str) :
  line_end sep ->
  (sep = [CR] -> match s2 with c :: _ => c <> LF | [] => True end) ->
  ends_in_text (rev cur ++ s1) ->
  splitlines_from cur (s1 ++ sep ++ s2) = splitlines_from cur s1 ++ splitlines_from [] s2.
Proof.
  intros Hsep Hs2. revert s1 cur.
  apply (splitlines_ind (fun cur s1 => ends_in_text (rev cur ++ s1) ->
    splitlines_from cur (s1 ++ sep ++ s2) = splitlines_from cur s1 ++ splitlines_from [] s2)).
  - intros cur Hend. rewrite (splitlines_from_sep sep cur [] s2) by (done || constructor).
    rewrite !app_nil_r in *. simpl. destruct cur; [|done].
    by destruct Hend as (? & ? & _).
  - intros cur c s Hc IH Hend. rewrite <- app_comm_cons, !splitlines_from_char by done.
    apply IH. simpl. by rewrite <- app_assoc.
  - intros cur c s Hc IH Hend. rewrite <- app_comm_cons, !splitlines_from_break by done.
    simpl. f_equal.
    assert (ends_in_text (c :: s)) as Hcs.
    { destruct Hend as (x & Hx & Hb). exists x. split; [|done].
      by rewrite last_app_cons in Hx. }
    destruct s as [|c' s].
    { destruct Hcs as (x & Hx & Hb). simpl in Hx. congruence. }
    apply ends_in_text_cons in Hcs; [|done].
    simpl. destruct (chr_eqb c CR && chr_eqb c' LF) eqn:E.
    + simpl in IH. rewrite E in IH. apply IH. simpl.
      destruct s as [|c'' s]; [|by apply ends_in_text_cons in Hcs].
      destruct Hcs as (x & Hx & Hb). simpl in Hx.
      apply andb_prop in E as [_ ->%chr_eqb_eq]. simplify_eq; by vm_compute in Hb.
    + simpl in IH. rewrite E in IH. by apply IH.
Qed.

(** X3: a line terminator after text that does not itself end in a line
    boundary cuts the token list: the tokens of the whole are the tokens of
    the part before followed by the tokens of the part after. *)
Theorem tokenize_app (sep s1 s2 : str) :
  line_end sep ->
  ends_in_text s1 ->
  (sep = [CR] -> match s2 with c :: _ => c <> LF | [] => True end) ->
  tokenize (s1 ++ sep ++ s2) = tokenize s1 ++ tokenize s2.
Proof. intros Hsep Hend Hs2. by apply splitlines_from_app. Qed.

Lemma tokenize_app_witness :
  tokenize ("a" ++ [LF] ++ [LF] ++ "b") = tokenize "a" ++ tokenize ([LF] ++ "b").
Proof.
  apply (tokenize_app [LF] "a" ([LF] ++ "b")).
  - right. by exists LF.
  - by exists "a"%char.
  - discriminate.
Defined.

(** X4: one line terminator at the very end of a text adds no token and
    does not change the result of [convert]. *)
Theorem convert_trailing_newline (sep markdown : str) :
  line_end sep ->
  ends_in_text markdown ->
  tokenize (markdown ++ sep) = tokenize markdown
  /\ returned (convert (markdown ++ sep)) = returned (convert markdown).
Proof.
  intros Hsep Hend.
  assert (tokenize (markdown ++ sep) = tokenize markdown) as Ht.
  { pose proof (splitlines_from_app sep [] markdown [] Hsep) as H.
    rewrite !app_nil_r in H. unfold tokenize, splitlines. by apply H. }
  split; [done|]. by rewrite !convert_pipeline, Ht.
Qed.

Lemma convert_trailing_newline_witness :
  returned (convert ("# Title" ++ [CR; LF])) = returned (convert "# Title").
Proof.
  apply (convert_trailing_newline [CR; LF] "# Title").
  - by left.
  - by exists "e"%char.
Defined.

(** ** Stripped strings *)

Lemma drop_while_idem (p : ascii -> bool) (s : str) :
  drop_while p (drop_while p s) = drop_while p s.
Proof.
  induction s as [|c s IH]; [done|]. simpl. destruct (p c) eqn:E; [done|].
  simpl. by rewrite E.
Qed.

Lemma rstrip_idem (s : str) : rstrip (rstrip s) = rstrip s.
Proof. unfold rstrip. by rewrite rev_involutive, drop_while_idem. Qed.

Lemma rstrip_prefix (s : str) :
  exists w, s = rstrip s ++ w /\ Forall (fun c => is_space c = true) w.
Proof.
  exists (rev (take_while is_space (rev s))). split.
  - unfold rstrip. by rewrite <- rev_app_distr, take_drop_while, rev_involutive.
  - apply Forall_rev, take_while_all.
Qed.

Lemma lstrip_fixed (s : str) :
  lstrip s = s <-> match s with c :: _ => is_space c = false | [] => True end.
Proof.
  destruct s as [|c s]; [done|]. unfold lstrip. simpl.
  destruct (is_space c) eqn:E; [|done]. split; [|done].
  intros H. pose proof (length_take_drop_while is_space s) as Hl.
  rewrite H in Hl. simpl in Hl. lia.
Qed.

Lemma lstrip_rstrip (s : str) : lstrip s = s -> lstrip (rstrip s) = rstrip s.
Proof.
  intros H. apply lstrip_fixed. apply lstrip_fixed in H.
  destruct (rstrip_prefix s) as (w & Hs & _).
  destruct (rstrip s) as [|c t]; [done|]. rewrite Hs in H. done.
Qed.

Lemma strip_idem (s : str) : strip (strip s) = strip s.
Proof.
  unfold strip. rewrite (lstrip_rstrip (lstrip s)) by apply lstrip_idem.
  apply rstrip_idem.
Qed.

Lemma strip_fixed_parts (s : str) : strip s = s -> lstrip s = s /\ rstrip s = s.
Proof.
  intros H. destruct (strip_decompose s) as (w2 & Hs & _).
  assert (length (take_while is_space s) = 0) as Hl.
  { apply (f_equal length) in Hs. rewrite !length_app, H in Hs. lia. }
  assert (lstrip s = s) as Hls.
  { unfold lstrip. pose proof (take_drop_while is_space s) as Ht.
    destruct (take_while is_space s); [done | simpl in Hl; lia]. }
  split; [done|]. unfold strip in H. by rewrite Hls in H.
Qed.

Lemma rstrip_fixed_app (a b : str) : b <> [] -> rstrip b = b -> rstrip (a ++ b) = a ++ b.
Proof.
  intros Hb H. unfold rstrip in *. rewrite rev_app_distr.
  apply (f_equal (@rev ascii)) in H. rewrite rev_involutive in H.
  destruct (rev b) as [|c t] eqn:E.
  { apply (f_equal (@rev ascii)) in E. rewrite rev_involutive in E. done. }
  apply drop_while_head in H.
  change ((c :: t) ++ rev a) with (c :: (t ++ rev a)).
  rewrite drop_while_stop by done.
  change (c :: (t ++ rev a)) with ((c :: t) ++ rev a).
  rewrite <- E, <- rev_app_distr. apply rev_involutive.
Qed.

Lemma lstrip_fixed_app (a b : str) : a <> [] -> lstrip a = a -> lstrip (a ++ b) = a ++ b.
Proof.
  intros Ha H. apply lstrip_fixed. apply lstrip_fixed in H. by destruct a.
Qed.

Lemma trimmed_app (a mid b : str) : trimmed a -> trimmed b -> trimmed (a ++ mid ++ b).
Proof.
  intros [Ha [Hla _]%strip_fixed_parts] [Hb [_ Hrb]%strip_fixed_parts]. split.
  - by destruct a.
  - unfold strip. rewrite lstrip_fixed_app by done.
    rewrite !app_assoc. rewrite rstrip_fixed_app by done. done.
Qed.

Lemma trimmed_strip (s : str) : is_blank s = false -> trimmed (strip s).
Proof.
  unfold is_blank. intros H. split; [by destruct (strip s) | apply strip_idem].
Qed.

Lemma trimmed_join (parts : list str) :
  parts <> [] -> Forall trimmed parts -> trimmed (join " " parts).
Proof.
  intros Hne H. induction H as [|p ps Hp Hps IH]; [done|].
  destruct ps as [|p' ps]; [done|].
  change (join " " (p :: p' :: ps)) with (p ++ " " ++ join " " (p' :: ps)).
  apply trimmed_app; [done|]. by apply IH.
Qed.

(** ** What the patterns capture *)

Lemma re_match_sound (r : regex) (s : str) (m : rmatch) :
  re_match r s = Some m ->
  exists pos' cs' g', matches r 0 s [] pos' cs' g' /\ m = Match pos' cs' g'.
Proof.
  intros (pos' & cs' & g' & H & Ha)%run_sound. exists pos', cs', g'.
  split; [done|]. unfold accept in Ha. congruence.
Qed.

Lemma heading_group_level (line : str) (m : rmatch) :
  re_match _RE_HEADING line = Some m -> 1 <= length (group m 1) <= 6.
Proof.
  intros (pos' & cs' & g' & H & ->)%re_match_sound.
  unfold _RE_HEADING, ws_star, dot_star in H. inv_matches.
  unfold group. simpl. rewrite Nat.sub_0_r, take_app_length.
  match goal with
  | Hh : forall h, Some 6 = Some h -> _ |- _ => specialize (Hh 6 eq_refl)
  end. lia.
Qed.

Lemma fence_start_group_word (line : str) (m : rmatch) :
  re_match _RE_FENCE_START line = Some m ->
  Forall (fun c => is_word c = true) (group m 1).
Proof.
  intros (pos' & cs' & g' & H & ->)%re_match_sound.
  unfold _RE_FENCE_START, Opt, ws_star in H. cbn [Lit] in H. inv_matches.
  - unfold group. simpl. by rewrite Nat.sub_0_r, take_app_length.
  - unfold group. simpl. constructor.
Qed.

Lemma decimal_value_nonneg (digits : str) : (0 <= decimal_value digits)%Z.
Proof.
  unfold decimal_value.
  assert (forall acc, (0 <= acc)%Z ->
    (0 <= fold_left (fun acc c => 10 * acc + Z.of_nat (code c - 48)) digits acc)%Z) as H.
  { induction digits as [|c digits IH]; intros acc Hacc; [done|].
    simpl. apply IH. lia. }
  by apply H.
Qed.

(** ** One turn of the loop, whatever the line *)

Lemma is_blank_iff (line : str) :
  is_blank line = true <-> Forall (fun c => is_space c = true) line.
Proof.
  unfold is_blank. split.
  - intros H. apply strip_nil_inv. by destruct (strip line).
  - intros H. by rewrite strip_all_space.
Qed.

Lemma quote_line_parsed (line : str) : parsed_block (quote_line line).
Proof. rewrite quote_line_level. constructor; [lia | apply strip_idem]. Qed.

Lemma parse_line_cases (line : str) :
  (exists bs m',
     (forall k, parse_line line k = (bs ++.) <$> k m')
     /\ Forall parsed_block bs /\ mode_wf m'
     /\ length bs + pending m' <= 1
     /\ (is_blank line = false -> 1 <= length bs + pending m'))
  \/ (forall k, parse_line line k = None).
Proof.
  unfold parse_line.
  destruct (is_match _RE_HR line).
  { left. exists [hr_block], AtTop. split_and!; simpl; try done; try lia.
    apply Forall_singleton. constructor. }
  destruct (re_match _RE_HEADING line) as [m|] eqn:E2.
  { left. eexists [_], AtTop. split_and!; simpl; try done; try lia.
    apply Forall_singleton. apply heading_group_level in E2.
    constructor; [unfold len; lia | apply strip_idem]. }
  destruct (re_match _RE_FENCE_START line) as [m|] eqn:E3.
  { left. exists [], (InFence (group m 1) []). split_and!; simpl; try done; try lia.
    - intros k. by destruct (k _).
    - by apply fence_start_group_word in E3. }
  destruct (is_match _RE_BLOCKQUOTE line).
  { left. eexists [_], InQuote. split_and!; simpl; try done; try lia.
    apply Forall_singleton, quote_line_parsed. }
  destruct (re_match _RE_UNORDERED line).
  { left. eexists [_], AtTop. split_and!; simpl; try done; try lia.
    apply Forall_singleton. constructor; [unfold len; lia | apply strip_idem]. }
  destruct (re_match _RE_ORDERED line) as [m|].
  { destruct (int_of_digits (group m 2)) as [number|] eqn:E; [|by right].
    apply int_of_digits_some in E as [_ ->].
    left. eexists [_], AtTop. split_and!; simpl; try done; try lia.
    apply Forall_singleton.
    constructor; [unfold len; lia | apply decimal_value_nonneg | apply strip_idem]. }
  destruct (is_blank line) eqn:E.
  { left. exists [], AtTop. split_and!; simpl; try done; try lia.
    intros k. by destruct (k _). }
  left. exists [], (InPara [strip line]). split_and!; simpl; try done; try lia.
  - intros k. by destruct (k _).
  - split; [done | apply Forall_singleton; by apply trimmed_strip].
Qed.

Lemma parse_from_cases (m : mode) (line : str) :
  mode_wf m ->
  (exists bs m',
     (forall rest, parse_from m (line :: rest) = (bs ++.) <$> parse_from m' rest)
     /\ Forall parsed_block bs /\ mode_wf m'
     /\ length bs + pending m' <= 1 + pending m
     /\ pending m <= length bs + pending m'
     /\ (is_blank line = false -> 1 <= length bs + pending m'))
  \/ (forall rest, parse_from m (line :: rest) = None).
Proof.
  intros Hm.
  destruct (parse_line_cases line) as [(bs & m' & Hk & Hbs & Hm' & Hle & Hge) | Hk].
  - left. destruct m as [|language code_lines| |para_lines]; simpl.
    + exists bs, m'. split_and!; simpl; try done; try lia.
    + destruct (is_match _RE_FENCE_END line).
      * eexists [_], AtTop. split_and!; simpl; try done; try lia.
        apply Forall_singleton. by constructor.
      * exists [], (InFence language (code_lines ++ [line])).
        split_and!; simpl; try done; try lia.
        intros rest. by destruct (parse_from _ rest).
    + destruct (is_match _RE_BLOCKQUOTE line).
      * eexists [_], InQuote. split_and!; simpl; try done; try lia.
        apply Forall_singleton, quote_line_parsed.
      * exists bs, m'. split_and!; simpl; try done; try lia.
    + destruct Hm as [Hne Hall]. destruct (is_blank line || starts_block line) eqn:E.
      * exists (paragraph_block (join " " para_lines) :: bs), m'.
        split_and!; simpl; try done; try lia.
        -- intros rest. rewrite Hk. by destruct (parse_from m' rest).
        -- constructor; [|done]. constructor. by apply trimmed_join.
      * apply orb_false_elim in E as [E _].
        exists [], (InPara (para_lines ++ [strip line])).
        split_and!; simpl; try done; try lia.
        -- intros rest. by destruct (parse_from _ rest).
        -- split; [by destruct para_lines|].
           apply Forall_app. split; [done|]. apply Forall_singleton.
           by apply trimmed_strip.
  - destruct m as [|language code_lines| |para_lines]; simpl.
    + right. intros rest. apply Hk.
    + left. destruct (is_match _RE_FENCE_END line).
      * eexists [_], AtTop. split_and!; simpl; try done; try lia.
        apply Forall_singleton. by constructor.
      * exists [], (InFence language (code_lines ++ [line])).
        split_and!; simpl; try done; try lia.
        intros rest. by destruct (parse_from _ rest).
    + destruct (is_match _RE_BLOCKQUOTE line).
      * left. eexists [_], InQuote. split_and!; simpl; try done; try lia.
        apply Forall_singleton, quote_line_parsed.
      * right. intros rest. apply Hk.
    + destruct Hm as [Hne Hall]. destruct (is_blank line || starts_block line) eqn:E.
      * right. intros rest. by rewrite Hk.
      * apply orb_false_elim in E as [E _]. left.
        exists [], (InPara (para_lines ++ [strip line])).
        split_and!; simpl; try done; try lia.
        -- intros rest. by destruct (parse_from _ rest).
        -- split; [by destruct para_lines|].
           apply Forall_app. split; [done|]. apply Forall_singleton.
           by apply trimmed_strip.
Qed.

Lemma parse_from_parsed (tokens : list str) (m : mode) (blocks : list Block) :
  mode_wf m -> parse_from m tokens = Some blocks -> Forall parsed_block blocks.
Proof.
  revert m blocks. induction tokens as [|line rest IH]; intros m blocks Hm.
  - intros [= <-]. destruct m as [|language code_lines| |para_lines]; simpl.
    + constructor.
    + apply Forall_singleton. by constructor.
    + constructor.
    + destruct Hm. apply Forall_singleton. constructor. by apply trimmed_join.
  - destruct (parse_from_cases m line Hm) as [(bs & m' & -> & Hbs & Hm' & _) | ->];
      [|done].
    destruct (parse_from m' rest) as [blocks'|] eqn:E; [|done].
    intros [= <-]. apply Forall_app. split; [done | by apply (IH m')].
Qed.

Lemma parse_from_length (tokens : list str) (m : mode) (blocks : list Block) :
  mode_wf m -> parse_from m tokens = Some blocks ->
  pending m <= length blocks <= length tokens + pending m.
Proof.
  revert m blocks. induction tokens as [|line rest IH]; intros m blocks Hm.
  - intros [= <-]. by destruct m.
  - destruct (parse_from_cases m line Hm)
      as [(bs & m' & -> & _ & Hm' & Hle & Hge & _) | ->]; [|done].
    destruct (parse_from m' rest) as [blocks'|] eqn:E; [|done].
    intros [= <-]. rewrite length_app. specialize (IH m' blocks' Hm' E). simpl. lia.
Qed.

Lemma parse_from_some (tokens : list str) (m : mode) (blocks : list Block) :
  mode_wf m ->
  Exists (fun line => is_blank line = false) tokens ->
  parse_from m tokens = Some blocks ->
  1 <= length blocks.
Proof.
  intros Hm Hex. revert m blocks Hm.
  induction Hex as [line rest Hl|line rest _ IH]; intros m blocks Hm.
  - destruct (parse_from_cases m line Hm)
      as [(bs & m' & -> & _ & Hm' & _ & _ & Hge) | ->]; [|done].
    destruct (parse_from m' rest) as [blocks'|] eqn:E; [|done].
    intros [= <-]. rewrite length_app.
    pose proof (parse_from_length rest m' blocks' Hm' E). specialize (Hge Hl). lia.
  - destruct (parse_from_cases m line Hm) as [(bs & m' & -> & _ & Hm' & _) | ->];
      [|done].
    destruct (parse_from m' rest) as [blocks'|] eqn:E; [|done].
    intros [= <-]. rewrite length_app. specialize (IH m' blocks' Hm' E). lia.
Qed.

(** X5: [parse] returns at most one block per line, and no block at all
    exactly when every line is blank. *)
Theorem parse_block_count (tokens : list str) :
  (forall blocks, parse tokens = Some blocks -> length blocks <= length tokens)
  /\ (parse tokens = Some [] <-> Forall (fun line => is_blank line = true) tokens).
Proof.
  split.
  - intros blocks H.
    pose proof (parse_from_length tokens AtTop blocks I H) as Hl. simpl in Hl. lia.
  - split.
    + intros H. apply Forall_forall. intros line Hin.
      destruct (is_blank line) eqn:E; [done|].
      assert (Exists (fun line => is_blank line = false) tokens) as Hex.
      { apply Exists_exists. eauto. }
      apply (parse_from_some tokens AtTop [] I) in Hex; [|done]. simpl in Hex. lia.
    + intros H. apply parse_blank_lines.
      eapply Forall_impl; [exact H|]. intros line. apply is_blank_iff.
Qed.


(** ** What the renderer emits and what it drops *)

Lemma str_mul_nil (s : str) (n : Z) : s <> [] -> str_mul s n = [] <-> (n <= 0)%Z.
Proof.
  intros Hs. unfold str_mul. split.
  - intros H. destruct (Z.to_nat n) eqn:E; [lia|]. simpl in H. by destruct s.
  - intros H. replace (Z.to_nat n) with 0 by lia. done.
Qed.

(** X6: [render] writes nothing for a block exactly when its type is none
    of the seven it knows (the unknown types that are ignored) or when the
    block is a blockquote whose level is not positive and whose content is
    empty; such a block can be taken out of the list without changing the
    output. *)
Theorem render_block_nothing (b : Block) :
  (render_block b = ""
   <-> known_type (b_type b) = false
       \/ (b_type b = Some "blockquote" /\ (default 1 (b_level b) <= 0)%Z
           /\ default "" (b_content b) = ""))
  /\ (render_block b = "" ->
      forall before after, render (before ++ b :: after) = render (before ++ after)).
Proof.
  split.
  - unfold render_block, known_type.
    repeat case_bool_decide; simpl; try congruence.
    all: try (split; [done | by intros [? | (? & _)]]).
    all: try (split; [done | intros [? | (? & _)]; [done | congruence]]).
    + destruct (default "" (b_language b));
        (split; [done | intros [? | (? & _)]; [done | congruence]]).
    + split.
      * intros Hnil. right. apply app_eq_nil in Hnil as [Hn1 [Hn2 _]%app_eq_nil].
        apply str_mul_nil in Hn1; done.
      * intros [? | (_ & Hl & ->)]; [done|].
        rewrite (proj2 (str_mul_nil "<blockquote>" _ ltac:(done)) Hl).
        by rewrite (proj2 (str_mul_nil "</blockquote>" _ ltac:(done)) Hl).
    + split; [by left | done].
  - intros H before after. unfold render.
    rewrite !map_app, !concat_app. simpl. by rewrite H.
Qed.

Lemma render_parsed_block (b : Block) :
  parsed_block b -> exists s, render_block (process_block b) = "<"%char :: s.
Proof.
  destruct 1 as [|level content|language code|level content Hl| | |]; try by eexists.
  - rewrite render_code_block. destruct language; by eexists.
  - unfold process_block, render_block. simpl. unfold str_mul.
    destruct (Z.to_nat level) eqn:E; [lia|]. by eexists.
Qed.




Lemma tokenize_has (markdown : str) (c : ascii) :
  In c markdown -> is_space c = false ->
  Exists (fun line => is_blank line = false) (tokenize markdown).
Proof.
  intros Hin Hc.
  assert (In c (concat (tokenize markdown))) as Hcat.
  { unfold tokenize, splitlines. rewrite splitlines_from_concat. simpl.
    apply filter_In. split; [done|]. unfold no_break.
    destruct (is_linebreak c) eqn:E; [|done].
    apply linebreak_is_space in E. congruence. }
  apply in_concat in Hcat as (t & Ht & Hct). apply Exists_exists. exists t.
  split; [by apply list_elem_of_In|].
  destruct (is_blank t) eqn:E; [|done]. apply is_blank_iff in E.
  rewrite Forall_forall in E. apply list_elem_of_In, E in Hct. congruence.
Qed.

(** X8: [convert] returns the empty string exactly on the inputs made of
    whitespace only. *)
Theorem convert_nothing_iff (markdown : str) :
  returned (convert markdown) = Some ""
  <-> Forall (fun c => is_space c = true) markdown.
Proof.
  rewrite convert_pipeline. split.
  - intros H. apply Forall_forall. intros c Hin%list_elem_of_In.
    destruct (is_space c) eqn:Hc; [done|]. exfalso.
    unfold parse in H.
    destruct (parse_from AtTop (tokenize markdown)) as [blocks|] eqn:E; [|done].
    pose proof (parse_from_some _ AtTop blocks I (tokenize_has _ _ Hin Hc) E) as Hlen.
    pose proof (parse_from_parsed (tokenize markdown) AtTop blocks I E) as Hall.
    destruct blocks as [|b bs]. { simpl in Hlen. lia. }
    apply Forall_cons in Hall as [(s & Hs)%render_parsed_block _].
    change (Some (render (map process_block (b :: bs))) = Some "") in H.
    rewrite render_cons, Hs in H. done.
  - intros H. by rewrite (parse_blank_lines _ (tokenize_space _ H)).
Qed.

(** ** The block patterns against each other *)

(** X9: the six block patterns of the main loop exclude one another: a
    line matches at most one of them, and a blank line matches none, so
    the order of the tests decides nothing. *)
Theorem block_patterns_exclusive (line : str) :
  length (List.filter (fun r => is_match r line) block_patterns) <= 1
  /\ (is_blank line = true ->
      List.filter (fun r => is_match r line) block_patterns = []).
Proof.
  split.
  - unfold block_patterns. simpl.
    destruct (is_match _RE_HR line) eqn:E1, (is_match _RE_HEADING line) eqn:E2,
      (is_match _RE_FENCE_START line) eqn:E3, (is_match _RE_BLOCKQUOTE line) eqn:E4,
      (is_match _RE_UNORDERED line) eqn:E5, (is_match _RE_ORDERED line) eqn:E6;
      simpl; try lia; exfalso; clash.
  - intros H%is_blank_iff.
    destruct (blank_only line H) as (E1 & E2 & E3 & E4 & E5 & E6).
    unfold block_patterns. simpl. by rewrite E1, E2, E3, E4, E5, E6.
Qed.

(** ** What the block patterns accept *)

Lemma heading_intro (s : str) :
  Forall (fun c => is_dot c = true) s -> is_match _RE_HEADING ("#"%char :: s) = true.
Proof.
  intros Hs. apply is_match_iff. rewrite <- (app_nil_r s).
  do 3 eexists. unfold _RE_HEADING, ws_star, dot_star.
  eapply M_Cat; [apply M_Bol|].
  eapply M_Cat; [apply M_Grp, (M_Rep true 1 (Some 6) (is_chr "#") ["#"%char]) |].
  - by repeat constructor.
  - simpl. lia.
  - intros h [= <-]. simpl. lia.
  - eapply M_Cat; [apply (M_Rep true 0 None is_space []); [done | simpl; lia | done]|].
    eapply M_Cat; [apply M_Grp, M_Rep; [done | lia | done]|].
    apply M_Eol. by left.
Qed.

Lemma blockquote_intro (w s : str) :
  Forall (fun c => is_space c = true) w ->
  Forall (fun c => is_dot c = true) s ->
  is_match _RE_BLOCKQUOTE (w ++ ">"%char :: s) = true.
Proof.
  intros Hw Hs. apply is_match_iff. rewrite <- (app_nil_r s).
  do 3 eexists. unfold _RE_BLOCKQUOTE, ws_star, dot_star.
  eapply M_Cat; [apply M_Bol|].
  eapply M_Cat; [apply M_Rep; [done | lia | done]|].
  eapply M_Cat; [apply (M_Rep true 1 None (is_chr ">") [">"%char]);
                 [by repeat constructor | simpl; lia | done]|].
  eapply M_Cat; [apply (M_Rep true 0 (Some 1) is_space []);
                 [done | simpl; lia | intros h [= <-]; simpl; lia]|].
  eapply M_Cat; [apply M_Grp, M_Rep; [done | lia | done]|].
  apply M_Eol. by left.
Qed.

Lemma unordered_intro (w : str) (c d : ascii) (s : str) :
  Forall (fun c => is_space c = true) w ->
  is_marker c = true -> is_space d = true ->
  Forall (fun c => is_dot c = true) s ->
  is_match _RE_UNORDERED (w ++ c :: d :: s) = true.
Proof.
  intros Hw Hc Hd Hs. apply is_match_iff. rewrite <- (app_nil_r s).
  do 3 eexists. unfold _RE_UNORDERED, ws_star, ws_plus, dot_star.
  eapply M_Cat; [apply M_Bol|].
  eapply M_Cat; [apply M_Grp, M_Rep; [done | lia | done]|].
  eapply M_Cat; [by apply M_Grp, M_Cls|].
  eapply M_Cat; [apply (M_Rep true 1 None is_space [d]);
                 [by repeat constructor | simpl; lia | done]|].
  eapply M_Cat; [apply M_Grp, M_Rep; [done | lia | done]|].
  apply M_Eol. by left.
Qed.

Lemma ordered_intro (w digits : str) (d : ascii) (s : str) :
  Forall (fun c => is_space c = true) w ->
  digits <> [] -> Forall (fun c => is_digit c = true) digits ->
  is_space d = true ->
  Forall (fun c => is_dot c = true) s ->
  is_match _RE_ORDERED (w ++ digits ++ "."%char :: d :: s) = true.
Proof.
  intros Hw Hne Hdig Hd Hs. apply is_match_iff. rewrite <- (app_nil_r s).
  do 3 eexists. unfold _RE_ORDERED, ws_star, ws_plus, dot_star.
  eapply M_Cat; [apply M_Bol|].
  eapply M_Cat; [apply M_Grp, M_Rep; [done | lia | done]|].
  eapply M_Cat; [apply M_Grp, M_Rep; [done | destruct digits; [done | simpl; lia] | done]|].
  eapply M_Cat; [apply M_Chr|].
  eapply M_Cat; [apply (M_Rep true 1 None is_space [d]);
                 [by repeat constructor | simpl; lia | done]|].
  eapply M_Cat; [apply M_Grp, M_Rep; [done | lia | done]|].
  apply M_Eol. by left.
Qed.

Lemma ordered_lstrip_full (line : str) :
  is_match _RE_ORDERED line = true ->
  exists digits d s,
    lstrip line = digits ++ "."%char :: d :: s
    /\ digits <> [] /\ Forall (fun c => is_digit c = true) digits /\ is_space d = true.
Proof.
  intros (pos' & cs' & g' & H)%is_match_iff.
  unfold _RE_ORDERED, ws_star, ws_plus, dot_star in H. inv_matches.
  repeat match goal with
  | Hw : Forall (fun c => is_space c = true) ?w, Hl : 1 <= length ?w |- _ =>
      destruct Hw as [|d w Hd Hw]; [simpl in Hl; lia|]; clear Hl
  | Hw : Forall (fun c => is_digit c = true) ?w, Hl : 1 <= length ?w |- _ =>
      destruct Hw as [|x w Hx Hw]; [simpl in Hl; lia|]; clear Hl
  end.
  rewrite lstrip_app_space by done. simpl app.
  rewrite lstrip_cons by by apply digit_not_space.
  eexists (_ :: _), _, _. split; [reflexivity|]. split; [done|]. split; [by constructor | done].
Qed.

Lemma lstrip_decompose (line : str) :
  line = take_while is_space line ++ lstrip line.
Proof. unfold lstrip. by rewrite take_drop_while. Qed.

(** X10: on a line without line feed, each block pattern accepts exactly the
    lines of one shape: the rule pattern those whose stripped form is one
    of the three rule tokens, the heading pattern those that start with
    [#], the fence pattern the opening fences, the blockquote pattern those
    whose first character after leading whitespace is [>], the two list
    patterns those that after leading whitespace go on with a marker
    (a run of digits and a full stop, for an ordered item) and a whitespace
    character. *)
Theorem block_patterns_accept (line : str) :
  Forall (fun c => is_dot c = true) line ->
  (is_match _RE_HR line = true <-> is_rule_token (strip line))
  /\ (is_match _RE_HEADING line = true <-> head line = Some "#"%char)
  /\ (is_match _RE_FENCE_START line = true <-> opening_fence line)
  /\ (is_match _RE_BLOCKQUOTE line = true <-> head (lstrip line) = Some ">"%char)
  /\ (is_match _RE_UNORDERED line = true
      <-> exists c d s,
            lstrip line = c :: d :: s /\ is_marker c = true /\ is_space d = true)
  /\ (is_match _RE_ORDERED line = true
      <-> exists digits d s,
            lstrip line = digits ++ "."%char :: d :: s
            /\ digits <> [] /\ Forall (fun c => is_digit c = true) digits
            /\ is_space d = true).
Proof.
  intros Hdot.
  assert (Forall (fun c => is_dot c = true) (lstrip line)) as Hl
    by by apply Forall_drop_while.
  split_and!.
  - apply hr_match_iff.
  - split.
    + by intros (s & ->)%heading_shape.
    + destruct line as [|c s]; [done|]. intros [= ->].
      apply heading_intro. by apply Forall_cons in Hdot as [_ ?].
  - apply fence_start_iff.
  - split.
    + by intros (s & ->)%blockquote_lstrip.
    + intros H. rewrite (lstrip_decompose line).
      destruct (lstrip line) as [|c s]; [done|]. injection H as ->.
      apply blockquote_intro; [apply take_while_all | by apply Forall_cons in Hl as [_ ?]].
  - split.
    + apply unordered_lstrip.
    + intros (c & d & s & E & Hc & Hd). rewrite (lstrip_decompose line), E.
      rewrite E in Hl. apply Forall_cons in Hl as [_ [_ Hs]%Forall_cons].
      apply unordered_intro; auto using take_while_all.
  - split.
    + apply ordered_lstrip_full.
    + intros (digits & d & s & E & Hne & Hdig & Hd). rewrite (lstrip_decompose line), E.
      rewrite E in Hl. apply Forall_app in Hl as [_ [_ [_ Hs]%Forall_cons]%Forall_cons].
      apply ordered_intro; auto using take_while_all.
Qed.

Lemma block_patterns_accept_witness :
  is_match _RE_ORDERED "  12. twelve" = true
  <-> exists digits d s,
        lstrip "  12. twelve" = digits ++ "."%char :: d :: s
        /\ digits <> [] /\ Forall (fun c => is_digit c = true) digits
        /\ is_space d = true.
Proof.
  refine (proj2 (proj2 (proj2 (proj2 (proj2 (block_patterns_accept "  12. twelve" _)))))).
  repeat constructor.
Defined.

(** ** Paragraphs *)

Lemma starts_block_false (line : str) :
  starts_block line = false ->
  is_match _RE_HR line = false /\ re_match _RE_HEADING line = None
  /\ re_match _RE_FENCE_START line = None /\ is_match _RE_BLOCKQUOTE line = false
  /\ re_match _RE_UNORDERED line = None /\ re_match _RE_ORDERED line = None.
Proof.
  unfold starts_block. intros H.
  repeat (apply orb_false_elim in H as [H ?]).
  split_and!; try done; by apply is_match_false.
Qed.

Lemma parse_line_para (line : str) (k : mode -> option (list Block)) :
  para_line line -> parse_line line k = k (InPara [strip line]).
Proof.
  intros [Hb (E1 & E2 & E3 & E4 & E5 & E6)%starts_block_false].
  unfold parse_line. by rewrite E1, E2, E3, E4, E5, E6, Hb.
Qed.

Lemma parse_from_para_lines (lines : list str) :
  Forall para_line lines ->
  forall para_lines tail,
    parse_from (InPara para_lines) (lines ++ tail)
    = parse_from (InPara (para_lines ++ map strip lines)) tail.
Proof.
  induction 1 as [|line lines [Hb Hs] _ IH]; intros para_lines tail.
  - by rewrite app_nil_r.
  - simpl app. rewrite parse_from_para_cons, Hb, Hs. simpl.
    rewrite IH. by rewrite <- app_assoc.
Qed.

Lemma parse_from_para_lines_top (m : mode) (line : str) (lines tail : list str) :
  m = AtTop \/ m = InQuote ->
  para_line line -> Forall para_line lines ->
  parse_from m (line :: lines ++ tail)
  = parse_from (InPara (map strip (line :: lines))) tail.
Proof.
  intros Hm Hl Hls.
  assert (parse_from m (line :: lines ++ tail)
          = parse_line line (fun m' => parse_from m' (lines ++ tail))) as ->.
  { destruct Hm as [-> | ->]; [done|]. rewrite parse_from_quote_cons.
    destruct Hl as [_ (_ & _ & _ & -> & _)%starts_block_false]. done. }
  rewrite parse_line_para by done. by rewrite parse_from_para_lines.
Qed.

Lemma starts_block_char (line : str) :
  starts_block line = true ->
  exists c s, lstrip line = c :: s /\ is_block_start c = true.
Proof.
  unfold starts_block. intros H.
  repeat (apply orb_prop in H as [H | H]).
  - apply hr_lstrip in H as (c & s & H & [-> | [-> | ->]]); by eauto.
  - apply heading_lstrip in H as (s & H). by eauto.
  - apply fence_start_lstrip in H as (s & H). by eauto.
  - apply blockquote_lstrip in H as (s & H). by eauto.
  - apply unordered_lstrip in H as (c & d & s & H & Hc & _). exists c, (d :: s).
    split; [done|]. unfold is_marker in Hc. unfold is_block_start.
    repeat (apply orb_prop in Hc as [Hc | Hc]); rewrite Hc;
      by rewrite ?orb_true_r.
  - apply ordered_lstrip in H as (c & s & H & Hd). exists c, s.
    split; [done|]. unfold is_block_start. rewrite Hd. by rewrite ?orb_true_r.
Qed.

(** X11: a run of lines that are neither blank nor the start of another
    block is one paragraph, whose content is the stripped lines joined by
    single spaces; the paragraph ends with the input or before the first
    line that is blank or starts another block, from which parsing goes on;
    a document of such lines converts to one [<p>] element. *)
Theorem paragraph_lines (line : str) (lines : list str) :
  para_line line -> Forall para_line lines ->
  let content := join " " (map strip (line :: lines)) in
  parse (line :: lines) = Some [paragraph_block content]
  /\ (forall nxt rest,
        is_blank nxt || starts_block nxt = true ->
        parse (line :: lines ++ nxt :: rest)
        = cons (paragraph_block content) <$> parse (nxt :: rest))
  /\ (Forall (Forall (fun c => is_linebreak c = false)) (line :: lines) ->
      returned (convert (join [LF] (line :: lines)))
      = Some ("<p>" ++ _replace_inline content ++ "</p>")).
Proof.
  intros Hl Hls content.
  assert (parse (line :: lines) = Some [paragraph_block content]) as Hp.
  { unfold parse. rewrite <- (app_nil_r lines).
    by rewrite (parse_from_para_lines_top AtTop) by auto. }
  split_and!.
  - done.
  - intros nxt rest Hn. unfold parse.
    rewrite (parse_from_para_lines_top AtTop) by auto.
    by rewrite parse_from_para_cons, Hn.
  - intros Hbr. rewrite convert_pipeline, tokenize_join, Hp; [| done |].
    + some_html. unfold render. simpl. by rewrite app_nil_r.
    + intros (before & Hlast)%last_Some.
      assert (para_line []) as [Hb _]; [|done].
      assert (Forall para_line (line :: lines)) as Hall by by constructor.
      rewrite Hlast in Hall. by apply Forall_app in Hall as [_ [? _]%Forall_cons].
Qed.

Lemma paragraph_lines_witness :
  parse ["First line"; "  second line  "; ""; "Next"]
  = Some [paragraph_block "First line second line"; paragraph_block "Next"].
Proof.
  assert (para_line "First line") as H1 by (split; by vm_compute).
  assert (Forall para_line ["  second line  "]) as H2
    by (repeat constructor; by vm_compute).
  destruct (paragraph_lines _ _ H1 H2) as (_ & H & _).
  refine (eq_trans (H "" ["Next"] _) _); by vm_compute.
Defined.

(** X12: a line whose first character after leading whitespace is none of
    [#], the backtick, [>], [-], [*], [+], [_] and the digits is paragraph
    text. *)
Theorem paragraph_text_line (line : str) :
  match lstrip line with
  | c :: _ => is_block_start c = false
  | [] => False
  end ->
  para_line line.
Proof.
  intros H. split.
  - destruct (is_blank line) eqn:E; [|done]. apply is_blank_iff in E.
    by rewrite lstrip_all_space in H.
  - destruct (starts_block line) eqn:E; [|done].
    apply starts_block_char in E as (c & s & E & Hc). rewrite E in H. congruence.
Qed.

Lemma paragraph_text_line_witness : para_line "  Plain text, 1. not a list".
Proof. apply paragraph_text_line. by vm_compute. Defined.

(** ** Indented number signs and backticks *)

Lemma rstrip_cons_nonempty (c : ascii) (s : str) :
  is_space c = false -> rstrip (c :: s) <> [].
Proof.
  intros Hc H. destruct (rstrip_prefix (c :: s)) as (w & Hw & Hsp).
  rewrite H in Hw. simpl in Hw. subst w.
  apply Forall_cons in Hsp as [? _]. congruence.
Qed.

(** X13: the heading and fence patterns are anchored at the first column:
    a line with whitespace before its [#] or its backtick is paragraph
    text, and on its own it parses to one paragraph. *)
Theorem indented_marker_is_text (w : str) (c : ascii) (rest : str) :
  w <> [] ->
  Forall (fun x => is_space x = true) w ->
  c = "#"%char \/ c = "`"%char ->
  para_line (w ++ c :: rest)
  /\ parse [w ++ c :: rest] = Some [paragraph_block (strip (c :: rest))].
Proof.
  intros Hne Hw Hc.
  assert (is_space c = false) as Hsp by (by destruct Hc as [-> | ->]).
  assert (lstrip (w ++ c :: rest) = c :: rest) as Hl
    by by rewrite lstrip_app_space, lstrip_cons.
  assert (para_line (w ++ c :: rest)) as Hpara.
  { split.
    - unfold is_blank, strip. rewrite Hl.
      pose proof (rstrip_cons_nonempty c rest Hsp). by destruct (rstrip (c :: rest)).
    - destruct (starts_block (w ++ c :: rest)) eqn:E; [|done]. exfalso.
      unfold starts_block in E. destruct w as [|y w]; [done|].
      apply Forall_cons in Hw as [Hy _].
      repeat (apply orb_prop in E as [E | E]).
      + apply hr_lstrip in E as (x & s & E & Hx). rewrite Hl in E.
        injection E as -> _. destruct Hc as [-> | ->], Hx as [? | [? | ?]]; done.
      + apply heading_shape in E as (s & E). injection E as -> _. done.
      + apply fence_start_shape in E as (lang & s & E & _). injection E as -> _. done.
      + apply blockquote_lstrip in E as (s & E). rewrite Hl in E.
        injection E as -> _. by destruct Hc.
      + apply unordered_lstrip in E as (x & d & s & E & Hx & _). rewrite Hl in E.
        injection E as -> _. by destruct Hc as [-> | ->].
      + apply ordered_lstrip in E as (x & s & E & Hx). rewrite Hl in E.
        injection E as -> _. by destruct Hc as [-> | ->]. }
  split; [done|]. unfold parse. rewrite parse_from_top, parse_line_para by done.
  cbn [parse_from join]. by rewrite <- (strip_lstrip (w ++ c :: rest)), Hl.
Qed.

Lemma indented_marker_is_text_witness :
  parse ["  # Not a heading"] = Some [paragraph_block "# Not a heading"].
Proof.
  apply (indented_marker_is_text "  " "#" " Not a heading"); [done | | by left].
  repeat constructor.
Defined.

(** ** Block boundaries *)

Lemma in_fence_after_step (m m' : mode) (line : str) (rest : list str) :
  in_fence m'
  = (if in_fence m then negb (is_match _RE_FENCE_END line)
     else is_match _RE_FENCE_START line) ->
  in_fence_after (in_fence m) (line :: rest) = in_fence_after (in_fence m') rest.
Proof. intros H. simpl. by rewrite H. Qed.

Lemma parse_from_boundary (ts1 : list str) (m : mode) (nxt : str) (ts2 : list str) :
  in_fence_after (in_fence m) ts1 = false ->
  is_blank nxt || starts_block nxt = true ->
  parse_from m (ts1 ++ nxt :: ts2)
  = blocks1 ← parse_from m ts1;
    blocks2 ← parse_from AtTop (nxt :: ts2);
    Some (blocks1 ++ blocks2).
Proof.
  intros Hf Hn. revert m Hf. induction ts1 as [|line rest IH]; intros m Hf.
  - destruct m as [|language code_lines| |para_lines]; try done.
    + simpl app. by destruct (parse_from AtTop (nxt :: ts2)).
    + simpl app. rewrite parse_from_quote. by destruct (parse_from AtTop (nxt :: ts2)).
    + simpl app. rewrite parse_from_para_cons, Hn.
      change (parse_line nxt (fun m' => parse_from m' ts2))
        with (parse_from AtTop (nxt :: ts2)).
      by destruct (parse_from AtTop (nxt :: ts2)).
  - destruct (parse_from_step m line) as [(bs & m' & Hstep & Hm') | (Hnone & _)].
    2:{ by rewrite <- app_comm_cons, !Hnone. }
    rewrite (in_fence_after_step m m') in Hf by done.
    rewrite <- app_comm_cons, !Hstep, (IH m' Hf).
    destruct (parse_from m' rest) as [blocks1|]; [|done].
    destruct (parse_from AtTop (nxt :: ts2)) as [blocks2|]; [|done].
    simpl. by rewrite app_assoc.
Qed.

(** X14: outside a code fence, a line that is blank or that starts a block
    is a boundary: the lines parse to the blocks of the lines before it
    followed by the blocks of the lines from it on; a blank boundary line
    adds nothing. *)
Theorem parse_boundary (ts1 : list str) (nxt : str) (ts2 : list str) :
  in_fence_after false ts1 = false ->
  is_blank nxt || starts_block nxt = true ->
  parse (ts1 ++ nxt :: ts2)
  = (blocks1 ← parse ts1; blocks2 ← parse (nxt :: ts2); Some (blocks1 ++ blocks2))
  /\ (is_blank nxt = true ->
      parse (ts1 ++ nxt :: ts2)
      = (blocks1 ← parse ts1; blocks2 ← parse ts2; Some (blocks1 ++ blocks2))).
Proof.
  intros Hf Hn.
  assert (parse (ts1 ++ nxt :: ts2)
          = (blocks1 ← parse ts1; blocks2 ← parse (nxt :: ts2);
             Some (blocks1 ++ blocks2))) as H
    by by apply (parse_from_boundary ts1 AtTop).
  split; [done|]. intros Hb%is_blank_iff. rewrite H.
  unfold parse. by rewrite (parse_from_top nxt), parse_line_blank.
Qed.

Lemma parse_boundary_witness :
  parse (["```"; "# code"; "```"; "text"] ++ "# Title" :: ["more"])
  = (blocks1 ← parse ["```"; "# code"; "```"; "text"];
     blocks2 ← parse ("# Title" :: ["more"]);
     Some (blocks1 ++ blocks2)).
Proof.
  apply (parse_boundary ["```"; "# code"; "```"; "text"] "# Title" ["more"]);
    by vm_compute.
Defined.

Lemma tokenize_sep (sep s : str) :
  line_end sep ->
  (sep = [CR] -> match s with c :: _ => c <> LF | [] => True end) ->
  tokenize (sep ++ s) = [] :: tokenize s.
Proof.
  intros Hsep Hs. apply (splitlines_from_sep sep [] [] s); [done | constructor | done].
Qed.

(** X15: two texts separated by an empty line convert to the concatenation
    of their conversions, provided the first ends neither inside a code
    fence nor in a line boundary. *)
Theorem convert_blank_line_split (sep md1 md2 : str) :
  line_end sep ->
  (sep = [CR] -> match md2 with c :: _ => c <> LF | [] => True end) ->
  ends_in_text md1 ->
  in_fence_after false (tokenize md1) = false ->
  returned (convert (md1 ++ sep ++ sep ++ md2))
  = (html1 ← returned (convert md1);
     html2 ← returned (convert md2);
     Some (html1 ++ html2)).
Proof.
  intros Hsep Hmd2 Hend Hf. rewrite !convert_pipeline.
  assert (tokenize (md1 ++ sep ++ sep ++ md2) = tokenize md1 ++ [] :: tokenize md2) as ->.
  { rewrite <- (tokenize_sep sep md2) by done.
    apply splitlines_from_app; [done | | done].
    intros ->. simpl. by vm_compute. }
  pose proof (parse_from_boundary (tokenize md1) AtTop [] (tokenize md2) Hf eq_refl) as H.
  rewrite (parse_from_top []), parse_line_blank in H by constructor.
  unfold parse. apply (f_equal (fmap (fun bs => render (map process_block bs)))) in H.
  etrans; [exact H|].
  destruct (parse_from AtTop (tokenize md1)) as [blocks1|]; [|done].
  destruct (parse_from AtTop (tokenize md2)) as [blocks2|]; [|done].
  simpl. f_equal. apply render_app.
Qed.

Lemma convert_blank_line_split_witness :
  returned (convert ("# Title" ++ [LF] ++ [LF] ++ "Some *text*"))
  = (html1 ← returned (convert "# Title");
     html2 ← returned (convert "Some *text*");
     Some (html1 ++ html2)).
Proof.
  apply (convert_blank_line_split [LF] "# Title" "Some *text*").
  - right. by exists LF.
  - discriminate.
  - by exists "e"%char.
  - by vm_compute.
Defined.

(** ** Lists of both kinds *)









(** ** Ordered lists: numbers that [int] takes *)










(** ** Headings with more than six number signs *)

Lemma rep_greedy_full (p : ascii -> bool) (k : nat -> str -> option rmatch)
    (w cs : str) :
  Forall (fun c => p c = true) w ->
  forall lo pos,
    lo <= length w ->
    is_Some (k (pos + length w) cs) ->
    rep true p lo (Some (length w)) k pos (w ++ cs) = k (pos + length w) cs.
Proof.
  induction 1 as [|c w Hc Hw IH]; intros lo pos Hlo Hk.
  - simpl in *. rewrite Nat.add_0_r in *. destruct lo; [|lia].
    destruct cs as [|c cs]; simpl; [done|]. by rewrite andb_false_r.
  - simpl app. simpl rep. rewrite Hc. simpl andb. cbv iota.
    simpl length in *. rewrite Nat.add_succ_r in *.
    assert (rep true p (Nat.pred lo) (Some (length w)) k (S pos) (w ++ cs)
            = k (S (pos + length w)) cs) as ->.
    { apply IH; [lia | done]. }
    by destruct Hk as [m ->].
Qed.

Lemma heading_eval_six (rest : str) :
  Forall (fun c => is_dot c = true) (lstrip rest) ->
  re_match _RE_HEADING (repeat "#"%char 6 ++ rest)
  = Some (Match (6 + length rest) [] [(2, lstrip rest); (1, repeat "#"%char 6)]).
Proof.
  intros Hdot. unfold re_match, _RE_HEADING. cbn [run Nat.eqb].
  assert (Hk : forall g, run ws_star (run (Grp 2 dot_star) (run Eol accept))
             (0 + length (repeat "#"%char 6)) rest g
           = Some (Match (6 + length rest) [] ((2, lstrip rest) :: g))).
  { intros g. apply (run_ws_dot_star_eol 0 2 6 rest g); [lia | done]. }
  rewrite (rep_greedy_full (is_chr "#") _ (repeat "#"%char 6) rest).
  - by rewrite Hk.
  - apply repeat_all.
  - simpl. lia.
  - by rewrite Hk.
Qed.

(** X17: a line that starts with [k >= 1] characters [#] is a heading of
    level [min k 6]; the number signs after the sixth belong to the heading
    text.  The tag written for it is one of [h1] to [h6]. *)
Theorem heading_level_capped (k : nat) (rest : str) (tokens : list str) :
  1 <= k ->
  match rest with c :: _ => c <> "#"%char | [] => True end ->
  Forall (fun c => is_dot c = true) rest ->
  let level := Nat.min k 6 in
  let content := strip (repeat "#"%char (k - 6) ++ rest) in
  parse ((repeat "#"%char k ++ rest) :: tokens)
  = cons (heading_block (Z.of_nat level) content) <$> parse tokens
  /\ render (map process_block [heading_block (Z.of_nat level) content])
     = "<h" ++ [digit_chr level] ++ ">" ++ _replace_inline content
       ++ "</h" ++ [digit_chr level] ++ ">".
Proof.
  intros Hk Hrest Hdot level content. split.
  - destruct (decide (k <= 6)) as [Hle | Hgt].
    + subst level content. replace (k - 6) with 0 by lia.
      replace (Nat.min k 6) with k by lia. simpl app.
      apply heading_line_parse; [lia | done | by apply Forall_drop_while].
    + subst level content. replace (Nat.min k 6) with 6 by lia.
      replace k with (6 + (k - 6)) at 1 by lia.
      rewrite repeat_app, <- app_assoc. unfold parse. rewrite parse_from_top.
      assert (Forall (fun c => is_dot c = true)
                (lstrip (repeat "#"%char (k - 6) ++ rest))) as Hd.
      { apply Forall_drop_while, Forall_app. split; [|done].
        eapply Forall_impl; [apply repeat_all|].
        intros c <-%chr_eqb_eq. by vm_compute. }
      rewrite (parse_line_heading _ _ _ (heading_eval_six _ Hd)).
      unfold group, len. simpl. by rewrite strip_lstrip.
  - change (map process_block [?b]) with (process_block b :: map process_block []).
    change (render (?b :: ?bs)) with (render_block b ++ render bs).
    rewrite render_heading, str_of_int_digit by (subst level; lia).
    unfold render. simpl. by rewrite ?app_nil_r, <- ?app_assoc.
Qed.

Lemma heading_level_capped_witness :
  parse ["####### seven"] = Some [heading_block 6 "# seven"].
Proof.
  refine (proj1 (heading_level_capped 7 " seven" [] _ _ _)); [lia | by vm_compute |].
  repeat constructor.
Defined.

(** ** Escaping *)

Lemma replace_chr_app (c : ascii) (by_ a b : str) :
  replace_chr c by_ (a ++ b) = replace_chr c by_ a ++ replace_chr c by_ b.
Proof. unfold replace_chr. apply flat_map_app. Qed.

Lemma escape_app (a b : str) : _escape (a ++ b) = _escape a ++ _escape b.
Proof. unfold _escape. by rewrite !replace_chr_app. Qed.

Lemma escape_one (c : ascii) : _escape [c] = escape_chr c.
Proof. all_chars c. Qed.

Lemma escape_flat_map (text : str) : _escape text = flat_map escape_chr text.
Proof.
  induction text as [|c text IH]; [done|].
  change (c :: text) with ([c] ++ text). rewrite escape_app, escape_one, IH. done.
Qed.

Lemma escape_chr_cases (c : ascii) :
  (is_special c = false /\ escape_chr c = [c])
  \/ (c = "&"%char /\ escape_chr c = "&amp;")
  \/ (c = "<"%char /\ escape_chr c = "&lt;")
  \/ (c = ">"%char /\ escape_chr c = "&gt;")
  \/ (c = dquote /\ escape_chr c = "&quot;")
  \/ (c = "'"%char /\ escape_chr c = "&#x27;").
Proof.
  unfold escape_chr, is_special.
  destruct (chr_eqb c "&") eqn:E1; [apply chr_eqb_eq in E1; auto|].
  destruct (chr_eqb c "<") eqn:E2; [apply chr_eqb_eq in E2; auto 10|].
  destruct (chr_eqb c ">") eqn:E3; [apply chr_eqb_eq in E3; auto 10|].
  destruct (chr_eqb c dquote) eqn:E4; [apply chr_eqb_eq in E4; auto 10|].
  destruct (chr_eqb c "'") eqn:E5; [apply chr_eqb_eq in E5; auto 10|].
  by left.
Qed.

Lemma escape_chr_prefix (x y : ascii) (a b : str) :
  escape_chr x ++ a = escape_chr y ++ b -> x = y /\ a = b.
Proof.
  destruct (escape_chr_cases x) as [[Hx ->] | Hx], (escape_chr_cases y) as [[Hy ->] | Hy].
  - intros [= -> ->]. done.
  - destruct Hy as [[-> ->] | [[-> ->] | [[-> ->] | [[-> ->] | [-> ->]]]]];
      intros [= -> _]; by vm_compute in Hx.
  - destruct Hx as [[-> ->] | [[-> ->] | [[-> ->] | [[-> ->] | [-> ->]]]]];
      intros [= <- _]; by vm_compute in Hy.
  - destruct Hx as [[-> ->] | [[-> ->] | [[-> ->] | [[-> ->] | [-> ->]]]]];
      destruct Hy as [[-> ->] | [[-> ->] | [[-> ->] | [[-> ->] | [-> ->]]]]];
      intros H; by simplify_eq.
Qed.

Lemma escape_chr_length (c : ascii) : 1 <= length (escape_chr c).
Proof.
  destruct (escape_chr_cases c)
    as [[_ ->] | [[_ ->] | [[_ ->] | [[_ ->] | [[_ ->] | [_ ->]]]]]]; simpl; lia.
Qed.

Lemma escape_length (text : str) : length text <= length (flat_map escape_chr text).
Proof.
  induction text as [|c text IH]; [done|]. simpl. rewrite length_app.
  pose proof (escape_chr_length c). lia.
Qed.

(** X18: [_escape] works character by character: each of the five special
    characters becomes its entity and every other character is kept (the
    ampersand of an entity is not escaped again); escaping distributes
    over concatenation and never shortens a text. *)
Theorem escape_chars (text : str) :
  _escape text = flat_map escape_chr text
  /\ (forall a b, _escape (a ++ b) = _escape a ++ _escape b)
  /\ length text <= length (_escape text).
Proof.
  split_and!.
  - apply escape_flat_map.
  - apply escape_app.
  - rewrite escape_flat_map. apply escape_length.
Qed.

(** X19: [_escape] loses nothing: two texts have the same escaped form
    exactly when they are equal. *)
Theorem escape_injective (a b : str) : _escape a = _escape b <-> a = b.
Proof.
  split; [|by intros ->].
  rewrite !escape_flat_map. revert b. induction a as [|x a IH]; intros [|y b] H.
  - done.
  - simpl in H. destruct (escape_chr_cases y) as [[_ E] | [[_ E] | [[_ E] | [[_ E] | [[_ E] | [_ E]]]]]];
      by rewrite E in H.
  - simpl in H. destruct (escape_chr_cases x) as [[_ E] | [[_ E] | [[_ E] | [[_ E] | [[_ E] | [_ E]]]]]];
      by rewrite E in H.
  - simpl in H. apply escape_chr_prefix in H as [-> H]. f_equal. by apply IH.
Qed.

(** X20: an escaped text holds no [<], no [>] and no quote of either
    kind, and [_escape] leaves a text as it is exactly when the text holds
    none of the five special characters. *)
Theorem escape_markup_free (text : str) :
  Forall (fun c => c <> "<"%char /\ c <> ">"%char /\ c <> dquote /\ c <> "'"%char)
    (_escape text)
  /\ (_escape text = text <-> Forall (fun c => is_special c = false) text).
Proof.
  rewrite escape_flat_map. split.
  - induction text as [|c text IH]; [constructor|].
    simpl. apply Forall_app. split; [|done].
    destruct (escape_chr_cases c) as [[Hc ->] | [[_ ->] | [[_ ->] | [[_ ->] | [[_ ->] | [_ ->]]]]]];
      repeat constructor; try done.
    all: intros ->; by vm_compute in Hc.
  - split.
    + induction text as [|c text IH]; [constructor|]. simpl. intros H.
      destruct (escape_chr_cases c) as [[Hc E] | Hc].
      * rewrite E in H. injection H as H. constructor; [done | by apply IH].
      * exfalso. apply (f_equal length) in H. rewrite length_app in H. simpl in H.
        pose proof (escape_length text) as Hl.
        destruct Hc as [[_ E] | [[_ E] | [[_ E] | [[_ E] | [_ E]]]]];
          rewrite E in H; simpl in H; lia.
    + induction 1 as [|c text Hc _ IH]; [done|]. simpl.
      destruct (escape_chr_cases c) as [[_ ->] | Hs].
      * simpl. by rewrite IH.
      * destruct Hs as [[-> _] | [[-> _] | [[-> _] | [[-> _] | [-> _]]]]];
          by vm_compute in Hc.
Qed.

(** ** A dictionary listed more than once *)

Lemma set_content_twice (a b : str) (block : Block) :
  set_content a (set_content b block) = set_content a block.
Proof. done. Qed.

Lemma process_ref_lookup (h : gmap nat Block) (r : nat) (b : Block) :
  h !! r = Some b -> process_ref h r !! r = Some (process_block b).
Proof. intros H. unfold process_ref. rewrite H. apply lookup_insert_eq. Qed.

Lemma process_ref_lookup_ne (h : gmap nat Block) (r r' : nat) :
  r' <> r -> process_ref h r' !! r = h !! r.
Proof.
  intros H. unfold process_ref. destruct (h !! r'); [|done].
  by apply lookup_insert_ne.
Qed.

(** X21: the update of [process_inline] is in place, so a dictionary that
    the list holds [k] times, wherever in the list and whatever the other
    dictionaries of the list, has its content rewritten [k] times.  The
    rewriting is not idempotent: the example after the theorem is a content
    that the second application changes again. *)
Theorem process_inline_repeated (blocks : list nat) (r : nat) (h : gmap nat Block)
    (b : Block) (text : str) :
  h !! r = Some b ->
  b_content b = Some text ->
  (process_inline blocks h).1 !! r
  = Some (set_content
            (Nat.iter (count_occ Nat.eq_dec blocks r) _replace_inline text) b).
Proof.
  unfold process_inline. simpl. revert h b text.
  induction blocks as [|r' blocks IH]; intros h b text Hr Hc.
  - simpl. rewrite Hr. f_equal. destruct b. simpl in *. by subst.
  - simpl foldl. destruct (Nat.eq_dec r' r) as [-> | Hne].
    + rewrite count_occ_cons_eq by done.
      rewrite (IH _ (process_block b) (_replace_inline text)).
      * rewrite Nat.iter_succ_r. unfold process_block. rewrite Hc.
        by rewrite set_content_twice.
      * by apply process_ref_lookup.
      * unfold process_block. by rewrite Hc.
    + rewrite count_occ_cons_neq by done.
      apply IH; [|done]. by rewrite process_ref_lookup_ne.
Qed.

Lemma process_inline_repeated_witness :
  (process_inline [0; 1; 0]
     (map_seq 0 [paragraph_block "_a*_b*"; paragraph_block "*c*"])).1 !! 0
  = Some (paragraph_block "<em>a<em></em>b</em>").
Proof.
  exact (process_inline_repeated [0; 1; 0] 0
           (map_seq 0 [paragraph_block "_a*_b*"; paragraph_block "*c*"])
           (paragraph_block "_a*_b*") "_a*_b*" eq_refl eq_refl).
Defined.

(** ** Substitution, piece by piece *)

Lemma orelse_fmap {A B} (f : A -> B) (a b : option A) :
  f <$> orelse a b = orelse (f <$> a) (f <$> b).
Proof. by destruct a. Qed.

Lemma rep_shift (greedy : bool) (p : ascii -> bool) (d : nat)
    (k k' : nat -> str -> option rmatch) :
  (forall pos cs, k' (pos + d) cs = shift d <$> k pos cs) ->
  forall cs lo hi pos,
    rep greedy p lo hi k' (pos + d) cs = shift d <$> rep greedy p lo hi k pos cs.
Proof.
  intros Hk. induction cs as [|c cs IH]; intros lo hi pos.
  - simpl. destruct lo; destruct greedy; simpl; rewrite ?Hk, ?orelse_fmap; done.
  - simpl. destruct (p c && may_repeat hi).
    + rewrite <- Nat.add_succ_l, IH.
      destruct lo; destruct greedy; simpl; rewrite ?Hk, ?orelse_fmap; done.
    + destruct lo; destruct greedy; simpl; rewrite ?Hk, ?orelse_fmap; done.
Qed.

Lemma run_shift (r : regex) (d : nat) :
  bol_free r = true ->
  forall k k' pos cs g,
    (forall pos cs g, k' (pos + d) cs g = shift d <$> k pos cs g) ->
    run r k' (pos + d) cs g = shift d <$> run r k pos cs g.
Proof.
  induction r as [|c|p|greedy lo hi p|r1 IH1 r2 IH2|r1 IH1 r2 IH2|n r IH|n| |];
    intros Hr k k' pos cs g Hk; simpl in *.
  - apply Hk.
  - destruct cs as [|c' cs]; [done|]. destruct (chr_eqb c c'); [|done].
    by rewrite <- Nat.add_succ_l.
  - destruct cs as [|c' cs]; [done|]. destruct (p c'); [|done].
    by rewrite <- Nat.add_succ_l.
  - apply rep_shift. intros pos' cs'. apply Hk.
  - apply andb_prop in Hr as [Hr1 Hr2]. apply IH1; [done|].
    intros pos' cs' g'. by apply IH2.
  - apply andb_prop in Hr as [Hr1 Hr2].
    by rewrite orelse_fmap, (IH1 Hr1 k k'), (IH2 Hr2 k k').
  - apply IH; [done|]. intros pos' cs' g'.
    replace (pos' + d - (pos + d)) with (pos' - pos) by lia. apply Hk.
  - destruct (lookup_group n g) as [t|]; [|done].
    destruct (starts_with t cs); [|done].
    replace (pos + d + length t) with (pos + length t + d) by lia. apply Hk.
  - done.
  - destruct cs as [|c [|c' cs]]; [apply Hk | | done].
    destruct (chr_eqb c LF); [apply Hk | done].
Qed.

Lemma run_accept_shift (r : regex) (pos : nat) (cs : str) :
  bol_free r = true ->
  run r accept pos cs [] = shift pos <$> run r accept 0 cs [].
Proof. intros Hr. by apply (run_shift r pos Hr accept accept 0). Qed.

Lemma sub_from_pos (r : regex) (tpl : list tpl_item) (s : str) :
  bol_free r = true ->
  forall pos skip, sub_from r tpl pos skip s = sub_from r tpl 0 skip s.
Proof.
  intros Hr. induction s as [|c s IH]; intros pos skip.
  - destruct skip as [|n]; [|done]. simpl. rewrite (run_accept_shift r pos) by done.
    destruct (run r accept 0 [] []) as [m|]; simpl; [|done].
    replace (m_end m + pos - pos) with (m_end m - 0) by lia.
    by destruct (m_end m - 0).
  - destruct skip as [|n]; simpl.
    + rewrite (run_accept_shift r pos) by done.
      destruct (run r accept 0 (c :: s) []) as [m|]; simpl.
      * replace (m_end m + pos - pos) with (m_end m - 0) by lia.
        destruct (m_end m - 0); by rewrite (IH (S pos)), (IH 1).
      * by rewrite (IH (S pos)), (IH 1).
    + by rewrite (IH (S pos)), (IH 1).
Qed.

Lemma sub_from_skip (r : regex) (tpl : list tpl_item) (w s : str) :
  bol_free r = true ->
  sub_from r tpl 0 (length w) (w ++ s) = sub_from r tpl 0 0 s.
Proof.
  intros Hr. induction w as [|c w IH]; [done|].
  simpl. by rewrite sub_from_pos.
Qed.

(** A piece of the subject in which no match starts is copied. *)
Lemma re_sub_copy (r : regex) (tpl : list tpl_item) (w s : str) :
  bol_free r = true ->
  no_start r w s ->
  re_sub r tpl (w ++ s) = w ++ re_sub r tpl s.
Proof.
  intros Hr. unfold re_sub. induction w as [|c w IH]; intros Hw; [done|].
  pose proof (Hw [] (c :: w) eq_refl ltac:(done)) as H0. simpl in H0.
  simpl. rewrite H0, sub_from_pos by done. f_equal. apply IH.
  intros a b -> Hb. by apply (Hw (c :: a) b).
Qed.

(** A match at the head of the subject is replaced, and the substitution
    goes on after it. *)
Lemma re_sub_match (r : regex) (tpl : list tpl_item) (w s : str) (m : rmatch) :
  bol_free r = true ->
  run r accept 0 (w ++ s) [] = Some m ->
  m_end m = length w -> w <> [] ->
  re_sub r tpl (w ++ s) = expand tpl m ++ re_sub r tpl s.
Proof.
  intros Hr Hm Hend Hw. unfold re_sub. destruct w as [|c w]; [done|].
  simpl. simpl in Hm. rewrite Hm, Hend. simpl. f_equal.
  rewrite sub_from_pos by done. by apply sub_from_skip.
Qed.

Lemma no_start_app (r : regex) (w1 w2 s : str) :
  no_start r w1 (w2 ++ s) -> no_start r w2 s -> no_start r (w1 ++ w2) s.
Proof.
  intros H1 H2 a b Hab Hb.
  apply app_eq_inv in Hab as [(k & Hw1 & Hk) | (k & Ha & Hw2)].
  - subst w1 b. destruct k as [|c k].
    + rewrite app_nil_l in *. by apply (H2 [] w2).
    + rewrite <- app_assoc. by apply (H1 a (c :: k)).
  - subst a w2. by apply (H2 k b).
Qed.

Lemma no_start_nil (r : regex) (s : str) : no_start r [] s.
Proof. intros a b Hab Hb. by destruct a, b. Qed.

Lemma no_start_one (r : regex) (c : ascii) (s : str) :
  run r accept 0 (c :: s) [] = None -> no_start r [c] s.
Proof.
  intros H a b Hab Hb. destruct a as [|x a].
  - simpl in Hab. by subst.
  - destruct a, b; simplify_eq.
Qed.

Lemma no_start_first (r : regex) (P : ascii -> bool) (w s : str) :
  (forall cs m, run r accept 0 cs [] = Some m ->
                exists c rest, cs = c :: rest /\ P c = true) ->
  Forall (fun c => P c = false) w ->
  no_start r w s.
Proof.
  intros Hr Hw a b -> Hb. apply Forall_app in Hw as [_ Hw].
  destruct (run r accept 0 (b ++ s) []) as [m|] eqn:E; [|done].
  apply Hr in E as (c & rest & E & Hc). destruct b as [|x b]; [done|].
  simpl in E. injection E as -> _. apply Forall_cons in Hw as [Hw _]. congruence.
Qed.

(** ** Where an inline pattern can start *)

Lemma image_start (cs : str) (m : rmatch) :
  run _RE_IMAGE accept 0 cs [] = Some m -> exists rest, cs = "!"%char :: "["%char :: rest.
Proof.
  intros (pos' & cs' & g' & H & _)%run_sound.
  unfold _RE_IMAGE in H. inv_matches. by eexists.
Qed.

Lemma link_start (cs : str) (m : rmatch) :
  run _RE_LINK accept 0 cs [] = Some m ->
  exists c rest, cs = c :: rest /\ chr_eqb c "[" = true.
Proof.
  intros (pos' & cs' & g' & H & _)%run_sound.
  unfold _RE_LINK in H. inv_matches. by eexists _, _.
Qed.

Lemma code_start (cs : str) (m : rmatch) :
  run _RE_CODE accept 0 cs [] = Some m ->
  exists c rest, cs = c :: rest /\ chr_eqb c "`" = true.
Proof.
  intros (pos' & cs' & g' & H & _)%run_sound.
  unfold _RE_CODE in H. inv_matches. by eexists _, _.
Qed.

Lemma bold_start (cs : str) (m : rmatch) :
  run _RE_BOLD accept 0 cs [] = Some m ->
  exists c rest, cs = c :: c :: rest /\ is_emphasis c = true.
Proof.
  intros (pos' & cs' & g' & H & _)%run_sound.
  unfold _RE_BOLD, dot_plus_lazy in H. cbn [Lit] in H. inv_matches; by eexists _, _.
Qed.

Lemma italic_start (cs : str) (m : rmatch) :
  run _RE_ITALIC accept 0 cs [] = Some m ->
  exists c rest, cs = c :: rest /\ is_emphasis c = true.
Proof.
  intros (pos' & cs' & g' & H & _)%run_sound.
  unfold _RE_ITALIC, dot_plus_lazy in H. inv_matches; by eexists _, _.
Qed.

Lemma bold_start_first (cs : str) (m : rmatch) :
  run _RE_BOLD accept 0 cs [] = Some m ->
  exists c rest, cs = c :: rest /\ is_emphasis c = true.
Proof. intros (c & rest & -> & Hc)%bold_start. by eexists _, _. Qed.

(** ** Lazy repetition *)

Lemma rep_lazy_first (p : ascii -> bool) (k : nat -> str -> option rmatch)
    (w cs : str) :
  Forall (fun c => p c = true) w ->
  forall lo pos,
    lo <= length w ->
    (forall a b, w = a ++ b -> b <> [] -> lo <= length a ->
                 k (pos + length a) (b ++ cs) = None) ->
    is_Some (k (pos + length w) cs) ->
    rep false p lo None k pos (w ++ cs) = k (pos + length w) cs.
Proof.
  induction 1 as [|c w Hc Hw IH]; intros lo pos Hlo Hnone Hk.
  - simpl in Hlo, Hk. rewrite Nat.add_0_r in *. destruct lo; [|lia].
    destruct Hk as [m Hk]. destruct cs; simpl; by rewrite Hk.
  - simpl app. simpl rep. rewrite Hc. simpl.
    assert (match lo with 0 => k pos (c :: w ++ cs) | S _ => None end = None) as ->.
    { destruct lo; [|done]. specialize (Hnone [] (c :: w) eq_refl).
      simpl in Hnone. rewrite Nat.add_0_r in Hnone. apply Hnone; [done | lia]. }
    simpl. simpl length in *. rewrite Nat.add_succ_r in *.
    apply (IH (Nat.pred lo) (S pos)); [lia | | done].
    intros a b -> Hb Ha. specialize (Hnone (c :: a) b eq_refl Hb).
    simpl in Hnone. rewrite Nat.add_succ_r in Hnone. apply Hnone. lia.
Qed.

Lemma run_grp_lazy (n lo : nat) (p : ascii -> bool)
    (k : nat -> str -> list (nat * str) -> option rmatch)
    (pos : nat) (w cs : str) (g : list (nat * str)) :
  Forall (fun c => p c = true) w ->
  lo <= length w ->
  (forall a b, w = a ++ b -> b <> [] -> lo <= length a ->
               k (pos + length a) (b ++ cs) ((n, a) :: g) = None) ->
  is_Some (k (pos + length w) cs ((n, w) :: g)) ->
  run (Grp n (Rep false lo None p)) k pos (w ++ cs) g
  = k (pos + length w) cs ((n, w) :: g).
Proof.
  intros Hw Hlo Hnone Hk. rewrite run_Grp, run_Rep.
  rewrite rep_lazy_first; [| done | done | |].
  - by rewrite take_sub_prefix.
  - intros a b -> Hb Ha. rewrite <- app_assoc, take_sub_prefix.
    by apply Hnone.
  - by rewrite take_sub_prefix.
Qed.

Lemma run_Chr_neq k pos c c' cs g :
  chr_eqb c c' = false -> run (Chr c) k pos (c' :: cs) g = None.
Proof. intros H. simpl. by rewrite H. Qed.

Lemma code_eval (t post : str) :
  t <> [] ->
  Forall (fun c => not_chr "`" c = true) t ->
  run _RE_CODE accept 0 ("`" ++ t ++ "`" ++ post) []
  = Some (Match (length ("`" ++ t ++ "`")) post [(1, t)]).
Proof.
  intros Hne Ht. unfold _RE_CODE.
  change ("`" ++ t ++ "`" ++ post) with ("`"%char :: t ++ "`"%char :: post).
  rewrite run_Cat, run_Chr, run_Cat, run_grp_lazy; try done.
  - rewrite run_Chr. unfold accept. do 2 f_equal. rewrite !length_app. simpl. lia.
  - destruct t; [done | simpl; lia].
  - intros a b -> Hb _. destruct b as [|x b]; [done|].
    apply Forall_app in Ht as [_ [Hx _]%Forall_cons].
    apply run_Chr_neq. unfold not_chr in Hx. by destruct (chr_eqb "`" x).
Qed.

Lemma not_chr_neq (a x : ascii) : not_chr a x = true -> chr_eqb a x = false.
Proof. unfold not_chr. by destruct (chr_eqb a x). Qed.

Lemma link_tail_eval (u post : str) (pos : nat) (g : list (nat * str)) :
  u <> [] ->
  Forall (fun c => not_chr ")" c = true) u ->
  run (Chr "]" ⋅ Chr "(" ⋅ Grp 2 (Rep false 1 None (not_chr ")")) ⋅ Chr ")") accept pos
    ("]"%char :: "("%char :: u ++ ")"%char :: post) g
  = Some (Match (pos + 3 + length u) post ((2, u) :: g)).
Proof.
  intros Hne Hu. rewrite run_Cat, run_Chr, run_Cat, run_Chr, run_Cat.
  rewrite run_grp_lazy; try done.
  - rewrite run_Chr. unfold accept. do 2 f_equal. lia.
  - destruct u; [done | simpl; lia].
  - intros a b -> Hb _. destruct b as [|x b]; [done|].
    apply Forall_app in Hu as [_ [Hx _]%Forall_cons].
    by apply run_Chr_neq, not_chr_neq.
Qed.

Lemma link_eval (t u post : str) :
  t <> [] -> Forall (fun c => not_chr "]" c = true) t ->
  u <> [] -> Forall (fun c => not_chr ")" c = true) u ->
  run _RE_LINK accept 0 ("[" ++ t ++ "](" ++ u ++ ")" ++ post) []
  = Some (Match (length ("[" ++ t ++ "](" ++ u ++ ")")) post [(2, u); (1, t)]).
Proof.
  intros Hne Ht Hue Hu. unfold _RE_LINK.
  change ("[" ++ t ++ "](" ++ u ++ ")" ++ post)
    with ("["%char :: t ++ "]"%char :: "("%char :: u ++ ")"%char :: post).
  rewrite run_Cat, run_Chr, run_Cat, run_grp_lazy; try done.
  - rewrite link_tail_eval by done. do 2 f_equal.
    simpl. rewrite !length_app. simpl. rewrite length_app. simpl. lia.
  - destruct t; [done | simpl; lia].
  - intros a b -> Hb _. destruct b as [|x b]; [done|].
    apply Forall_app in Ht as [_ [Hx _]%Forall_cons].
    rewrite run_Cat. by apply run_Chr_neq, not_chr_neq.
  - by rewrite link_tail_eval.
Qed.

Lemma image_eval (alt src post : str) :
  Forall (fun c => not_chr "]" c = true) alt ->
  src <> [] -> Forall (fun c => not_chr ")" c = true) src ->
  run _RE_IMAGE accept 0 ("![" ++ alt ++ "](" ++ src ++ ")" ++ post) []
  = Some (Match (length ("![" ++ alt ++ "](" ++ src ++ ")")) post [(2, src); (1, alt)]).
Proof.
  intros Ha Hne Hs. unfold _RE_IMAGE.
  change ("![" ++ alt ++ "](" ++ src ++ ")" ++ post)
    with ("!"%char :: "["%char :: alt ++ "]"%char :: "("%char :: src ++ ")"%char :: post).
  rewrite run_Cat, run_Chr, run_Cat, run_Chr, run_Cat, run_grp_lazy; try done.
  - rewrite link_tail_eval by done. do 2 f_equal.
    simpl. rewrite !length_app. simpl. rewrite length_app. simpl. lia.
  - lia.
  - intros a b -> Hb _. destruct b as [|x b]; [done|].
    apply Forall_app in Ha as [_ [Hx _]%Forall_cons].
    rewrite run_Cat. by apply run_Chr_neq, not_chr_neq.
  - by rewrite link_tail_eval.
Qed.

Lemma run_Ref (n : nat) k pos cs g (t : str) :
  lookup_group n g = Some t ->
  run (Ref n) k pos cs g
  = if starts_with t cs then k (pos + length t) (drop (length t) cs) g else None.
Proof. intros H. simpl. by rewrite H. Qed.

Lemma emphasis_tail_eval (d t post : str) (e : ascii) (d' : str) (pos : nat) :
  d = e :: d' ->
  t <> [] ->
  Forall (fun c => is_dot c = true) t ->
  Forall (fun c => c <> e) t ->
  run (Grp 2 dot_plus_lazy ⋅ Ref 1) accept pos (t ++ d ++ post) [(1, d)]
  = Some (Match (pos + length t + length d) post [(2, t); (1, d)]).
Proof.
  intros Hd Hne Hdot Ht. unfold dot_plus_lazy. rewrite run_Cat, run_grp_lazy; try done.
  - rewrite (run_Ref 1 _ _ _ _ d) by done. rewrite starts_with_app.
    by rewrite drop_app_length.
  - destruct t; [done | simpl; lia].
  - intros a b -> Hb _. destruct b as [|x b]; [done|].
    apply Forall_app in Ht as [_ [Hx _]%Forall_cons].
    rewrite (run_Ref 1 _ _ _ _ d) by done. subst d. simpl.
    assert (chr_eqb e x = false) as -> by (apply chr_eqb_neq; congruence). done.
  - rewrite (run_Ref 1 _ _ _ _ d) by done. rewrite starts_with_app.
    by rewrite drop_app_length.
Qed.

Lemma bold_eval (e : ascii) (t post : str) :
  is_emphasis e = true ->
  t <> [] ->
  Forall (fun c => is_dot c = true) t ->
  Forall (fun c => c <> e) t ->
  run _RE_BOLD accept 0 ([e; e] ++ t ++ [e; e] ++ post) []
  = Some (Match (length ([e; e] ++ t ++ [e; e])) post [(2, t); (1, [e; e])]).
Proof.
  intros He Hne Hdot Ht. unfold _RE_BOLD. cbn [Lit].
  pose proof (emphasis_tail_eval [e; e] t post e [e] 2 eq_refl Hne Hdot Ht) as Htail.
  assert (length ([e; e] ++ t ++ [e; e]) = 2 + length t + length [e; e]) as ->.
  { simpl. rewrite length_app. simpl. lia. }
  rewrite run_Cat, run_Grp, run_Alt.
  change ([e; e] ++ t ++ [e; e] ++ post) with (e :: e :: t ++ [e; e] ++ post).
  unfold is_emphasis in He. apply orb_prop in He as [->%chr_eqb_eq | ->%chr_eqb_eq].
  - rewrite (run_Cat (Chr "*")), !run_Chr. simpl take. rewrite take_0.
    unfold str in *. simpl app in *. by rewrite Htail.
  - rewrite (run_Cat (Chr "*")), run_Chr_neq by done.
    change (orelse None ?x) with x.
    rewrite (run_Cat (Chr "_")), !run_Chr. simpl take. rewrite take_0.
    unfold str in *. simpl app in *. by rewrite Htail.
Qed.

Lemma italic_eval (e : ascii) (t post : str) :
  is_emphasis e = true ->
  t <> [] ->
  Forall (fun c => is_dot c = true) t ->
  Forall (fun c => c <> e) t ->
  run _RE_ITALIC accept 0 ([e] ++ t ++ [e] ++ post) []
  = Some (Match (length ([e] ++ t ++ [e])) post [(2, t); (1, [e])]).
Proof.
  intros He Hne Hdot Ht. unfold _RE_ITALIC.
  pose proof (emphasis_tail_eval [e] t post e [] 1 eq_refl Hne Hdot Ht) as Htail.
  assert (length ([e] ++ t ++ [e]) = 1 + length t + length [e]) as ->.
  { simpl. rewrite length_app. simpl. lia. }
  rewrite run_Cat, run_Grp, run_Alt.
  change ([e] ++ t ++ [e] ++ post) with (e :: t ++ [e] ++ post).
  unfold is_emphasis in He. apply orb_prop in He as [->%chr_eqb_eq | ->%chr_eqb_eq].
  - rewrite !run_Chr. simpl take. rewrite take_0.
    unfold str in *. simpl app in *. by rewrite Htail.
  - rewrite run_Chr_neq by done.
    change (orelse None ?x) with x.
    rewrite !run_Chr. simpl take. rewrite take_0.
    unfold str in *. simpl app in *. by rewrite Htail.
Qed.

(** ** One pass over a piece without delimiter *)

Lemma image_no_start (w s : str) :
  Forall (fun c => chr_eqb c "[" = false) w ->
  last w <> Some "!"%char \/ head s <> Some "["%char ->
  no_start _RE_IMAGE w s.
Proof.
  intros Hw Hor a b -> Hb.
  destruct (run _RE_IMAGE accept 0 (b ++ s) []) as [m|] eqn:E; [|done].
  apply image_start in E as (rest & E). exfalso.
  apply Forall_app in Hw as [_ Hw].
  destruct b as [|x [|y b]]; [done | |].
  - simpl in E. injection E as -> ->. destruct Hor as [H | H]; [|done].
    by rewrite last_snoc in H.
  - simpl in E. injection E as -> -> _.
    by apply Forall_cons in Hw as [_ [Hy _]%Forall_cons].
Qed.

Lemma image_copy (tpl : list tpl_item) (w s : str) :
  Forall (fun c => chr_eqb c "[" = false) w ->
  last w <> Some "!"%char \/ head s <> Some "["%char ->
  re_sub _RE_IMAGE tpl (w ++ s) = w ++ re_sub _RE_IMAGE tpl s.
Proof. intros Hw Hor. apply re_sub_copy; [done | by apply image_no_start]. Qed.

Lemma link_copy (tpl : list tpl_item) (w s : str) :
  Forall (fun c => chr_eqb c "[" = false) w ->
  re_sub _RE_LINK tpl (w ++ s) = w ++ re_sub _RE_LINK tpl s.
Proof.
  intros Hw. apply re_sub_copy; [done|].
  eapply no_start_first; [apply link_start | done].
Qed.

Lemma code_copy (tpl : list tpl_item) (w s : str) :
  Forall (fun c => chr_eqb c "`" = false) w ->
  re_sub _RE_CODE tpl (w ++ s) = w ++ re_sub _RE_CODE tpl s.
Proof.
  intros Hw. apply re_sub_copy; [done|].
  eapply no_start_first; [apply code_start | done].
Qed.

Lemma bold_copy (tpl : list tpl_item) (w s : str) :
  Forall (fun c => is_emphasis c = false) w ->
  re_sub _RE_BOLD tpl (w ++ s) = w ++ re_sub _RE_BOLD tpl s.
Proof.
  intros Hw. apply re_sub_copy; [done|].
  eapply no_start_first; [apply bold_start_first | done].
Qed.

Lemma italic_copy (tpl : list tpl_item) (w s : str) :
  Forall (fun c => is_emphasis c = false) w ->
  re_sub _RE_ITALIC tpl (w ++ s) = w ++ re_sub _RE_ITALIC tpl s.
Proof.
  intros Hw. apply re_sub_copy; [done|].
  eapply no_start_first; [apply italic_start | done].
Qed.

Lemma plain_no_bracket (s : str) :
  plain_text s -> Forall (fun c => chr_eqb c "[" = false) s.
Proof.
  intros H. eapply Forall_impl; [exact H|]. intros c. unfold is_delimiter.
  by destruct (chr_eqb c "[").
Qed.

Lemma plain_no_tick (s : str) :
  plain_text s -> Forall (fun c => chr_eqb c "`" = false) s.
Proof.
  intros H. eapply Forall_impl; [exact H|]. intros c. unfold is_delimiter.
  destruct (chr_eqb c "`"); [|done]. by rewrite orb_true_r.
Qed.

Lemma plain_no_emphasis (s : str) :
  plain_text s -> Forall (fun c => is_emphasis c = false) s.
Proof.
  intros H. eapply Forall_impl; [exact H|]. intros c. unfold is_delimiter, is_emphasis.
  destruct (chr_eqb c "*"), (chr_eqb c "_"); try done; by rewrite ?orb_true_r.
Qed.

Lemma replace_inline_skip (pre s : str) :
  plain_text pre ->
  last pre <> Some "!"%char \/ head s <> Some "["%char ->
  _replace_inline (pre ++ s) = pre ++ _replace_inline s.
Proof.
  intros Hp Hor. unfold _replace_inline.
  rewrite image_copy, link_copy, code_copy, bold_copy, italic_copy;
    auto using plain_no_bracket, plain_no_tick, plain_no_emphasis.
Qed.

Lemma re_sub_head (r : regex) (x : ascii) (lit : str) (tpl : list tpl_item)
    (s : str) (c : ascii) :
  head (re_sub r (TLit (x :: lit) :: tpl) s) = Some c -> c = x \/ head s = Some c.
Proof.
  unfold re_sub. destruct s as [|c0 s]; simpl.
  - destruct (run r accept 0 [] []) as [m|]; [|done]. simpl.
    intros [= <-]. by left.
  - destruct (run r accept 0 (c0 :: s) []) as [m|].
    + simpl. intros [= <-]. by left.
    + simpl. intros [= <-]. by right.
Qed.

Lemma first_passes_head (s : str) (c : ascii) :
  head (re_sub _RE_CODE TPL_CODE (re_sub _RE_LINK TPL_LINK (re_sub _RE_IMAGE TPL_IMAGE s)))
  = Some c ->
  c = "<"%char \/ head s = Some c.
Proof.
  intros [-> | [-> | [-> | H]%re_sub_head]%re_sub_head]%re_sub_head; auto.
Qed.

(** ** Inline constructs between plain text *)

Ltac chars :=
  repeat (apply Forall_app; split);
  first [ assumption
        | by repeat constructor
        | by apply plain_no_bracket
        | by apply plain_no_tick
        | by apply plain_no_emphasis ].

Lemma plain_not_chr (a : ascii) (s : str) :
  is_delimiter a = true -> plain_text s -> Forall (fun c => c <> a) s.
Proof.
  intros Ha H. eapply Forall_impl; [exact H|]. intros c Hc ->. congruence.
Qed.

Lemma expand_bold (t d post : str) (n : nat) :
  expand TPL_BOLD (Match n post [(2, t); (1, d)]) = "<strong>" ++ t ++ "</strong>".
Proof. unfold expand, group. simpl. by rewrite ?app_nil_r, <- ?app_assoc. Qed.

Lemma expand_italic (t d post : str) (n : nat) :
  expand TPL_ITALIC (Match n post [(2, t); (1, d)]) = "<em>" ++ t ++ "</em>".
Proof. unfold expand, group. simpl. by rewrite ?app_nil_r, <- ?app_assoc. Qed.

Lemma expand_code (t post : str) (n : nat) :
  expand TPL_CODE (Match n post [(1, t)]) = "<code>" ++ t ++ "</code>".
Proof. unfold expand, group. simpl. by rewrite ?app_nil_r, <- ?app_assoc. Qed.

Lemma expand_link (t u post : str) (n : nat) :
  expand TPL_LINK (Match n post [(2, u); (1, t)])
  = "<a href=" ++ [dquote] ++ u ++ [dquote] ++ ">" ++ t ++ "</a>".
Proof. unfold expand, group. simpl. by rewrite ?app_nil_r, <- ?app_assoc. Qed.

Lemma expand_image (alt src post : str) (n : nat) :
  expand TPL_IMAGE (Match n post [(2, src); (1, alt)])
  = "<img src=" ++ [dquote] ++ src ++ [dquote] ++ " alt=" ++ [dquote] ++ alt
    ++ [dquote] ++ "/>".
Proof. unfold expand, group. simpl. by rewrite ?app_nil_r, <- ?app_assoc. Qed.

Lemma bold_replace (e : ascii) (t s : str) :
  is_emphasis e = true -> t <> [] ->
  Forall (fun c => is_dot c = true) t -> Forall (fun c => c <> e) t ->
  re_sub _RE_BOLD TPL_BOLD (([e; e] ++ t ++ [e; e]) ++ s)
  = ("<strong>" ++ t ++ "</strong>") ++ re_sub _RE_BOLD TPL_BOLD s.
Proof.
  intros He Hne Hdot Ht.
  rewrite (re_sub_match _ _ _ _ (Match (length ([e; e] ++ t ++ [e; e])) s [(2, t); (1, [e; e])]));
    [by rewrite expand_bold | done | | done | done].
  rewrite <- !app_assoc. by apply bold_eval.
Qed.

Lemma italic_replace (e : ascii) (t s : str) :
  is_emphasis e = true -> t <> [] ->
  Forall (fun c => is_dot c = true) t -> Forall (fun c => c <> e) t ->
  re_sub _RE_ITALIC TPL_ITALIC (([e] ++ t ++ [e]) ++ s)
  = ("<em>" ++ t ++ "</em>") ++ re_sub _RE_ITALIC TPL_ITALIC s.
Proof.
  intros He Hne Hdot Ht.
  rewrite (re_sub_match _ _ _ _ (Match (length ([e] ++ t ++ [e])) s [(2, t); (1, [e])]));
    [by rewrite expand_italic | done | | done | done].
  rewrite <- !app_assoc. by apply italic_eval.
Qed.

Lemma code_replace (t s : str) :
  t <> [] -> Forall (fun c => not_chr "`" c = true) t ->
  re_sub _RE_CODE TPL_CODE (("`" ++ t ++ "`") ++ s)
  = ("<code>" ++ t ++ "</code>") ++ re_sub _RE_CODE TPL_CODE s.
Proof.
  intros Hne Ht.
  rewrite (re_sub_match _ _ _ _ (Match (length ("`" ++ t ++ "`")) s [(1, t)]));
    [by rewrite expand_code | done | | done | done].
  rewrite <- !app_assoc. by apply code_eval.
Qed.

Lemma link_replace (t u s : str) :
  t <> [] -> Forall (fun c => not_chr "]" c = true) t ->
  u <> [] -> Forall (fun c => not_chr ")" c = true) u ->
  re_sub _RE_LINK TPL_LINK (("[" ++ t ++ "](" ++ u ++ ")") ++ s)
  = ("<a href=" ++ [dquote] ++ u ++ [dquote] ++ ">" ++ t ++ "</a>")
    ++ re_sub _RE_LINK TPL_LINK s.
Proof.
  intros Hne Ht Hue Hu.
  rewrite (re_sub_match _ _ _ _
             (Match (length ("[" ++ t ++ "](" ++ u ++ ")")) s [(2, u); (1, t)]));
    [by rewrite expand_link | done | | done | done].
  rewrite <- !app_assoc. by apply link_eval.
Qed.

Lemma image_replace (alt src s : str) :
  Forall (fun c => not_chr "]" c = true) alt ->
  src <> [] -> Forall (fun c => not_chr ")" c = true) src ->
  re_sub _RE_IMAGE TPL_IMAGE (("![" ++ alt ++ "](" ++ src ++ ")") ++ s)
  = ("<img src=" ++ [dquote] ++ src ++ [dquote] ++ " alt=" ++ [dquote] ++ alt
     ++ [dquote] ++ "/>") ++ re_sub _RE_IMAGE TPL_IMAGE s.
Proof.
  intros Ha Hne Hs.
  rewrite (re_sub_match _ _ _ _
             (Match (length ("![" ++ alt ++ "](" ++ src ++ ")")) s [(2, src); (1, alt)]));
    [by rewrite expand_image | done | | done | done].
  rewrite <- !app_assoc. by apply image_eval.
Qed.

Lemma emphasis_cases (e : ascii) :
  is_emphasis e = true -> e = "*"%char \/ e = "_"%char.
Proof.
  unfold is_emphasis. intros [?%chr_eqb_eq | ?%chr_eqb_eq]%orb_prop; auto.
Qed.

Lemma plain_not_emphasis (e : ascii) (t : str) :
  is_emphasis e = true -> plain_text t -> Forall (fun c => c <> e) t.
Proof.
  intros He. apply plain_not_chr. unfold is_delimiter.
  apply emphasis_cases in He as [-> | ->]; done.
Qed.

(** X22: after plain text, a non-empty plain text without line feed between
    two doubled asterisks or two doubled underscores becomes a [<strong>]
    element, and the rest of the string is processed on its own. *)
Theorem bold_span (e : ascii) (pre t post : str) :
  is_emphasis e = true ->
  plain_text pre -> plain_text t -> t <> [] ->
  Forall (fun c => is_dot c = true) t ->
  _replace_inline (pre ++ [e; e] ++ t ++ [e; e] ++ post)
  = pre ++ "<strong>" ++ t ++ "</strong>" ++ _replace_inline post.
Proof.
  intros He Hpre Ht Hne Hdot.
  pose proof (plain_not_emphasis e t He Ht) as Hte.
  pose proof (bold_replace e t) as Hbold.
  rewrite replace_inline_skip; [f_equal | done |].
  2: { right. simpl. intros [= ->]. done. }
  unfold _replace_inline.
  replace ([e; e] ++ t ++ [e; e] ++ post) with (([e; e] ++ t ++ [e; e]) ++ post)
    by by rewrite <- !app_assoc.
  apply emphasis_cases in He as Hcases. destruct Hcases as [-> | ->].
  - rewrite image_copy, link_copy, code_copy, Hbold, italic_copy; try done; try chars.
    + by rewrite <- !app_assoc.
    + left. by rewrite !last_app.
  - rewrite image_copy, link_copy, code_copy, Hbold, italic_copy; try done; try chars.
    + by rewrite <- !app_assoc.
    + left. by rewrite !last_app.
Qed.

Lemma bold_span_witness :
  _replace_inline "a **b** c __d__" = "a <strong>b</strong> c <strong>d</strong>".
Proof.
  apply (bold_span "*" "a " "b" " c __d__"); try done; by repeat constructor.
Defined.

Lemma neq_not_chr (a : ascii) (s : str) :
  Forall (fun c => c <> a) s -> Forall (fun c => not_chr a c = true) s.
Proof.
  intros H. eapply Forall_impl; [exact H|]. intros c Hc. unfold not_chr.
  destruct (chr_eqb a c) eqn:E; [|done]. apply chr_eqb_eq in E. congruence.
Qed.

Lemma bold_not_at (e : ascii) (t s : str) :
  match t with x :: _ => x <> e | [] => False end ->
  run _RE_BOLD accept 0 (e :: t ++ s) [] = None.
Proof.
  intros Ht. destruct (run _RE_BOLD accept 0 (e :: t ++ s) []) as [m|] eqn:E; [|done].
  apply bold_start in E as (c & rest & E & _). destruct t as [|x t]; [done|].
  simpl in E. by injection E as -> ->.
Qed.

Lemma bold_not_at_end (e : ascii) (post : str) :
  is_emphasis e = true ->
  head post <> Some e ->
  run _RE_BOLD accept 0
    (e :: re_sub _RE_CODE TPL_CODE
            (re_sub _RE_LINK TPL_LINK (re_sub _RE_IMAGE TPL_IMAGE post))) []
  = None.
Proof.
  intros He Hpost.
  destruct (run _RE_BOLD accept 0 _ []) as [m|] eqn:E; [|done].
  apply bold_start in E as (c & rest & E & _). injection E as <- E.
  assert (head (re_sub _RE_CODE TPL_CODE
            (re_sub _RE_LINK TPL_LINK (re_sub _RE_IMAGE TPL_IMAGE post))) = Some e) as Hh
    by by rewrite E.
  apply first_passes_head in Hh as [-> | Hh]; [done | done].
Qed.

(** X23: after plain text, a non-empty plain text without line feed between
    two asterisks or two underscores becomes an [<em>] element and the rest
    of the string is processed on its own, provided the rest does not start
    with the same delimiter (the bold rule would then take the closing
    delimiter first). *)
Theorem italic_span (e : ascii) (pre t post : str) :
  is_emphasis e = true ->
  plain_text pre -> plain_text t -> t <> [] ->
  Forall (fun c => is_dot c = true) t ->
  head post <> Some e ->
  _replace_inline (pre ++ [e] ++ t ++ [e] ++ post)
  = pre ++ "<em>" ++ t ++ "</em>" ++ _replace_inline post.
Proof.
  intros He Hpre Ht Hne Hdot Hpost.
  pose proof (plain_not_emphasis e t He Ht) as Hte.
  pose proof (italic_replace e t) as Hitalic.
  pose proof (bold_not_at_end e post He Hpost) as Hend.
  assert (forall s, run _RE_BOLD accept 0 (e :: (t ++ [e]) ++ s) [] = None) as Hat.
  { intros s. rewrite <- app_assoc. apply bold_not_at.
    destruct t as [|x t]; [done|]. by apply Forall_cons in Hte as [? _]. }
  rewrite replace_inline_skip; [f_equal | done |].
  2: { right. simpl. intros [= ->]. done. }
  unfold _replace_inline.
  replace ([e] ++ t ++ [e] ++ post) with (([e] ++ t ++ [e]) ++ post)
    by by rewrite <- !app_assoc.
  apply emphasis_cases in He as Hcases. destruct Hcases as [-> | ->].
  - rewrite image_copy, link_copy, code_copy; try chars.
    2: { left. by rewrite !last_app. }
    rewrite (re_sub_copy _RE_BOLD), Hitalic; try done.
    + by rewrite <- !app_assoc.
    + apply no_start_app; [by apply no_start_one|].
      apply no_start_app; [|by apply no_start_one].
      eapply no_start_first; [apply bold_start_first | chars].
  - rewrite image_copy, link_copy, code_copy; try chars.
    2: { left. by rewrite !last_app. }
    rewrite (re_sub_copy _RE_BOLD), Hitalic; try done.
    + by rewrite <- !app_assoc.
    + apply no_start_app; [by apply no_start_one|].
      apply no_start_app; [|by apply no_start_one].
      eapply no_start_first; [apply bold_start_first | chars].
Qed.

Lemma italic_span_witness :
  _replace_inline "an _important_ word" = "an <em>important</em> word".
Proof.
  apply (italic_span "_" "an " "important" " word"); try done; by repeat constructor.
Defined.


(** X24: after plain text, a non-empty plain text between two backticks
    becomes a [<code>] element, and the rest of the string is processed on
    its own. *)
Theorem code_span (pre t post : str) :
  plain_text pre -> plain_text t -> t <> [] ->
  _replace_inline (pre ++ "`" ++ t ++ "`" ++ post)
  = pre ++ "<code>" ++ t ++ "</code>" ++ _replace_inline post.
Proof.
  intros Hpre Ht Hne.
  assert (Forall (fun c => not_chr "`" c = true) t) as Htick
    by by apply neq_not_chr, plain_not_chr.
  rewrite replace_inline_skip; [f_equal | done | by right].
  unfold _replace_inline.
  replace ("`" ++ t ++ "`" ++ post) with (("`" ++ t ++ "`") ++ post)
    by by rewrite <- !app_assoc.
  rewrite image_copy, link_copy, code_replace, bold_copy, italic_copy;
    try done; try chars.
  - by rewrite <- !app_assoc.
  - left. by rewrite !last_app.
Qed.

Lemma code_span_witness :
  _replace_inline "call `f(x)` twice" = "call <code>f(x)</code> twice".
Proof.
  apply (code_span "call " "f(x)" " twice"); try done; by repeat constructor.
Defined.


(** X25: after plain text that does not end in an exclamation mark, a link
    with plain, non-empty text and address (no closing bracket in the text,
    no closing parenthesis in the address) becomes an [<a>] element with
    the address as [href], and the rest of the string is processed on its
    own. *)
Theorem link_span (pre t u post : str) :
  plain_text pre -> last pre <> Some "!"%char ->
  plain_text t -> t <> [] -> Forall (fun c => c <> "]"%char) t ->
  plain_text u -> u <> [] -> Forall (fun c => c <> ")"%char) u ->
  _replace_inline (pre ++ "[" ++ t ++ "](" ++ u ++ ")" ++ post)
  = pre ++ "<a href=" ++ [dquote] ++ u ++ [dquote] ++ ">" ++ t ++ "</a>"
    ++ _replace_inline post.
Proof.
  intros Hpre Hlast Ht Hne Htb Hu Hue Hup.
  apply neq_not_chr in Htb, Hup.
  rewrite replace_inline_skip; [f_equal | done | by left].
  unfold _replace_inline.
  replace ("[" ++ t ++ "](" ++ u ++ ")" ++ post)
    with (("[" ++ t ++ "](" ++ u ++ ")") ++ post) by by rewrite <- !app_assoc.
  rewrite (re_sub_copy _RE_IMAGE), link_replace, code_copy, bold_copy, italic_copy;
    try done; try chars.
  - by rewrite <- !app_assoc.
  - apply no_start_app.
    + apply no_start_one.
      destruct (run _RE_IMAGE accept 0 _ []) as [m|] eqn:E; [|done].
      by apply image_start in E as (rest & E).
    + apply image_no_start; [chars|]. left. by rewrite !last_app.
Qed.

Lemma link_span_witness :
  _replace_inline "see [the docs](http://x.org/a) now"
  = "see <a href=" ++ [dquote] ++ "http://x.org/a" ++ [dquote] ++ ">the docs</a> now".
Proof.
  apply (link_span "see " "the docs" "http://x.org/a" " now");
    try done; by repeat constructor.
Defined.


(** X26: after plain text, an image with plain alternative text (possibly
    empty) and plain, non-empty source becomes an [<img>] element with the
    source as [src] and the text as [alt], and the rest of the string is
    processed on its own. *)
Theorem image_span (pre alt src post : str) :
  plain_text pre ->
  plain_text alt -> Forall (fun c => c <> "]"%char) alt ->
  plain_text src -> src <> [] -> Forall (fun c => c <> ")"%char) src ->
  _replace_inline (pre ++ "![" ++ alt ++ "](" ++ src ++ ")" ++ post)
  = pre ++ "<img src=" ++ [dquote] ++ src ++ [dquote] ++ " alt=" ++ [dquote] ++ alt
    ++ [dquote] ++ "/>" ++ _replace_inline post.
Proof.
  intros Hpre Ha Hab Hs Hne Hsp.
  apply neq_not_chr in Hab, Hsp.
  rewrite replace_inline_skip; [f_equal | done | by right].
  unfold _replace_inline.
  replace ("![" ++ alt ++ "](" ++ src ++ ")" ++ post)
    with (("![" ++ alt ++ "](" ++ src ++ ")") ++ post) by by rewrite <- !app_assoc.
  rewrite image_replace, link_copy, code_copy, bold_copy, italic_copy;
    try done; try chars.
  by rewrite <- !app_assoc.
Qed.

Lemma image_span_witness :
  _replace_inline "![logo](logo.png)"
  = "<img src=" ++ [dquote] ++ "logo.png" ++ [dquote] ++ " alt=" ++ [dquote] ++ "logo"
    ++ [dquote] ++ "/>".
Proof.
  apply (image_span "" "logo" "logo.png" ""); try done; by repeat constructor.
Defined.


(** X27: plain text at the head of a string is kept as it is and the rest
    is processed as if it stood alone, unless the plain text ends in an
    exclamation mark and the rest starts with an opening bracket (the two
    would then form the head of an image). *)
Theorem plain_prefix_kept (pre s : str) :
  plain_text pre ->
  last pre <> Some "!"%char \/ head s <> Some "["%char ->
  _replace_inline (pre ++ s) = pre ++ _replace_inline s
  /\ _replace_inline pre = pre.
Proof.
  intros Hpre Hor. split; [by apply replace_inline_skip|].
  by apply replace_inline_plain.
Qed.

Lemma plain_prefix_kept_witness :
  _replace_inline ("Note: " ++ "*a* and **b**")
  = "Note: " ++ _replace_inline "*a* and **b**".
Proof.
  apply (plain_prefix_kept "Note: " "*a* and **b**"); [by repeat constructor | by left].
Defined.


(** ** A delimiter without its partner *)

Lemma bold_needs_pair (e : ascii) (cs : str) (m : rmatch) :
  run _RE_BOLD accept 0 (e :: cs) [] = Some m -> head cs = Some e.
Proof.
  intros (c & rest & E & _)%bold_start. by injection E as -> ->.
Qed.

Lemma code_needs_close (cs : str) (m : rmatch) :
  run _RE_CODE accept 0 ("`"%char :: cs) [] = Some m -> In "`"%char cs.
Proof.
  intros (pos' & cs' & g' & H & _)%run_sound.
  unfold _RE_CODE in H. inv_matches. apply in_or_app. right. by left.
Qed.

Lemma italic_needs_close (e : ascii) (cs : str) (m : rmatch) :
  run _RE_ITALIC accept 0 (e :: cs) [] = Some m -> In e cs.
Proof.
  intros (pos' & cs' & g' & H & _)%run_sound.
  unfold _RE_ITALIC, dot_plus_lazy in H. inv_matches.
  all: match goal with
       | H : matches (Ref _) _ _ _ _ _ _ |- _ => inversion H; subst; clear H
       end.
  all: match goal with
       | H : lookup_group _ _ = Some _ |- _ => simpl in H; injection H as <-
       end.
  all: apply in_or_app; right; by left.
Qed.

(** X28: an asterisk, underscore or backtick that is the only delimiter
    in an otherwise plain text is left alone. *)
Theorem lone_delimiter_kept (d : ascii) (pre post : str) :
  d = "*"%char \/ d = "_"%char \/ d = "`"%char ->
  plain_text pre -> plain_text post ->
  _replace_inline (pre ++ d :: post) = pre ++ d :: post.
Proof.
  intros Hd Hpre Hpost.
  assert (d <> "["%char) as Hnb by (by destruct Hd as [-> | [-> | ->]]).
  assert (is_delimiter d = true) as Hdel by (by destruct Hd as [-> | [-> | ->]]).
  assert (~ In d post) as Hnin.
  { intros Hin%list_elem_of_In. pose proof (plain_not_chr d post Hdel Hpost) as H.
    rewrite Forall_forall in H. by apply (H d). }
  rewrite replace_inline_skip; [f_equal | done |].
  2: { right. simpl. congruence. }
  unfold _replace_inline. rewrite <- (app_nil_r (d :: post)).
  assert (Forall (fun c => chr_eqb c "[" = false) (d :: post)) as Hbr.
  { constructor; [by apply chr_eqb_neq | by apply plain_no_bracket]. }
  rewrite image_copy, link_copy by (done || by right).
  change (re_sub _RE_IMAGE TPL_IMAGE []) with (@nil ascii).
  change (re_sub _RE_LINK TPL_LINK []) with (@nil ascii).
  rewrite (re_sub_copy _RE_CODE); [| done |].
  2: { change (d :: post) with ([d] ++ post). apply no_start_app.
       - apply no_start_one.
         destruct (run _RE_CODE accept 0 _ []) as [m|] eqn:E; [|done]. exfalso.
         destruct (code_start _ _ E) as (c & rest & [= <- <-] & ->%chr_eqb_eq).
         apply code_needs_close in E. by rewrite app_nil_r in E.
       - eapply no_start_first; [apply code_start | by apply plain_no_tick]. }
  change (re_sub _RE_CODE TPL_CODE []) with (@nil ascii).
  rewrite (re_sub_copy _RE_BOLD); [| done |].
  2: { change (d :: post) with ([d] ++ post). apply no_start_app.
       - apply no_start_one.
         destruct (run _RE_BOLD accept 0 _ []) as [m|] eqn:E; [|done]. exfalso.
         apply bold_needs_pair in E. rewrite app_nil_r in E.
         destruct post; [done|]. injection E as ->. apply Hnin. by left.
       - eapply no_start_first; [apply bold_start_first | by apply plain_no_emphasis]. }
  change (re_sub _RE_BOLD TPL_BOLD []) with (@nil ascii).
  rewrite (re_sub_copy _RE_ITALIC); [done | done |].
  change (d :: post) with ([d] ++ post). apply no_start_app.
  - apply no_start_one.
    destruct (run _RE_ITALIC accept 0 _ []) as [m|] eqn:E; [|done]. exfalso.
    apply italic_needs_close in E. by rewrite app_nil_r in E.
  - eapply no_start_first; [apply italic_start | by apply plain_no_emphasis].
Qed.

Lemma lone_delimiter_kept_witness : _replace_inline "2 * 3 = 6" = "2 * 3 = 6".
Proof.
  apply (lone_delimiter_kept "*" "2 " " 3 = 6"); [by left | |]; by repeat constructor.
Defined.
